(** * The photo editor's adjustment pipeline and compositor

    A shallow embedding of the image-processing core of
    [src/photo-editor/index.tsx]: the per-pixel operators, the tone-curve
    engine, the box blur behind the haze effect, the histogram analyser, the
    stage orchestration of [drawCanvas] and its mask compositing.

    JavaScript numbers are IEEE 754 binary64 values; they are embedded as
    Rocq's primitive [float], so that [+ - * /], [Math.sqrt] and the
    comparisons evaluate here exactly as they do in the program.  The
    transcendental library functions ([Math.cos], [Math.pow]) and
    [Math.random] are left to the host by ECMAScript and are section
    variables.  A [Uint8ClampedArray] is a [list Z] of values written through
    [toUint8Clamp].

    The tone-curve engine is written once over an interface of arithmetic
    operations, [Arith].  Its binary64 instance is the program; its instance
    over the real numbers is the same algorithm without rounding, which is
    where the monotonicity of the interpolant is a theorem. *)

From Stdlib Require Import String Ascii DecimalString Reals Lra Psatz.
From Stdlib Require Import ZArith List Bool Lia Floats Permutation.
Import ListNotations.
Local Open Scope Z_scope.
Set Warnings "-inexact-float".

(** ** Arithmetic of numbers *)

Class Arith (num : Type) := {
  num_add : num -> num -> num;
  num_sub : num -> num -> num;
  num_mul : num -> num -> num;
  num_div : num -> num -> num;
  num_sqrt : num -> num;
  num_eqb : num -> num -> bool;
  num_ltb : num -> num -> bool;
  num_leb : num -> num -> bool;
  num_is_nan : num -> bool;
  num_sign_bit : num -> bool;
  (** the number of an integer literal or loop counter *)
  num_of_nat : nat -> num;
  (** what [undefined] becomes in arithmetic *)
  num_nan : num;
  (** the literal [1e-7] *)
  num_1e_7 : num
}.

Declare Scope num_scope.
Delimit Scope num_scope with num.
Notation "a + b" := (num_add a b) : num_scope.
Notation "a - b" := (num_sub a b) : num_scope.
Notation "a * b" := (num_mul a b) : num_scope.
Notation "a / b" := (num_div a b) : num_scope.
Notation "a =? b" := (num_eqb a b) (at level 70, no associativity) : num_scope.
Notation "a <? b" := (num_ltb a b) (at level 70, no associativity) : num_scope.
Notation "a <=? b" := (num_leb a b) (at level 70, no associativity) : num_scope.
Notation "# n" := (num_of_nat n) (at level 9, n at level 9, format "# n") : num_scope.

Section NumberHelpers.

Context {num : Type} {A : Arith num}.

(** [Math.max] and [Math.min] of two numbers: NaN is contagious and
    [+0] is larger than [-0]. *)
Definition Math_max (a b : num) : num :=
  if num_is_nan a || num_is_nan b then num_nan
  else if (a <? b)%num then b
  else if (b <? a)%num then a
  else if num_sign_bit a then b else a.

Definition Math_min (a b : num) : num :=
  if num_is_nan a || num_is_nan b then num_nan
  else if (a <? b)%num then a
  else if (b <? a)%num then b
  else if num_sign_bit a then a else b.

Definition Math_max3 (a b c : num) : num := Math_max (Math_max a b) c.
Definition Math_min3 (a b c : num) : num := Math_min (Math_min a b) c.

(** The idiom [Math.max(0, Math.min(255, v))] of the pixel operators. *)
Definition clamp255 (v : num) : num :=
  Math_max (#0)%num (Math_min (#255)%num v).

(** Reading an array of numbers: an index out of range reads [undefined],
    which every arithmetic use and every typed-array store turns into NaN. *)
Definition get (a : list num) (i : nat) : num := nth i a num_nan.

(** A store [a[i] = v] inside the array. *)
Fixpoint set (a : list num) (i : nat) (v : num) : list num :=
  match a, i with
  | [], _ => []
  | _ :: t, O => v :: t
  | h :: t, S j => h :: set t j v
  end.

End NumberHelpers.

(** ** JavaScript numbers *)

Module JS.

Definition number := float.
Bind Scope float_scope with number.

(** An integer read out of a typed array or a loop counter, as a number. *)
Definition ofZ (z : Z) : number :=
  match z with
  | Z0 => 0%float
  | Zpos _ => of_uint63 (Uint63.of_Z z)
  | Zneg p => (- of_uint63 (Uint63.of_Z (Zpos p)))%float
  end.

Definition ofNat (n : nat) : number := ofZ (Z.of_nat n).

Definition sign_bit (a : number) : bool :=
  match Prim2SF a with
  | S754_zero s | S754_infinity s | S754_finite s _ _ => s
  | S754_nan => false
  end.

#[export] Instance float_arith : Arith number := {
  num_add := PrimFloat.add;
  num_sub := PrimFloat.sub;
  num_mul := PrimFloat.mul;
  num_div := PrimFloat.div;
  num_sqrt := PrimFloat.sqrt;
  num_eqb := PrimFloat.eqb;
  num_ltb := PrimFloat.ltb;
  num_leb := PrimFloat.leb;
  num_is_nan := PrimFloat.is_nan;
  num_sign_bit := sign_bit;
  num_of_nat := ofNat;
  num_nan := PrimFloat.nan;
  num_1e_7 := 1e-7%float
}.

Definition Math_abs : number -> number := PrimFloat.abs.

(** The exact value of a finite number is [m * 2^e]; the integer
    conversions below work on that value. *)
Definition floorZ (v : number) : option Z :=
  match Prim2SF v with
  | S754_zero _ => Some 0
  | S754_finite s m e =>
      let sm := if s then Zneg m else Zpos m in
      Some (if 0 <=? e then sm * 2 ^ e else sm / 2 ^ (- e))
  | _ => None
  end.

(** [Math.round]: the nearest integer, ties towards +infinity. *)
Definition roundZ (v : number) : option Z :=
  match Prim2SF v with
  | S754_zero _ => Some 0
  | S754_finite s m e =>
      let sm := if s then Zneg m else Zpos m in
      Some (if 0 <=? e then sm * 2 ^ e
            else (2 * sm + 2 ^ (- e)) / 2 ^ (- e + 1))
  | _ => None
  end.

Definition Math_floor (v : number) : number :=
  match floorZ v with Some z => ofZ z | None => v end.

Definition Math_round (v : number) : number :=
  match roundZ v with Some z => ofZ z | None => v end.

(** Round to nearest, ties to even, on the exact value [m * 2^e]. *)
Definition round_half_even (m e : Z) : Z :=
  if 0 <=? e then m * 2 ^ e
  else
    let k := - e in
    let q := m / 2 ^ k in
    let r := m mod 2 ^ k in
    let half := 2 ^ (k - 1) in
    if r <? half then q
    else if half <? r then q + 1
    else if Z.even q then q else q + 1.

(** The conversion applied by every store into a [Uint8ClampedArray]:
    NaN becomes 0, the value is clamped to [0,255] and rounded to the
    nearest integer, ties to even. *)
Definition toUint8Clamp (v : number) : Z :=
  match Prim2SF v with
  | S754_nan => 0
  | S754_zero _ => 0
  | S754_infinity s => if s then 0 else 255
  | S754_finite s m e =>
      if s then 0 else Z.min 255 (Z.max 0 (round_half_even (Zpos m) e))
  end.

(** The remainder operator [%] on numbers: exact, with the sign of the
    dividend.  Only finite dividends and positive integer divisors occur. *)
Definition rem (v : number) (d : Z) : number :=
  match Prim2SF v with
  | S754_finite s m e =>
      let r := if 0 <=? e then (Zpos m * 2 ^ e) mod d
               else Zpos m mod (d * 2 ^ (- e)) in
      let e' := if 0 <=? e then 0 else e in
      let f := SF2Prim (binary_normalize prec emax r e' false) in
      if s then (- f)%float else f
  | S754_zero _ => v
  | _ => nan
  end.

(** Indexing by a number, as in [lut[Math.round(v)]]. *)
Definition at_number (a : list number) (i : number) : number :=
  match floorZ i with
  | Some z =>
      if (0 <=? z) && (ofZ z =? i)%float then get a (Z.to_nat z) else nan
  | None => nan
  end.

(** Reading a byte of a [Uint8ClampedArray]. *)
Definition rd (d : list Z) (i : Z) : number :=
  if i <? 0 then nan
  else match nth_error d (Z.to_nat i) with
       | Some v => ofZ v
       | None => nan
       end.

End JS.
Import JS.
Bind Scope float_scope with number.

(** ** Data model *)

Record ImageData := mkImageData {
  width : Z;
  height : Z;
  data : list Z
}.

(** A store [d[i] = v] into a [Uint8ClampedArray]: the value is converted by
    [toUint8Clamp]; a store outside the array is ignored. *)
Fixpoint set_byte (d : list Z) (i : nat) (b : Z) : list Z :=
  match d, i with
  | [], _ => []
  | _ :: t, O => b :: t
  | h :: t, S j => h :: set_byte t j b
  end.

Definition wr (d : list Z) (i : Z) (v : number) : list Z :=
  if i <? 0 then d else set_byte d (Z.to_nat i) (toUint8Clamp v).

(** The offsets [0, 4, 8, ...] visited by
    [for (let i = 0; i < data.length; i += 4)]. *)
Definition pixel_offsets (len : nat) : list Z :=
  map (fun k => 4 * Z.of_nat k) (seq 0 ((len + 3) / 4)).

Definition forPixels (body : list Z -> Z -> list Z) (d : list Z) : list Z :=
  fold_left body (pixel_offsets (length d)) d.

(** [for (let v = lo; v < hi; v++)] *)
Definition range (lo hi : Z) : list Z :=
  map (fun k => lo + Z.of_nat k) (seq 0 (Z.to_nat (hi - lo))).

(** ** Tone curve engine *)

Section Curves.

Context {num : Type} {A : Arith num}.

Record Point := mkPoint { px : num; py : num }.
Definition Curve := list Point.

Definition sameValueZero (a b : num) : bool :=
  (a =? b)%num || (num_is_nan a && num_is_nan b).

(** [pointMap.set(p.x, p.y)] on a [Map]: a key already present keeps its
    place and takes the new value, a new key goes last; the key [-0] is
    stored as [+0]. *)
Fixpoint Map_set (m : list Point) (k v : num) : list Point :=
  match m with
  | [] => [mkPoint (if (k =? #0)%num then (#0)%num else k) v]
  | p :: m' =>
      if sameValueZero (px p) k then mkPoint (px p) v :: m'
      else p :: Map_set m' k v
  end.

(** [.sort((a, b) => a.x - b.x)], a stable sort; a comparator value of NaN
    counts as 0. *)
Definition compare_x (a b : Point) : num :=
  let v := (px a - px b)%num in
  if num_is_nan v then (#0)%num else v.

Fixpoint insert_sorted (p : Point) (l : list Point) : list Point :=
  match l with
  | [] => [p]
  | q :: l' =>
      if (compare_x p q <=? #0)%num then p :: q :: l'
      else q :: insert_sorted p l'
  end.

Definition sort_by_x (l : list Point) : list Point :=
  fold_right insert_sorted [] l.

Definition uniquePoints (points : Curve) : list Point :=
  sort_by_x (fold_left (fun m p => Map_set m (px p) (py p)) points []).

Definition segment_dx (x : list num) (n : nat) : list num :=
  map (fun i => (get x (i + 1) - get x i)%num) (seq 0 (n - 1)).

Definition segment_delta (x y : list num) (n : nat) : list num :=
  map (fun i =>
         let dxi := (get x (i + 1) - get x i)%num in
         if (dxi <=? num_1e_7)%num then (#0)%num
         else ((get y (i + 1) - get y i) / dxi)%num)
      (seq 0 (n - 1)).

(** The initial tangents: end slopes at the ends, the mean of the two
    adjacent slopes inside. *)
Definition initial_tangents (delta : list num) (n : nat) : list num :=
  let m := repeat (#0)%num n in
  let m := set m 0 (get delta 0) in
  let m := set m (n - 1) (get delta (n - 2)) in
  fold_left
    (fun m i => set m i ((get delta (i - 1) + get delta i) / #2)%num)
    (seq 1 (n - 2)) m.

(** One iteration of the Fritsch-Carlson limiting loop, on segment [i]. *)
Definition limit_tangents (delta : list num) (m : list num) (i : nat)
    : list num :=
  if (get delta i =? #0)%num then set (set m i (#0)%num) (i + 1) (#0)%num
  else
    let alpha := (get m i / get delta i)%num in
    let beta := (get m (i + 1) / get delta i)%num in
    let m := if (alpha <? #0)%num then set m i (#0)%num else m in
    let m := if (beta <? #0)%num then set m (i + 1) (#0)%num else m in
    let hyp := num_sqrt (alpha * alpha + beta * beta)%num in
    if (#3 <? hyp)%num then
      let tau := (#3 / hyp)%num in
      let m := set m i (get m i * tau)%num in
      set m (i + 1) (get m (i + 1) * tau)%num
    else m.

Definition tangents (delta : list num) (n : nat) : list num :=
  fold_left (limit_tangents delta) (seq 0 (n - 1)) (initial_tangents delta n).

(** [while (pointIndex < n - 2 && i > x[pointIndex + 1]) pointIndex++]; the
    loop leaves after at most [n] steps. *)
Fixpoint advance (fuel : nat) (x : list num) (n : nat) (i : num)
    (pointIndex : nat) : nat :=
  match fuel with
  | O => pointIndex
  | S fuel' =>
      if (pointIndex <? n - 2)%nat && (get x (pointIndex + 1) <? i)%num
      then advance fuel' x n i (pointIndex + 1)%nat
      else pointIndex
  end.

(** The cubic Hermite value at the integer abscissa [i], on the segment
    that starts at [pointIndex]. *)
Definition hermite (x y m dx : list num) (pointIndex : nat) (i : num) : num :=
  let h := get dx pointIndex in
  let t := if (num_1e_7 <? h)%num then ((i - get x pointIndex) / h)%num
           else (#0)%num in
  let y0 := get y pointIndex in
  let y1 := get y (pointIndex + 1) in
  let m0 := (get m pointIndex * h)%num in
  let m1 := (get m (pointIndex + 1) * h)%num in
  let t2 := (t * t)%num in
  let t3 := (t2 * t)%num in
  let h00 := (#2 * t3 - #3 * t2 + #1)%num in
  let h10 := (t3 - #2 * t2 + t)%num in
  let h01 := ((#0 - #2) * t3 + #3 * t2)%num in
  let h11 := (t3 - t2)%num in
  (h00 * y0 + h10 * m0 + h01 * y1 + h11 * m1)%num.

Fixpoint lut_loop (x y m dx : list num) (n : nat) (ixs : list nat)
    (pointIndex : nat) : list num :=
  match ixs with
  | [] => []
  | i :: ixs' =>
      let pointIndex := advance n x n (#i)%num pointIndex in
      clamp255 (hermite x y m dx pointIndex (#i)%num)
        :: lut_loop x y m dx n ixs' pointIndex
  end.

Definition createLutFromPoints (points : Curve) : list num :=
  match uniquePoints points with
  | [] => map num_of_nat (seq 0 256)
  | [p] => repeat (clamp255 (py p)) 256
  | up =>
      let n := length up in
      let x := map px up in
      let y := map py up in
      let dx := segment_dx x n in
      let delta := segment_delta x y n in
      let m := tangents delta n in
      let lut := lut_loop x y m dx n (seq 0 256) 0 in
      set lut 255 (get y (n - 1))
  end.

Definition initialCurve : Curve :=
  [mkPoint (#0)%num (#0)%num; mkPoint (#255)%num (#255)%num].

(** [c.length === 2 && c[0].x === 0 && c[0].y === 0 && c[1].x === 255 &&
    c[1].y === 255] *)
Definition isDefault (c : Curve) : bool :=
  match c with
  | [p0; p1] =>
      (px p0 =? #0)%num && (py p0 =? #0)%num
      && (px p1 =? #255)%num && (py p1 =? #255)%num
  | _ => false
  end.

End Curves.

Arguments Point num : clear implicits.
Arguments Curve num : clear implicits.

Record CurvesState := mkCurves {
  c_rgb : Curve number;
  c_red : Curve number;
  c_green : Curve number;
  c_blue : Curve number
}.

Definition BAYER_MATRIX_8X8 : list (list Z) :=
  [ [  0; 32;  8; 40;  2; 34; 10; 42 ];
    [ 48; 16; 56; 24; 50; 18; 58; 26 ];
    [ 12; 44;  4; 36; 14; 46;  6; 38 ];
    [ 60; 28; 52; 20; 62; 30; 54; 22 ];
    [  3; 35; 11; 43;  1; 33;  9; 41 ];
    [ 51; 19; 59; 27; 49; 17; 57; 25 ];
    [ 15; 47;  7; 39; 13; 45;  5; 37 ];
    [ 63; 31; 55; 23; 61; 29; 53; 21 ] ].

(** ** Colour space converter *)

Definition rgbToHsl (r g b : number) : number * number * number :=
  let r := (r / 255)%float in
  let g := (g / 255)%float in
  let b := (b / 255)%float in
  let max := Math_max3 r g b in
  let min := Math_min3 r g b in
  let l := ((max + min) / 2)%float in
  if negb (max =? min)%float then
    let d := (max - min)%float in
    let s := if (0.5 <? l)%float then (d / (2 - max - min))%float
             else (d / (max + min))%float in
    let h :=
      if (max =? r)%float then
        ((g - b) / d + (if (g <? b)%float then 6 else 0))%float
      else if (max =? g)%float then ((b - r) / d + 2)%float
      else if (max =? b)%float then ((r - g) / d + 4)%float
      else 0%float in
    ((h / 6 * 360)%float, s, l)
  else ((0 * 360)%float, 0%float, l).

Definition hue2rgb (p q t : number) : number :=
  let t := if (t <? 0)%float then (t + 1)%float else t in
  let t := if (1 <? t)%float then (t - 1)%float else t in
  if (t <? 1 / 6)%float then (p + (q - p) * 6 * t)%float
  else if (t <? 1 / 2)%float then q
  else if (t <? 2 / 3)%float then (p + (q - p) * (2 / 3 - t) * 6)%float
  else p.

Definition hslToRgb (h s l : number) : number * number * number :=
  let h := (h / 360)%float in
  if (s =? 0)%float then ((l * 255)%float, (l * 255)%float, (l * 255)%float)
  else
    let q := if (l <? 0.5)%float then (l * (1 + s))%float
             else (l + s - l * s)%float in
    let p := (2 * l - q)%float in
    let r := hue2rgb p q (h + 1 / 3)%float in
    let g := hue2rgb p q h in
    let b := hue2rgb p q (h - 1 / 3)%float in
    ((r * 255)%float, (g * 255)%float, (b * 255)%float).

Record HSLColor := mkHSL { hsl_h : number; hsl_s : number; hsl_l : number }.

Record HSLFilters := mkHSLFilters {
  red : HSLColor;
  orange : HSLColor;
  yellow : HSLColor;
  green : HSLColor;
  aqua : HSLColor;
  blue : HSLColor;
  purple : HSLColor;
  magenta : HSLColor
}.

(** [Object.entries(HSL_RANGES)], in key order: the band, its centre and
    its range in degrees. *)
Definition HSL_RANGES : list ((HSLFilters -> HSLColor) * number * number) :=
  [ (red, 0, 90); (orange, 30, 90); (yellow, 60, 90); (green, 120, 150);
    (aqua, 180, 90); (blue, 240, 150); (purple, 285, 120);
    (magenta, 330, 90) ]%float.

Definition Math_PI : number := 3.141592653589793%float.

(** ** Pixel operators *)

Section Operators.

(** The host's [Math.cos], [Math.pow] and [Math.random]; the latter is
    indexed by the offset of the pixel whose iteration makes the call. *)
Variable Math_cos : number -> number.
Variable Math_pow : number -> number -> number.
Variable Math_random : Z -> number.

(** The raised-cosine weight [(cos(dist / half * PI) + 1) / 2]. *)
Definition raised_cosine (dist half : number) : number :=
  ((Math_cos (dist / half * Math_PI) + 1) / 2)%float.

Definition hue_distance (h center : number) : number :=
  Math_min (Math_abs (h - center)) (360 - Math_abs (h - center))%float.

(** One turn of the loop over [HSL_RANGES] in [applyHsl]; the state is
    [(totalHueChange, totalSatChange, totalLumChange, totalInfluence)]. *)
Definition hsl_band (hslAdjustments : HSLFilters) (h : number)
    (acc : number * number * number * number)
    (entry : (HSLFilters -> HSLColor) * number * number)
    : number * number * number * number :=
  let '(color, center, range) := entry in
  let '(totalHueChange, totalSatChange, totalLumChange, totalInfluence) := acc in
  let adj := color hslAdjustments in
  if (hsl_h adj =? 0)%float && (hsl_s adj =? 0)%float && (hsl_l adj =? 0)%float
  then acc
  else
    let dist := hue_distance h center in
    let influence :=
      if (dist <? range / 2)%float
      then Math_pow (raised_cosine dist (range / 2)%float) 2%float
      else 0%float in
    if (0 <? influence)%float then
      ((totalHueChange + hsl_h adj / 100 * 180 * influence)%float,
       (totalSatChange + hsl_s adj / 100 * influence)%float,
       (totalLumChange + hsl_l adj / 100 * influence)%float,
       (totalInfluence + influence)%float)
    else acc.

Definition applyHsl_pixel (hslAdjustments : HSLFilters) (d : list Z) (i : Z)
    : list Z :=
  let '(h, s, l) := rgbToHsl (rd d i) (rd d (i + 1)) (rd d (i + 2)) in
  let '(totalHueChange, totalSatChange, totalLumChange, totalInfluence) :=
    fold_left (hsl_band hslAdjustments h) HSL_RANGES
              (0%float, 0%float, 0%float, 0%float) in
  let norm := (1 <? totalInfluence)%float in
  let totalHueChange :=
    if norm then (totalHueChange / totalInfluence)%float else totalHueChange in
  let totalSatChange :=
    if norm then (totalSatChange / totalInfluence)%float else totalSatChange in
  let totalLumChange :=
    if norm then (totalLumChange / totalInfluence)%float else totalLumChange in
  let h := rem (h + totalHueChange + 360)%float 360 in
  let s := Math_max 0%float (Math_min 1%float (s + totalSatChange)%float) in
  let l := Math_max 0%float (Math_min 1%float (l + totalLumChange)%float) in
  let '(newR, newG, newB) := hslToRgb h s l in
  wr (wr (wr d i newR) (i + 1) newG) (i + 2) newB.

Definition applyHsl (imageData : ImageData) (hslAdjustments : HSLFilters)
    : ImageData :=
  mkImageData (width imageData) (height imageData)
    (forPixels (applyHsl_pixel hslAdjustments) (data imageData)).

Definition applyHighlightsShadows_pixel (h_adj s_adj : number) (d : list Z)
    (i : Z) : list Z :=
  let '(h, s, l) := rgbToHsl (rd d i) (rd d (i + 1)) (rd d (i + 2)) in
  let shadow_mask :=
    if (l <? 0.5)%float then Math_pow (Math_cos (l * Math_PI)%float) 2%float
    else 0%float in
  let shadow_boost := (s_adj * shadow_mask)%float in
  let highlight_mask :=
    if (0.5 <? l)%float
    then Math_pow (Math_cos ((1 - l) * Math_PI)%float) 2%float
    else 0%float in
  let highlight_boost := (h_adj * highlight_mask)%float in
  let new_l := (l + shadow_boost + highlight_boost)%float in
  let new_l := Math_max 0%float (Math_min 1%float new_l) in
  let '(newR, newG, newB) := hslToRgb h s new_l in
  wr (wr (wr d i newR) (i + 1) newG) (i + 2) newB.

Definition applyHighlightsShadows (imageData : ImageData)
    (highlights shadows : number) : ImageData :=
  let h_adj := (highlights / 100)%float in
  let s_adj := (shadows / 100)%float in
  if (h_adj =? 0)%float && (s_adj =? 0)%float then imageData
  else
    mkImageData (width imageData) (height imageData)
      (forPixels (applyHighlightsShadows_pixel h_adj s_adj) (data imageData)).

Definition applyWhitesBlacks_pixel (whites_adj blacks_adj : number)
    (d : list Z) (i : Z) : list Z :=
  let r := rd d i in
  let g := rd d (i + 1) in
  let b := rd d (i + 2) in
  let luma := ((r * 0.299 + g * 0.587 + b * 0.114) / 255)%float in
  let '(r, g, b) :=
    if negb (whites_adj =? 0)%float then
      let white_factor := (whites_adj * luma * luma)%float in
      (clamp255 (r + white_factor * 255)%float,
       clamp255 (g + white_factor * 255)%float,
       clamp255 (b + white_factor * 255)%float)
    else (r, g, b) in
  let '(r, g, b) :=
    if negb (blacks_adj =? 0)%float then
      let black_factor := (blacks_adj * (1 - luma) * (1 - luma))%float in
      (clamp255 (r - black_factor * 255)%float,
       clamp255 (g - black_factor * 255)%float,
       clamp255 (b - black_factor * 255)%float)
    else (r, g, b) in
  wr (wr (wr d i r) (i + 1) g) (i + 2) b.

Definition applyWhitesBlacks (imageData : ImageData) (whites blacks : number)
    : ImageData :=
  if (whites =? 0)%float && (blacks =? 0)%float then imageData
  else
    let whites_adj := (whites / 100)%float in
    let blacks_adj := (blacks / 100)%float in
    mkImageData (width imageData) (height imageData)
      (forPixels (applyWhitesBlacks_pixel whites_adj blacks_adj)
                 (data imageData)).

Definition applyExposure_pixel (multiplier : number) (d : list Z) (i : Z)
    : list Z :=
  let d := wr d i (clamp255 (rd d i * multiplier)%float) in
  let d := wr d (i + 1) (clamp255 (rd d (i + 1) * multiplier)%float) in
  wr d (i + 2) (clamp255 (rd d (i + 2) * multiplier)%float).

Definition applyExposure (imageData : ImageData) (amount : number)
    : ImageData :=
  if (amount =? 0)%float then imageData
  else
    let multiplier := Math_pow 2%float (amount / 100)%float in
    mkImageData (width imageData) (height imageData)
      (forPixels (applyExposure_pixel multiplier) (data imageData)).

Definition applyTemperature_pixel (amount : number) (d : list Z) (i : Z)
    : list Z :=
  let d := wr d i (clamp255 (rd d i + amount)%float) in
  wr d (i + 2) (clamp255 (rd d (i + 2) - amount)%float).

Definition applyTemperature (imageData : ImageData) (temperature : number)
    : ImageData :=
  let amount := (temperature / 2)%float in
  if (amount =? 0)%float then imageData
  else
    mkImageData (width imageData) (height imageData)
      (forPixels (applyTemperature_pixel amount) (data imageData)).

(** The 3x3 kernel sum at channel [c] of pixel [(x, y)], read from the
    copy [src]. *)
Definition sharpen_total (src : list Z) (kernel : list number) (w y x c : Z)
    : number :=
  fold_left
    (fun total ky =>
       fold_left
         (fun total kx =>
            let sy := y + ky in
            let sx := x + kx in
            let si := (sy * w + sx) * 4 + c in
            let ki := (ky + 1) * 3 + (kx + 1) in
            (total + rd src si * get kernel (Z.to_nat ki))%float)
         (range (-1) 2) total)
    (range (-1) 2) 0%float.

Definition applySharpen (imageData : ImageData) (amount : number)
    : ImageData :=
  let strength := (amount / 100)%float in
  if (strength =? 0)%float then imageData
  else
    let w := width imageData in
    let h := height imageData in
    let src := data imageData in
    let kernel :=
      [ 0; -1 * strength; 0;
        -1 * strength; 1 + 4 * strength; -1 * strength;
        0; -1 * strength; 0 ]%float in
    let dst :=
      fold_left
        (fun dst y =>
           fold_left
             (fun dst x =>
                fold_left
                  (fun dst c =>
                     let i := (y * w + x) * 4 + c in
                     wr dst i (clamp255 (sharpen_total src kernel w y x c)))
                  (range 0 3) dst)
             (range 1 (w - 1)) dst)
        (range 1 (h - 1)) (data imageData) in
    mkImageData w h dst.

Definition applyGrain_pixel (strength : number) (d : list Z) (i : Z)
    : list Z :=
  let noise := ((Math_random i - 0.5) * strength)%float in
  let d := wr d i (clamp255 (rd d i + noise)%float) in
  let d := wr d (i + 1) (clamp255 (rd d (i + 1) + noise)%float) in
  wr d (i + 2) (clamp255 (rd d (i + 2) + noise)%float).

Definition applyGrain (imageData : ImageData) (amount : number) : ImageData :=
  if (amount =? 0)%float then imageData
  else
    let strength := (amount * 2.55)%float in
    mkImageData (width imageData) (height imageData)
      (forPixels (applyGrain_pixel strength) (data imageData)).

Definition applyVibrance_pixel (amount adjust : number) (d : list Z) (i : Z)
    : list Z :=
  let r := rd d i in
  let g := rd d (i + 1) in
  let b := rd d (i + 2) in
  let max := Math_max3 r g b in
  let avg := ((r + g + b) / 3)%float in
  let sat := Math_abs (max - avg)%float in
  let boost := (adjust / 255 * (1 - sat / 128))%float in
  if (boost <=? 0)%float && (0 <? amount)%float then d
  else if (0 <=? boost)%float && (amount <? 0)%float then d
  else
    let d := wr d i (clamp255 (r + (max - r) * boost)%float) in
    let d := wr d (i + 1) (clamp255 (g + (max - g) * boost)%float) in
    wr d (i + 2) (clamp255 (b + (max - b) * boost)%float).

Definition applyVibrance (imageData : ImageData) (amount : number)
    : ImageData :=
  let adjust := (amount * 1.5)%float in
  if (adjust =? 0)%float then imageData
  else
    mkImageData (width imageData) (height imageData)
      (forPixels (applyVibrance_pixel amount adjust) (data imageData)).

Definition applyDehaze_pixel (strength : number) (d : list Z) (i : Z)
    : list Z :=
  let airlight_r := 220%float in
  let airlight_g := 220%float in
  let airlight_b := 230%float in
  let t0 := 0.1%float in
  let transmission :=
    (1 - strength * Math_min3 (rd d i / airlight_r) (rd d (i + 1) / airlight_g)
                              (rd d (i + 2) / airlight_b))%float in
  let d := wr d i
    (clamp255 ((rd d i - airlight_r) / Math_max transmission t0 + airlight_r)%float) in
  let d := wr d (i + 1)
    (clamp255 ((rd d (i + 1) - airlight_g) / Math_max transmission t0 + airlight_g)%float) in
  wr d (i + 2)
    (clamp255 ((rd d (i + 2) - airlight_b) / Math_max transmission t0 + airlight_b)%float).

Definition applyDehaze (imageData : ImageData) (amount : number) : ImageData :=
  if (amount =? 0)%float then imageData
  else
    let strength := (amount / 100)%float in
    mkImageData (width imageData) (height imageData)
      (forPixels (applyDehaze_pixel strength) (data imageData)).

(** *** Box blur *)

(** The offsets [-r, ..., r] of [for (let i = -r; i <= r; i++)]. *)
Definition window (r : Z) : list Z := range (- r) (r + 1).

(** The accumulators of one averaging window.  [pos] is the coordinate
    that moves ([x] in the horizontal pass, [y] in the vertical one),
    [bound] its limit and [idx] gives the sample offset of an in-bounds
    coordinate.  The state is [(r_acc, g_acc, b_acc, a_acc, count)]. *)
Definition window_step (tempSrc : list Z) (pos bound : Z) (idx : Z -> Z)
    (acc : number * number * number * number * Z) (i : Z)
    : number * number * number * number * Z :=
  let '(r_acc, g_acc, b_acc, a_acc, count) := acc in
  let pi := pos + i in
  if (0 <=? pi) && (pi <? bound) then
    let src_idx := idx pi in
    ((r_acc + rd tempSrc src_idx)%float,
     (g_acc + rd tempSrc (src_idx + 1))%float,
     (b_acc + rd tempSrc (src_idx + 2))%float,
     (a_acc + rd tempSrc (src_idx + 3))%float,
     count + 1)
  else acc.

Definition window_acc (tempSrc : list Z) (pos bound r : Z) (idx : Z -> Z)
    : number * number * number * number * Z :=
  fold_left (window_step tempSrc pos bound idx) (window r)
            (0%float, 0%float, 0%float, 0%float, 0).

Definition store_average (dstData : list Z) (dst_idx : Z)
    (acc : number * number * number * number * Z) : list Z :=
  let '(r_acc, g_acc, b_acc, a_acc, count) := acc in
  let dstData := wr dstData dst_idx (r_acc / ofZ count)%float in
  let dstData := wr dstData (dst_idx + 1) (g_acc / ofZ count)%float in
  let dstData := wr dstData (dst_idx + 2) (b_acc / ofZ count)%float in
  wr dstData (dst_idx + 3) (a_acc / ofZ count)%float.

Definition horizontal_pass (tempSrc dstData : list Z) (w h r : Z) : list Z :=
  fold_left
    (fun dstData y =>
       fold_left
         (fun dstData x =>
            store_average dstData ((y * w + x) * 4)
              (window_acc tempSrc x w r (fun xi => (y * w + xi) * 4)))
         (range 0 w) dstData)
    (range 0 h) dstData.

Definition vertical_pass (tempSrc dstData : list Z) (w h r : Z) : list Z :=
  fold_left
    (fun dstData x =>
       fold_left
         (fun dstData y =>
            store_average dstData ((y * w + x) * 4)
              (window_acc tempSrc y h r (fun yi => (yi * w + x) * 4)))
         (range 0 h) dstData)
    (range 0 w) dstData.

(** [tempSrc.set(src)]: the source overwrites the front of [tempSrc]; a
    source longer than [tempSrc] raises a [RangeError]. *)
Definition typed_set (tempSrc src : list Z) : option (list Z) :=
  if (length tempSrc <? length src)%nat then None
  else Some (src ++ skipn (length src) tempSrc).

Definition boxBlur (srcData dstData : list Z) (w h r : Z)
    : option (list Z) :=
  let tempSrc := srcData in
  let dstData := horizontal_pass tempSrc dstData w h r in
  match typed_set tempSrc dstData with
  | None => None
  | Some tempSrc => Some (vertical_pass tempSrc dstData w h r)
  end.

(** *** Haze *)

(** [new ImageData(w, h)]: a zero-filled buffer. *)
Definition new_ImageData (w h : Z) : ImageData :=
  mkImageData w h (repeat 0 (Z.to_nat (w * h * 4))).

Definition haze_color (spread : number) : number * number * number :=
  let warmth := ((spread - 50) / 50)%float in
  if (0 <? warmth)%float then
    (Math_min 255%float (230 + 25 * warmth)%float,
     Math_min 255%float (230 + 10 * warmth)%float,
     Math_max 0%float (230 - 25 * warmth)%float)
  else
    (Math_max 0%float (230 + 25 * warmth)%float,
     Math_max 0%float (230 + 5 * warmth)%float,
     Math_min 255%float (230 - 40 * warmth)%float).

Definition glow_pixel (d : list Z) (hazeR hazeG hazeB : number)
    (glow : list Z) (i : Z) : list Z :=
  let r := rd d i in
  let g := rd d (i + 1) in
  let b := rd d (i + 2) in
  let luma := (r * 0.299 + g * 0.587 + b * 0.114)%float in
  let glow := wr glow i hazeR in
  let glow := wr glow (i + 1) hazeG in
  let glow := wr glow (i + 2) hazeB in
  wr glow (i + 3) (luma * luma / 255)%float.

(** The loop bound of the blur window as an integer; a NaN radius makes
    the window loop exit at once, like a negative one. *)
Definition radius_of (v : number) : Z :=
  match floorZ v with Some z => z | None => -1 end.

Definition haze_pixel (blurred : list Z) (hazeAmount : number) (d : list Z)
    (i : Z) : list Z :=
  let glowAlpha := (rd blurred (i + 3) / 255)%float in
  let blend := (glowAlpha * hazeAmount)%float in
  let d := wr d i (rd d i * (1 - blend) + rd blurred i * blend)%float in
  let d := wr d (i + 1)
    (rd d (i + 1) * (1 - blend) + rd blurred (i + 1) * blend)%float in
  wr d (i + 2) (rd d (i + 2) * (1 - blend) + rd blurred (i + 2) * blend)%float.

Definition applyHaze (imageData : ImageData) (amount spread : number)
    : ImageData :=
  if (amount =? 0)%float then imageData
  else
    let w := width imageData in
    let h := height imageData in
    let d := data imageData in
    let '(hazeR, hazeG, hazeB) := haze_color spread in
    let glowMap :=
      fold_left (glow_pixel d hazeR hazeG hazeB) (pixel_offsets (length d))
                (data (new_ImageData w h)) in
    let blurRadius :=
      Math_floor
        (Math_max 1%float
           (amount / 100 * (Math_min (ofZ w) (ofZ h) * 0.05))%float) in
    let blurredGlowMap :=
      match boxBlur glowMap (data (new_ImageData w h)) w h
                    (radius_of blurRadius) with
      | Some blurred => blurred
      | None => data (new_ImageData w h)
      end in
    let hazeAmount := (amount / 100)%float in
    mkImageData w h (forPixels (haze_pixel blurredGlowMap hazeAmount) d).

(** *** Curves *)

Definition lookup (lut : list number) (v : number) : number :=
  at_number lut (Math_round (clamp255 v)).

Definition channel_influence (isChannelDefault : bool) (h center : number)
    : number :=
  let dist := hue_distance h center in
  if negb isChannelDefault && (dist <? 90)%float
  then Math_pow (raised_cosine dist 90%float) 1.5%float
  else 0%float.

Definition applyCurves_pixel (width : Z) (lutRgb lutR lutG lutB : list number)
    (isRedDefault isGreenDefault isBlueDefault : bool) (d : list Z) (i : Z)
    : list Z :=
  let needsHueMasking :=
    negb isRedDefault || negb isGreenDefault || negb isBlueDefault in
  let pixelIndex := i / 4 in
  let x := pixelIndex mod width in
  let y := pixelIndex / width in
  let dither :=
    (ofZ (nth (Z.to_nat (x mod 8))
              (nth (Z.to_nat (y mod 8)) BAYER_MATRIX_8X8 []) 0%Z)
     / 64 - 0.5)%float in
  let r_in := rd d i in
  let g_in := rd d (i + 1) in
  let b_in := rd d (i + 2) in
  let '(r_processed, g_processed, b_processed) :=
    if needsHueMasking then
      let '(h, s, _) := rgbToHsl r_in g_in b_in in
      if (0.05 <? s)%float then
        let r_adj := lookup lutR (r_in + dither)%float in
        let g_adj := lookup lutG (g_in + dither)%float in
        let b_adj := lookup lutB (b_in + dither)%float in
        let redInfluence := channel_influence isRedDefault h 0%float in
        let greenInfluence := channel_influence isGreenDefault h 120%float in
        let blueInfluence := channel_influence isBlueDefault h 240%float in
        ((r_in * (1 - redInfluence) + r_adj * redInfluence)%float,
         (g_in * (1 - greenInfluence) + g_adj * greenInfluence)%float,
         (b_in * (1 - blueInfluence) + b_adj * blueInfluence)%float)
      else (r_in, g_in, b_in)
    else
      (lookup lutR (r_in + dither)%float,
       lookup lutG (g_in + dither)%float,
       lookup lutB (b_in + dither)%float) in
  let d := wr d i (lookup lutRgb (r_processed + dither)%float) in
  let d := wr d (i + 1) (lookup lutRgb (g_processed + dither)%float) in
  wr d (i + 2) (lookup lutRgb (b_processed + dither)%float).

Definition applyCurves (imageData : ImageData) (curves : CurvesState)
    : ImageData :=
  let lutRgb := createLutFromPoints (c_rgb curves) in
  let lutR := createLutFromPoints (c_red curves) in
  let lutG := createLutFromPoints (c_green curves) in
  let lutB := createLutFromPoints (c_blue curves) in
  mkImageData (width imageData) (height imageData)
    (forPixels
       (applyCurves_pixel (width imageData) lutRgb lutR lutG lutB
          (isDefault (c_red curves)) (isDefault (c_green curves))
          (isDefault (c_blue curves)))
       (data imageData)).

End Operators.

(** ** Histogram analyser *)

Module Histogram.

Record HistogramData := mkHistogramData {
  rgb : list number;
  red : list number;
  green : list number;
  blue : list number
}.

(** [hist[k]++].  The counters are integers far below 2^53, which binary64
    holds exactly; they are kept in [Z] until they are scaled. *)
Fixpoint incr (hist : list Z) (k : nat) : list Z :=
  match hist, k with
  | [], _ => []
  | c :: t, O => (c + 1) :: t
  | c :: t, S j => c :: incr t j
  end.

Definition incr_at (hist : list Z) (k : option Z) : list Z :=
  match k with
  | Some z => if z <? 0 then hist else incr hist (Z.to_nat z)
  | None => hist
  end.

Definition byte_at (d : list Z) (i : Z) : option Z :=
  if i <? 0 then None else nth_error d (Z.to_nat i).

Definition luma_index (red green blue : Z) : option Z :=
  roundZ (ofZ red * 0.299 + ofZ green * 0.587 + ofZ blue * 0.114)%float.

(** One turn of the counting loop; the state is the four arrays
    [(rgb, r, g, b)]. *)
Definition count_pixel (d : list Z)
    (st : list Z * list Z * list Z * list Z) (i : Z)
    : list Z * list Z * list Z * list Z :=
  let '(rgb, r, g, b) := st in
  match byte_at d i, byte_at d (i + 1), byte_at d (i + 2) with
  | Some red, Some green, Some blue =>
      (incr_at rgb (luma_index red green blue),
       incr_at r (Some red), incr_at g (Some green), incr_at b (Some blue))
  | _, _, _ => st
  end.

(** [Math.max(...hist)] on an array of counters. *)
Definition max_of (hist : list Z) : Z :=
  match hist with
  | [] => 0
  | c :: t => fold_left Z.max t c
  end.

Definition normalize (hist : list Z) : list number :=
  let maxVal := max_of hist in
  if maxVal =? 0 then map ofZ hist
  else
    let scale := (255 / ofZ maxVal)%float in
    map (fun val => (ofZ val * scale)%float) hist.

Definition counts (imageData : ImageData)
    : list Z * list Z * list Z * list Z :=
  let zeros := repeat 0 256 in
  fold_left (count_pixel (data imageData))
            (pixel_offsets (length (data imageData)))
            (zeros, zeros, zeros, zeros).

Definition calculateHistogram (imageData : ImageData) : HistogramData :=
  let '(rgb, r, g, b) := counts imageData in
  mkHistogramData (normalize rgb) (normalize r) (normalize g) (normalize b).

End Histogram.

(** ** Adjustments *)

Record BasicFilters := mkBasicFilters {
  brightness : number;
  contrast : number;
  saturation : number;
  sepia : number;
  exposure : number;
  highlights : number;
  shadows : number;
  whites : number;
  blacks : number;
  temperature : number;
  vibrance : number;
  sharpen : number;
  dehaze : number;
  grain : number;
  haze : number;
  hazeSpread : number
}.

Record Adjustments := mkAdjustments {
  filters : BasicFilters;
  hsl : HSLFilters;
  curves : CurvesState
}.

Definition initialFilters : BasicFilters :=
  mkBasicFilters 100 100 100 0 0 0 0 0 0 0 0 0 0 0 0 50.

Definition initialHSL : HSLFilters :=
  let z := mkHSL 0 0 0 in mkHSLFilters z z z z z z z z.

Definition initialCurves : CurvesState :=
  mkCurves initialCurve initialCurve initialCurve initialCurve.

Definition initialAdjustments : Adjustments :=
  mkAdjustments initialFilters initialHSL initialCurves.

(** The keys of [pixelFilters], the rest of [filters] once [brightness],
    [contrast], [saturation] and [sepia] are taken out, in the order of the
    object's properties. *)
Definition pixelFilterKeys : list (BasicFilters -> number) :=
  [ exposure; highlights; shadows; whites; blacks; temperature; vibrance;
    sharpen; dehaze; grain; haze; hazeSpread ].

(** [v !== initialFilters[Object.keys(pixelFilters).find(k => pixelFilters[k]
    === v)]]: the value is compared with the initial value of the first key
    that holds it; when no key holds it ([v] is NaN) the lookup is
    [undefined] and the comparison is true. *)
Definition differs_from_initial (f : BasicFilters) (v : number) : bool :=
  match find (fun k => (k f =? v)%float) pixelFilterKeys with
  | Some k => negb (v =? k initialFilters)%float
  | None => true
  end.

Definition hslValues (h : HSLFilters) : list HSLColor :=
  [ red h; orange h; yellow h; green h; aqua h; blue h; purple h; magenta h ].

Definition hsl_active (h : HSLFilters) : bool :=
  existsb (fun c => negb (hsl_h c =? 0)%float || negb (hsl_s c =? 0)%float
                    || negb (hsl_l c =? 0)%float)
          (hslValues h).

Definition curvesAreDefault (c : CurvesState) : bool :=
  isDefault (c_rgb c) && isDefault (c_red c) && isDefault (c_green c)
  && isDefault (c_blue c).

Definition needsPixelManipulation (a : Adjustments) : bool :=
  existsb (differs_from_initial (filters a))
          (map (fun k => k (filters a)) pixelFilterKeys)
  || negb (curvesAreDefault (curves a))
  || hsl_active (hsl a).

(** ** Canvas surfaces

    A canvas holds one premultiplied 8-bit RGBA pixel per position.  The
    compositing operators are those of the canvas 2D context
    ([globalCompositeOperation]), computed on premultiplied channels with
    products rounded to the nearest 8-bit value. *)

Record RGBA := mkRGBA { cr : Z; cg : Z; cb : Z; ca : Z }.

Record Surface := mkSurface {
  s_width : Z;
  s_height : Z;
  s_pixels : list RGBA
}.

Definition transparent : RGBA := mkRGBA 0 0 0 0.
Definition opaque_black : RGBA := mkRGBA 0 0 0 255.
Definition opaque_white : RGBA := mkRGBA 255 255 255 255.

(** [a * b / 255], rounded to nearest. *)
Definition mul255 (a b : Z) : Z := (a * b + 127) / 255.

Definition pointwise (f : Z -> Z -> Z -> Z -> Z) (fa : Z -> Z -> Z)
    (s b : RGBA) : RGBA :=
  mkRGBA (f (cr s) (ca s) (cr b) (ca b)) (f (cg s) (ca s) (cg b) (ca b))
         (f (cb s) (ca s) (cb b) (ca b)) (fa (ca s) (ca b)).

(** ['source-over']: [co = cs + cb (1 - as)]. *)
Definition source_over : RGBA -> RGBA -> RGBA :=
  pointwise (fun cs as_ cb ab => cs + mul255 cb (255 - as_))
            (fun as_ ab => as_ + mul255 ab (255 - as_)).

(** ['lighten']: the blend [max] composited with source-over, that is
    [co = cs (1 - ab) + cb (1 - as) + max (cs ab) (cb as)]. *)
Definition lighten : RGBA -> RGBA -> RGBA :=
  pointwise (fun cs as_ cb ab =>
               mul255 cs (255 - ab) + mul255 cb (255 - as_)
               + Z.max (mul255 cs ab) (mul255 cb as_))
            (fun as_ ab => as_ + mul255 ab (255 - as_)).

(** ['xor']: [co = cs (1 - ab) + cb (1 - as)]. *)
Definition xor : RGBA -> RGBA -> RGBA :=
  pointwise (fun cs as_ cb ab => mul255 cs (255 - ab) + mul255 cb (255 - as_))
            (fun as_ ab => mul255 as_ (255 - ab) + mul255 ab (255 - as_)).

(** ['destination-in']: [co = cb as]. *)
Definition destination_in : RGBA -> RGBA -> RGBA :=
  pointwise (fun cs as_ cb ab => mul255 cb as_)
            (fun as_ ab => mul255 ab as_).

Definition pixel_at (s : Surface) (x y : Z) : RGBA :=
  if (0 <=? x) && (x <? s_width s) && (0 <=? y) && (y <? s_height s)
  then nth (Z.to_nat (y * s_width s + x)) (s_pixels s) transparent
  else transparent.

Definition tabulate (w h : Z) (f : Z -> Z -> RGBA) : Surface :=
  mkSurface w h
    (map (fun k => f (Z.of_nat k mod w) (Z.of_nat k / w))
         (seq 0 (Z.to_nat w * Z.to_nat h))).

(** [document.createElement('canvas')] sized [w] by [h]: all transparent. *)
Definition createCanvas (w h : Z) : Surface :=
  tabulate w h (fun _ _ => transparent).

(** [ctx.drawImage(src, 0, 0)] under the operator [op]: the source is placed
    at the origin at its own size; what falls outside the canvas is not
    drawn, and where the source does not reach it counts as transparent. *)
Definition drawImage (op : RGBA -> RGBA -> RGBA) (src dst : Surface) : Surface :=
  tabulate (s_width dst) (s_height dst)
    (fun x y => op (pixel_at src x y) (pixel_at dst x y)).

(** [ctx.fillRect(0, 0, canvas.width, canvas.height)] with a solid colour. *)
Definition fillRect (op : RGBA -> RGBA -> RGBA) (color : RGBA) (dst : Surface)
    : Surface :=
  tabulate (s_width dst) (s_height dst) (fun x y => op color (pixel_at dst x y)).

Definition byte_or_0 (d : list Z) (i : Z) : Z :=
  if i <? 0 then 0 else nth (Z.to_nat i) d 0.

(** A decoded image or an [ImageData] as a canvas source: channels are
    premultiplied by alpha. *)
Definition toSurface (img : ImageData) : Surface :=
  tabulate (width img) (height img)
    (fun x y =>
       let i := (y * width img + x) * 4 in
       let a := byte_or_0 (data img) (i + 3) in
       mkRGBA (mul255 (byte_or_0 (data img) i) a)
              (mul255 (byte_or_0 (data img) (i + 1)) a)
              (mul255 (byte_or_0 (data img) (i + 2)) a) a).

(** ** Layers and editor state *)

(** A layer; [maskSrc] is the mask image once decoded, [None] for [null]. *)
Record Layer := mkLayer {
  id : string;
  name : string;
  isVisible : bool;
  maskSrc : option ImageData;
  isMaskInverted : bool
}.

Record EditorState := mkEditorState {
  baseImageSrc : option ImageData;
  layers : list Layer;
  adjustments : Adjustments
}.

Definition has_mask (l : Layer) : bool :=
  match maskSrc l with Some _ => true | None => false end.

(** [l => l.isVisible && l.maskSrc] *)
Definition visible (l : Layer) : bool := isVisible l && has_mask l.

(** One turn of the loop over [visibleLayers]: the layer's mask is drawn on
    a temporary canvas of the size of the main canvas, complemented when the
    layer asks for it, and lightened into the composite. *)
Definition mask_canvas (w h : Z) (layer : Layer) : Surface :=
  let tempMaskCanvas := createCanvas w h in
  let tempMaskCanvas :=
    match maskSrc layer with
    | Some maskImage => drawImage source_over (toSurface maskImage) tempMaskCanvas
    | None => tempMaskCanvas
    end in
  if isMaskInverted layer then fillRect xor opaque_white tempMaskCanvas
  else tempMaskCanvas.

Definition combine_mask (w h : Z) (maskCompositeCanvas : Surface) (layer : Layer)
    : Surface :=
  drawImage lighten (mask_canvas w h layer) maskCompositeCanvas.

Definition compositeMask (w h : Z) (visibleLayers : list Layer) : Surface :=
  fold_left (combine_mask w h) visibleLayers
            (fillRect source_over opaque_black (createCanvas w h)).

(** ** Pipeline orchestrator *)

(** [if (c) imageData = f(imageData);] *)
Definition when (c : bool) (f : ImageData -> ImageData) (imageData : ImageData)
    : ImageData :=
  if c then f imageData else imageData.

Section Pipeline.

Variable Math_cos : number -> number.
Variable Math_pow : number -> number -> number.
Variable Math_random : Z -> number.

(** The canvas' own [filter], applied while the base image is drawn:
    [brightness(b%) contrast(c%) saturate(s%) sepia(p%)].  It belongs to
    the browser. *)
Variable canvasFilter : number -> number -> number -> number ->
                        ImageData -> ImageData.

(** The body of [if (needsPixelManipulation) { ... }]: a run of
    conditional reassignments of [imageData]. *)
Definition pixelStages (imageData : ImageData) (a : Adjustments) : ImageData :=
  let f := filters a in
  let imageData :=
    when (negb (exposure f =? 0)%float)
         (fun d => applyExposure Math_pow d (exposure f)) imageData in
  let imageData :=
    when (negb (temperature f =? 0)%float)
         (fun d => applyTemperature d (temperature f)) imageData in
  let imageData :=
    when (negb (vibrance f =? 0)%float)
         (fun d => applyVibrance d (vibrance f)) imageData in
  let imageData :=
    when (negb (dehaze f =? 0)%float)
         (fun d => applyDehaze d (dehaze f)) imageData in
  let imageData :=
    when (negb (highlights f =? 0)%float || negb (shadows f =? 0)%float)
         (fun d => applyHighlightsShadows Math_cos Math_pow d
                     (highlights f) (shadows f)) imageData in
  let imageData :=
    when (negb (whites f =? 0)%float || negb (blacks f =? 0)%float)
         (fun d => applyWhitesBlacks d (whites f) (blacks f)) imageData in
  let imageData :=
    when (negb (curvesAreDefault (curves a)))
         (fun d => applyCurves Math_cos Math_pow d (curves a)) imageData in
  let imageData :=
    when (hsl_active (hsl a))
         (fun d => applyHsl Math_cos Math_pow d (hsl a)) imageData in
  let imageData :=
    when (0 <? haze f)%float
         (fun d => applyHaze d (haze f) (hazeSpread f)) imageData in
  let imageData :=
    when (0 <? sharpen f)%float
         (fun d => applySharpen d (sharpen f)) imageData in
  when (0 <? grain f)%float
       (fun d => applyGrain Math_random d (grain f)) imageData.

(** The content of [adjustedImageCanvas]: the base image drawn through the
    canvas filter, then the pixel stages when they are needed. *)
Definition adjustedImage (baseImage : ImageData) (a : Adjustments)
    : ImageData :=
  let f := filters a in
  let drawn :=
    canvasFilter (brightness f) (contrast f) (saturation f) (sepia f)
                 baseImage in
  if needsPixelManipulation a then pixelStages drawn a else drawn.

(** The same pipeline as the specification words it: twelve stages in a
    fixed order, each left out exactly when its parameters are at their
    identity values. *)
Record Stage := mkStage {
  at_identity : Adjustments -> bool;
  run : ImageData -> Adjustments -> ImageData
}.

Definition spec_stages : list Stage :=
  let is0 (v : number) := (v =? 0)%float in
  [ mkStage (fun a => (brightness (filters a) =? 100)%float
                      && (contrast (filters a) =? 100)%float
                      && (saturation (filters a) =? 100)%float
                      && is0 (sepia (filters a)))
            (fun img a => canvasFilter (brightness (filters a))
                            (contrast (filters a)) (saturation (filters a))
                            (sepia (filters a)) img);
    mkStage (fun a => is0 (exposure (filters a)))
            (fun img a => applyExposure Math_pow img (exposure (filters a)));
    mkStage (fun a => is0 (temperature (filters a)))
            (fun img a => applyTemperature img (temperature (filters a)));
    mkStage (fun a => is0 (vibrance (filters a)))
            (fun img a => applyVibrance img (vibrance (filters a)));
    mkStage (fun a => is0 (dehaze (filters a)))
            (fun img a => applyDehaze img (dehaze (filters a)));
    mkStage (fun a => is0 (highlights (filters a)) && is0 (shadows (filters a)))
            (fun img a => applyHighlightsShadows Math_cos Math_pow img
                            (highlights (filters a)) (shadows (filters a)));
    mkStage (fun a => is0 (whites (filters a)) && is0 (blacks (filters a)))
            (fun img a => applyWhitesBlacks img (whites (filters a))
                            (blacks (filters a)));
    mkStage (fun a => curvesAreDefault (curves a))
            (fun img a => applyCurves Math_cos Math_pow img (curves a));
    mkStage (fun a => negb (hsl_active (hsl a)))
            (fun img a => applyHsl Math_cos Math_pow img (hsl a));
    mkStage (fun a => is0 (haze (filters a)))
            (fun img a => applyHaze img (haze (filters a))
                            (hazeSpread (filters a)));
    mkStage (fun a => is0 (sharpen (filters a)))
            (fun img a => applySharpen img (sharpen (filters a)));
    mkStage (fun a => is0 (grain (filters a)))
            (fun img a => applyGrain Math_random img (grain (filters a))) ].

Definition spec_pipeline (baseImage : ImageData) (a : Adjustments)
    : ImageData :=
  fold_left (fun img st => if at_identity st a then img else run st img a)
            spec_stages baseImage.

(** [drawCanvas]: the content of the main canvas afterwards, [None] when
    there is no base image and nothing is drawn. *)
Definition drawCanvas (currentState : EditorState)
    (activeAdjustments : Adjustments) : option Surface :=
  match baseImageSrc currentState with
  | None => None
  | Some baseImage =>
      let w := width baseImage in
      let h := height baseImage in
      let adjustedImageCanvas :=
        toSurface (adjustedImage baseImage activeAdjustments) in
      let canvas := createCanvas w h in
      let visibleLayers :=
        filter visible (layers currentState) in
      match visibleLayers with
      | [] => Some (drawImage source_over adjustedImageCanvas canvas)
      | _ =>
          let canvas := drawImage source_over (toSurface baseImage) canvas in
          let maskCompositeCanvas := compositeMask w h visibleLayers in
          let finalAdjustedLayerCanvas :=
            drawImage source_over adjustedImageCanvas (createCanvas w h) in
          let finalAdjustedLayerCanvas :=
            drawImage destination_in maskCompositeCanvas
                      finalAdjustedLayerCanvas in
          Some (drawImage source_over finalAdjustedLayerCanvas canvas)
      end
  end.

End Pipeline.

(** ** Exact arithmetic

    The real numbers as an instance of [Arith]: no rounding, no NaN, no
    signed zero.  The comparisons are the classical decisions. *)

Module Exact.

Definition Rltb (a b : R) : bool := if Rlt_dec a b then true else false.
Definition Rleb (a b : R) : bool := if Rle_dec a b then true else false.
Definition Reqb (a b : R) : bool := if Req_dec_T a b then true else false.

#[export] Instance real_arith : Arith R := {
  num_add := Rplus;
  num_sub := Rminus;
  num_mul := Rmult;
  num_div := Rdiv;
  num_sqrt := R_sqrt.sqrt;
  num_eqb := Reqb;
  num_ltb := Rltb;
  num_leb := Rleb;
  num_is_nan := fun _ => false;
  num_sign_bit := fun _ => false;
  num_of_nat := INR;
  num_nan := 0%R;
  num_1e_7 := (1 / 10000000)%R
}.

Local Open Scope R_scope.

(** The derivative of the Hermite cubic, as a function of the local
    abscissa [u], for a rise [D] and scaled end tangents [a] and [b]. *)
Definition hermite_slope (D a b u : R) : R :=
  D * (6 * u - 6 * u * u) + a * (3 * u * u - 4 * u + 1)
  + b * (3 * u * u - 2 * u).

(** The Hermite cubic itself, on the local abscissa [t]. *)
Definition hermite_value (y0 y1 a b t : R) : R :=
  (2 * (t * t * t) - 3 * (t * t) + 1) * y0
  + (t * t * t - 2 * (t * t) + t) * a
  + ((0 - 2) * (t * t * t) + 3 * (t * t)) * y1
  + (t * t * t - t * t) * b.

(** Every entry of [m] is non-negative. *)
Definition nonneg (m : list R) : Prop := forall j, 0 <= get m j.

(** The Fritsch-Carlson condition on segment [k]: the end tangents lie in
    the disc of radius 3 times the slope. *)
Definition in_disc (delta m : list R) (k : nat) : Prop :=
  get m k * get m k + get m (k + 1) * get m (k + 1)
  <= 9 * (get delta k * get delta k).

(** [m'] is entry-wise below [m]. *)
Definition below (m' m : list R) : Prop := forall j, get m' j <= get m j.

(** Consecutive entries of a list of reals are in order. *)
Definition chain (l : list R) : Prop :=
  forall k, (k + 1 < length l)%nat -> nth k l 0 <= nth (k + 1) l 0.

End Exact.

(** ** Properties of buffers and surfaces *)

(** A byte is a value of [0..255]; a buffer is well formed when all its
    entries are bytes. *)
Definition in_range (v : Z) : Prop := 0 <= v <= 255.
Definition buffer_ok (d : list Z) : Prop := Forall in_range d.

(** A canvas pixel that is fully transparent or fully opaque. *)
Definition binary_pixel (p : RGBA) : Prop := p = transparent \/ ca p = 255.

Definition binary_mask (l : Layer) : Prop :=
  match maskSrc l with
  | Some m => Forall binary_pixel (s_pixels (toSurface m))
  | None => True
  end.

Definition all_zero (hist : list number) : Prop :=
  forallb (fun v => (v =? 0)%float) hist = true.

(** A histogram of counters with the single entry [v] at index [k]. *)
Definition spike (k : nat) (v : Z) : list Z :=
  repeat 0 k ++ v :: repeat 0 (255 - k).

(** A buffer of [n] pixels of one colour. *)
Definition uniform (r g b a : Z) (n : nat) : list Z :=
  concat (repeat [r; g; b; a] n).

(** [l[i] <= l[i+1]] at every index that has a successor. *)
Definition nondecreasing {num : Type} {A : Arith num} (l : list num) : Prop :=
  forall i : nat, (i + 1 < length l)%nat ->
    (get l i <=? get l (i + 1))%num = true.

(** The curve of the scenario, two points short of the right edge, and a
    flat curve. *)
Definition scenario_curve : Curve number :=
  [mkPoint 0 0; mkPoint 128 200; mkPoint 255 255]%float.

Definition short_curve : Curve number :=
  [mkPoint 0 0; mkPoint 100 100]%float.

Definition flat_curve : Curve number :=
  [mkPoint 0 100; mkPoint 255 100]%float.

(** A host for closed examples: its library functions answer NaN, its
    random source 0.5 (no noise); its canvas filter scales the colour bytes
    by the brightness and is the identity at the identity values. *)
Module SampleHost.

Definition Math_cos (v : number) : number := nan.
Definition Math_pow (v e : number) : number := nan.
Definition Math_random (i : Z) : number := 0.5%float.

Definition scale_pixel (b : number) (d : list Z) (i : Z) : list Z :=
  let d := wr d i (rd d i * (b / 100))%float in
  let d := wr d (i + 1) (rd d (i + 1) * (b / 100))%float in
  wr d (i + 2) (rd d (i + 2) * (b / 100))%float.

Definition canvasFilter (b c s p : number) (img : ImageData) : ImageData :=
  if (b =? 100)%float && (c =? 100)%float && (s =? 100)%float
     && (p =? 0)%float
  then img
  else mkImageData (width img) (height img)
         (forPixels (scale_pixel b) (data img)).

End SampleHost.

(** ** Auxiliary values of the statements *)

Definition default_lut : list number :=
  createLutFromPoints (initialCurve (num := number)).

Definition near_identity_entry (i : nat) : bool :=
  let v := get default_lut i in
  (toUint8Clamp v =? Z.of_nat i)
  && match roundZ v with Some z => z =? Z.of_nat i | None => false end
  && (Math_abs (v - ofNat i) <? 1e-13)%float.

(** The keys of [pixelFilters] whose initial value is 0: all but the last,
    [hazeSpread]. *)
Definition zeroKeys : list (BasicFilters -> number) :=
  [ exposure; highlights; shadows; whites; blacks; temperature; vibrance;
    sharpen; dehaze; grain; haze ].

Definition warm_adjustments : Adjustments :=
  mkAdjustments
    (mkBasicFilters 100 100 100 0 0 0 0 0 0 100 0 0 0 0 0 50)
    initialHSL initialCurves.

Definition small_base : ImageData := mkImageData 1 1 [1; 2; 3; 255].

Definition big_mask_layer : Layer :=
  mkLayer "layer-1"%string "Subject Mask"%string true
          (Some (mkImageData 2 2 (repeat 255 16))) false.

(** A canvas of size [w] by [h] all of whose pixels are opaque. *)
Definition opaque_canvas (w h : Z) (s : Surface) : Prop :=
  s_width s = w /\ s_height s = h
  /\ forall x y, 0 <= x < w -> 0 <= y < h -> ca (pixel_at s x y) = 255.

Definition hidden_layer : Layer :=
  mkLayer "layer-1"%string "Layer 1"%string false
          (Some (mkImageData 1 1 [0; 0; 0; 255])) false.

Definition soft_layer : Layer :=
  mkLayer "layer-1"%string "Linear Gradient"%string true
          (Some (mkImageData 1 1 [255; 255; 255; 128])) false.

Definition gray_layer : Layer :=
  mkLayer "layer-2"%string "Sky Mask"%string true
          (Some (mkImageData 1 1 [128; 128; 128; 255])) false.

Definition white_layer : Layer :=
  mkLayer "layer-1"%string "Layer 1"%string true
          (Some (mkImageData 1 1 [255; 255; 255; 255])) false.

Definition black_layer : Layer :=
  mkLayer "layer-2"%string "Layer 2"%string true
          (Some (mkImageData 1 1 [0; 0; 0; 255])) true.

(** ** Undo history

    The component keeps its states in [history = { stack, index }]; every
    edit goes through [commitChange], which the undo and redo buttons
    navigate. *)

Definition MAX_HISTORY : nat := 30.

Record HistoryState := mkHistoryState {
  stack : list EditorState;
  index : Z
}.

Definition initialState : EditorState :=
  mkEditorState None [] initialAdjustments.

(** [useState<HistoryState>({ stack: [initialState], index: 0 })] *)
Definition initialHistory : HistoryState := mkHistoryState [initialState] 0.

(** [a[i]] on an array: [None] stands for [undefined]. *)
Definition item {X : Type} (a : list X) (i : Z) : option X :=
  if i <? 0 then None else nth_error a (Z.to_nat i).

(** [a.slice(0, e)]: a negative end counts from the end of the array. *)
Definition slice0 {X : Type} (a : list X) (e : Z) : list X :=
  let len := Z.of_nat (length a) in
  let k := if e <? 0 then Z.max (len + e) 0 else Z.min e len in
  firstn (Z.to_nat k) a.

(** [history.stack[history.index]] *)
Definition currentState (h : HistoryState) : option EditorState :=
  item (stack h) (index h).

Definition canUndo (h : HistoryState) : bool := 0 <? index h.

Definition canRedo (h : HistoryState) : bool :=
  index h <? Z.of_nat (length (stack h)) - 1.

(** The function handed to [setHistory] by [commitChange(updater,
    overwrite)].  The updater is applied to the draft [stack[index]]; were
    the index outside the stack the draft would be [undefined], which no
    updater of the program is written for: that case is [None].  The history
    invariant proved below excludes it. *)
Definition commitChange (updater : EditorState -> EditorState)
    (overwrite : bool) (prevHistoryState : HistoryState)
    : option HistoryState :=
  let stack := stack prevHistoryState in
  let index := index prevHistoryState in
  match item stack index with
  | None => None
  | Some baseState =>
      let newState := updater baseState in
      let newHistoryBase :=
        if overwrite then slice0 stack index else slice0 stack (index + 1) in
      let newStack := newHistoryBase ++ [newState] in
      let newStack :=
        if (MAX_HISTORY <? length newStack)%nat then tl newStack
        else newStack in
      Some (mkHistoryState newStack (Z.of_nat (length newStack) - 1))
  end.

(** [undo] and [redo] on the history; the buttons' guards [canUndo] and
    [canRedo] are read from the same history. *)
Definition undoHistory (h : HistoryState) : HistoryState :=
  if canUndo h then mkHistoryState (stack h) (index h - 1) else h.

Definition redoHistory (h : HistoryState) : HistoryState :=
  if canRedo h
  then mkHistoryState (stack h)
         (Z.min (Z.of_nat (length (stack h)) - 1) (index h + 1))
  else h.

(** ** Layer edits

    The updaters that the layer panel hands to [commitChange]. *)

Definition with_layers (f : list Layer -> list Layer) (draft : EditorState)
    : EditorState :=
  mkEditorState (baseImageSrc draft) (f (layers draft)) (adjustments draft).

(** [draft.layers.map(l => l.id === id ? f(l) : l)] *)
Definition map_layer (i : string) (f : Layer -> Layer) (ls : list Layer)
    : list Layer :=
  map (fun l => if String.eqb (id l) i then f l else l) ls.

(** [{...draft, layers: [...draft.layers, newLayer]}] *)
Definition addLayer_updater (newLayer : Layer) : EditorState -> EditorState :=
  with_layers (fun ls => ls ++ [newLayer]).

(** [{ ...l, isVisible: !l.isVisible }] on the layers named [id] *)
Definition toggleLayerVisibility_updater (i : string)
    : EditorState -> EditorState :=
  with_layers
    (map_layer i (fun l => mkLayer (id l) (name l) (negb (isVisible l))
                             (maskSrc l) (isMaskInverted l))).

(** [draft.layers.filter(l => l.id !== id)] *)
Definition deleteLayer_updater (i : string) : EditorState -> EditorState :=
  with_layers (filter (fun l => negb (String.eqb (id l) i))).

(** [{ ...l, name: newName }] *)
Definition updateLayerName_updater (i newName : string)
    : EditorState -> EditorState :=
  with_layers
    (map_layer i (fun l => mkLayer (id l) newName (isVisible l) (maskSrc l)
                             (isMaskInverted l))).

(** [{ ...l, maskSrc }]: the brush stroke or the AI mask stored on the
    layer, and [maskSrc: null] of [clearActiveMask]. *)
Definition setMask_updater (i : string) (m : option ImageData)
    : EditorState -> EditorState :=
  with_layers
    (map_layer i (fun l => mkLayer (id l) (name l) (isVisible l) m
                             (isMaskInverted l))).

Definition clearActiveMask_updater (i : string) : EditorState -> EditorState :=
  setMask_updater i None.

(** [{ ...l, isMaskInverted: e.target.checked }] of the Invert Mask switch *)
Definition invertMask_updater (i : string) (checked : bool)
    : EditorState -> EditorState :=
  with_layers
    (map_layer i (fun l => mkLayer (id l) (name l) (isVisible l) (maskSrc l)
                             checked)).

(** The text of a non-negative integer in a template literal. *)
Definition decimal (n : N) : string := NilZero.string_of_uint (N.to_uint n).

(** The layer made by [addLayer(name)] at the time [now] of [Date.now()],
    when the current state holds [count] layers; an absent or empty name is
    replaced by the default one. *)
Definition newLayer (name : option string) (now : N) (count : nat) : Layer :=
  let default := ("Mask " ++ decimal (N.of_nat (count + 1)))%string in
  mkLayer ("layer_" ++ decimal now)%string
          (match name with
           | Some n => if String.eqb n "" then default else n
           | None => default
           end)
          true None false.

(** ** The component's editing state

    The part of the component state that the editing handlers read and
    write: the history, the adjustments being dragged and the selected
    layer.  The handlers that defer their commit with [setTimeout] are
    given by the state once the timer has run. *)

Record App := mkApp {
  history : HistoryState;
  liveAdjustments : option Adjustments;
  activeLayerId : option string
}.

Definition initialApp : App := mkApp initialHistory None None.

(** [liveAdjustments ?? currentState.adjustments] *)
Definition activeAdjustments (app : App) : option Adjustments :=
  match liveAdjustments app with
  | Some a => Some a
  | None => option_map adjustments (currentState (history app))
  end.

(** [commitChange] as a step of the component: the other state stays. *)
Definition commit (updater : EditorState -> EditorState) (overwrite : bool)
    (app : App) : option App :=
  option_map (fun h => mkApp h (liveAdjustments app) (activeLayerId app))
             (commitChange updater overwrite (history app)).

Definition undo (app : App) : App :=
  if canUndo (history app)
  then mkApp (undoHistory (history app)) None (activeLayerId app)
  else app.

Definition redo (app : App) : App :=
  if canRedo (history app)
  then mkApp (redoHistory (history app)) None (activeLayerId app)
  else app.

(** The keys of [BasicFilters]. *)
Inductive FilterKey :=
  | k_brightness | k_contrast | k_saturation | k_sepia | k_exposure
  | k_highlights | k_shadows | k_whites | k_blacks | k_temperature
  | k_vibrance | k_sharpen | k_dehaze | k_grain | k_haze | k_hazeSpread.

Definition FilterKey_eqb (a b : FilterKey) : bool :=
  match a, b with
  | k_brightness, k_brightness | k_contrast, k_contrast
  | k_saturation, k_saturation | k_sepia, k_sepia
  | k_exposure, k_exposure | k_highlights, k_highlights
  | k_shadows, k_shadows | k_whites, k_whites | k_blacks, k_blacks
  | k_temperature, k_temperature | k_vibrance, k_vibrance
  | k_sharpen, k_sharpen | k_dehaze, k_dehaze | k_grain, k_grain
  | k_haze, k_haze | k_hazeSpread, k_hazeSpread => true
  | _, _ => false
  end.

Definition getFilter (k : FilterKey) : BasicFilters -> number :=
  match k with
  | k_brightness => brightness | k_contrast => contrast
  | k_saturation => saturation | k_sepia => sepia | k_exposure => exposure
  | k_highlights => highlights | k_shadows => shadows | k_whites => whites
  | k_blacks => blacks | k_temperature => temperature
  | k_vibrance => vibrance | k_sharpen => sharpen | k_dehaze => dehaze
  | k_grain => grain | k_haze => haze | k_hazeSpread => hazeSpread
  end.

(** [{ ...filters, [filter]: value }] *)
Definition setFilter (k : FilterKey) (v : number) (f : BasicFilters)
    : BasicFilters :=
  let pick (k' : FilterKey) : number :=
    if FilterKey_eqb k k' then v else getFilter k' f in
  mkBasicFilters
    (pick k_brightness) (pick k_contrast) (pick k_saturation) (pick k_sepia)
    (pick k_exposure) (pick k_highlights) (pick k_shadows) (pick k_whites)
    (pick k_blacks) (pick k_temperature) (pick k_vibrance) (pick k_sharpen)
    (pick k_dehaze) (pick k_grain) (pick k_haze) (pick k_hazeSpread).

(** [draft => ({ ...draft, filters: { ...draft.filters, [filter]: value } })] *)
Definition withFilter (k : FilterKey) (v : number) (a : Adjustments)
    : Adjustments :=
  mkAdjustments (setFilter k v (filters a)) (hsl a) (curves a).

(** [{ ...draft, adjustments }] *)
Definition with_adjustments (f : Adjustments -> Adjustments)
    (draft : EditorState) : EditorState :=
  mkEditorState (baseImageSrc draft) (layers draft) (f (adjustments draft)).

(** [handleLiveUpdate(updater)]: [setLiveAdjustments(updater(activeAdjustments))];
    there is nothing to update before the first state exists. *)
Definition handleLiveUpdate (updater : Adjustments -> Adjustments) (app : App)
    : option App :=
  match activeAdjustments app with
  | Some a => Some (mkApp (history app) (Some (updater a)) (activeLayerId app))
  | None => None
  end.

Definition handleFilterChange (k : FilterKey) (v : number) : App -> option App :=
  handleLiveUpdate (withFilter k v).

(** [handleCommitUpdate]: the dragged adjustments become a history entry. *)
Definition handleCommitUpdate (app : App) : option App :=
  match liveAdjustments app with
  | Some live =>
      option_map (fun h => mkApp h None (activeLayerId app))
        (commitChange (with_adjustments (fun _ => live)) false (history app))
  | None => Some app
  end.

(** [handleFilterCommit(filter, value)] of the sliders that commit on
    release: the committed adjustments are updated, the dragged ones are
    dropped. *)
Definition handleFilterCommit (k : FilterKey) (v : number) (app : App)
    : option App :=
  option_map (fun h => mkApp h None (activeLayerId app))
    (commitChange (with_adjustments (withFilter k v)) false (history app)).

(** [applyPreset(preset)] *)
Definition applyPreset (presetAdjustments : Adjustments) : App -> option App :=
  commit (with_adjustments (fun _ => presetAdjustments)) false.

(** [resetAll]: nothing without an image; otherwise a fresh history on the
    same image. *)
Definition resetAll (app : App) : App :=
  match currentState (history app) with
  | Some st =>
      match baseImageSrc st with
      | Some src =>
          mkApp (mkHistoryState [mkEditorState (Some src) [] initialAdjustments] 0)
                None None
      | None => app
      end
  | None => app
  end.

(** [handleFileChange], once the file is read: a fresh history on the new
    image. *)
Definition handleFileChange (imgSrc : ImageData) (app : App) : App :=
  mkApp (mkHistoryState [mkEditorState (Some imgSrc) [] initialAdjustments] 0)
        None None.

(** [addLayer(name)]: the new layer is committed and selected. *)
Definition addLayer (name : option string) (now : N) (app : App)
    : option App :=
  match currentState (history app) with
  | Some st =>
      let l := newLayer name now (length (layers st)) in
      option_map (fun h => mkApp h (liveAdjustments app) (Some (id l)))
        (commitChange (addLayer_updater l) false (history app))
  | None => None
  end.

Definition toggleLayerVisibility (i : string) : App -> option App :=
  commit (toggleLayerVisibility_updater i) false.

(** [deleteLayer(id)]: the selection is dropped with the selected layer. *)
Definition deleteLayer (i : string) (app : App) : option App :=
  option_map
    (fun h => mkApp h (liveAdjustments app)
                (match activeLayerId app with
                 | Some a => if String.eqb a i then None else Some a
                 | None => None
                 end))
    (commitChange (deleteLayer_updater i) false (history app)).

Definition updateLayerName (i newName : string) : App -> option App :=
  commit (updateLayerName_updater i newName) false.

(** [clearActiveMask]: nothing without a selected layer. *)
Definition clearActiveMask (app : App) : option App :=
  match activeLayerId app with
  | Some i => commit (clearActiveMask_updater i) false app
  | None => Some app
  end.

(** The Invert Mask switch: it commits when the selected layer exists. *)
Definition invertMask (checked : bool) (app : App) : option App :=
  match currentState (history app), activeLayerId app with
  | Some st, Some i =>
      match find (fun l => String.eqb (id l) i) (layers st) with
      | Some _ => commit (invertMask_updater i checked) false app
      | None => Some app
      end
  | Some _, None => Some app
  | None, _ => None
  end.

(** The end of a brush stroke in [handleCanvasMouseUp]: the mask canvas is
    stored on the selected layer. *)
Definition storeMask (mask : ImageData) (app : App) : option App :=
  match activeLayerId app with
  | Some i => commit (setMask_updater i (Some mask)) false app
  | None => Some app
  end.

(** The updater of [applyDestructiveTransform] (rotate, flip, straighten,
    crop): the transformed picture replaces the current entry. *)
Definition applyDestructiveTransform (newImage : ImageData) (app : App)
    : option App :=
  match currentState (history app) with
  | Some st =>
      match baseImageSrc st with
      | Some _ =>
          option_map (fun h => mkApp h (liveAdjustments app) None)
            (commitChange
               (fun draft => mkEditorState (Some newImage) [] initialAdjustments)
               true (history app))
      | None => Some app
      end
  | None => None
  end.

(** The edits of a session. *)
Inductive Edit :=
  | EditCommit (updater : EditorState -> EditorState) (overwrite : bool)
  | EditUndo
  | EditRedo
  | EditLive (updater : Adjustments -> Adjustments)
  | EditCommitLive
  | EditFilterCommit (k : FilterKey) (v : number)
  | EditPreset (a : Adjustments)
  | EditReset
  | EditOpen (imgSrc : ImageData)
  | EditAddLayer (name : option string) (now : N)
  | EditToggleLayer (i : string)
  | EditDeleteLayer (i : string)
  | EditRenameLayer (i newName : string)
  | EditClearMask
  | EditInvertMask (checked : bool)
  | EditStoreMask (mask : ImageData)
  | EditTransform (newImage : ImageData).

Definition edit (e : Edit) (app : App) : option App :=
  match e with
  | EditCommit updater overwrite => commit updater overwrite app
  | EditUndo => Some (undo app)
  | EditRedo => Some (redo app)
  | EditLive updater => handleLiveUpdate updater app
  | EditCommitLive => handleCommitUpdate app
  | EditFilterCommit k v => handleFilterCommit k v app
  | EditPreset a => applyPreset a app
  | EditReset => Some (resetAll app)
  | EditOpen imgSrc => Some (handleFileChange imgSrc app)
  | EditAddLayer name now => addLayer name now app
  | EditToggleLayer i => toggleLayerVisibility i app
  | EditDeleteLayer i => deleteLayer i app
  | EditRenameLayer i newName => updateLayerName i newName app
  | EditClearMask => clearActiveMask app
  | EditInvertMask checked => invertMask checked app
  | EditStoreMask mask => storeMask mask app
  | EditTransform newImage => applyDestructiveTransform newImage app
  end.

(** A session: the edits in order, from the first state on. *)
Fixpoint session (es : list Edit) (app : App) : option App :=
  match es with
  | [] => Some app
  | e :: es' =>
      match edit e app with
      | Some app' => session es' app'
      | None => None
      end
  end.

(** The history invariant: the index points into the stack, which holds at
    most [MAX_HISTORY] states. *)
Definition history_ok (h : HistoryState) : Prop :=
  0 <= index h < Z.of_nat (length (stack h))
  /\ (length (stack h) <= MAX_HISTORY)%nat.

(** ** Curves editor

    The pointer handlers of the [CurvesEditor] component, on the curve of
    the active channel.  They are pure arithmetic on the pointer position
    and the bounding rectangle of the drawing, and are written over [Arith]
    like the tone curve engine. *)

Section CurvesEditor.

Context {num : Type} {A : Arith num}.

(** [svgRef.current.getBoundingClientRect()] *)
Record DOMRect := mkDOMRect {
  rect_left : num;
  rect_top : num;
  rect_width : num;
  rect_height : num
}.

(** [const size = 255] *)
Definition size : num := (#255)%num.

(** [newPoints[index] = p] on a copy of the curve: an entry of the array is
    replaced, at the end of the array the point is appended; further out
    the array would get holes, which no curve has ([None]). *)
Fixpoint assign (l : list (Point num)) (i : nat) (p : Point num)
    : option (list (Point num)) :=
  match l, i with
  | [], O => Some [p]
  | [], S _ => None
  | _ :: t, O => Some (p :: t)
  | h :: t, S j => option_map (cons h) (assign t j p)
  end.

(** [newPoints.findIndex(f)], [None] for -1 *)
Fixpoint findIndex (f : Point num -> bool) (l : list (Point num))
    : option nat :=
  match l with
  | [] => None
  | p :: t => if f p then Some O else option_map S (findIndex f t)
  end.

(** [index === curves[activeChannel].length - 1] *)
Definition is_last (index : nat) (curve : Curve num) : bool :=
  Z.of_nat index =? Z.of_nat (length curve) - 1.

(** [handleMouseMove] while the point [index] is dragged: the new curve and
    the index at which the dragged point is tracked. *)
Definition handleMouseMove (rect : DOMRect) (clientX clientY : num)
    (index : nat) (curve : Curve num) : option (Curve num * nat) :=
  let x := ((clientX - rect_left rect) / rect_width rect * size)%num in
  let y := ((clientY - rect_top rect) / rect_height rect * size)%num in
  let x := Math_max (#0)%num (Math_min size x) in
  let y := Math_max (#0)%num (Math_min size y) in
  let x := if (index =? 0)%nat then (#0)%num else x in
  let x := if is_last index curve then size else x in
  match assign curve index (mkPoint x (size - y)%num) with
  | None => None
  | Some newPoints =>
      let newPoints := sort_by_x newPoints in
      let newIndex :=
        findIndex (fun p => (px p =? x)%num && (py p =? size - y)%num)
                  newPoints in
      Some (newPoints, match newIndex with Some k => k | None => index end)
  end.

(** [addPoint]: a click on the drawing, away from the points. *)
Definition addPoint (rect : DOMRect) (clientX clientY : num) (curve : Curve num)
    : Curve num :=
  let x := ((clientX - rect_left rect) / rect_width rect * size)%num in
  let y := ((clientY - rect_top rect) / rect_height rect * size)%num in
  sort_by_x (curve ++ [mkPoint x (size - y)%num]).

(** [curve.filter((_, i) => i !== index)] *)
Fixpoint remove_at (l : list (Point num)) (i : nat) : list (Point num) :=
  match l, i with
  | [], _ => []
  | _ :: t, O => t
  | h :: t, S j => h :: remove_at t j
  end.

(** [removePoint]: a double click on the point [index]; the end points
    stay. *)
Definition removePoint (index : nat) (curve : Curve num) : Curve num :=
  if (index =? 0)%nat || is_last index curve then curve
  else remove_at curve index.

End CurvesEditor.

Arguments DOMRect num : clear implicits.

(** ** View transform

    Zooming, fitting and the mapping from the pointer to the image. *)

Section View.

Context {num : Type} {A : Arith num}.

(** The host's [Math.cos] and [Math.sin], and the constant [Math.PI]. *)
Variable Math_cos : num -> num.
Variable Math_sin : num -> num.
Variable Math_PI : num.

Record Transform := mkTransform {
  zoom : num;
  pan_x : num;
  pan_y : num
}.

(** [Math.abs] through the operations of [Arith]: the sign is dropped,
    also that of [-0]; NaN stays NaN. *)
Definition num_abs (v : num) : num :=
  if num_sign_bit v || (v <? #0)%num then (#0 - v)%num else v.

(** [!v] on a number: 0 and NaN are falsy. *)
Definition falsy (v : num) : bool := (v =? #0)%num || num_is_nan v.

(** The literals [0.1], [0.001], [1.2] and [0.95]: quotients of integers,
    which binary64 division rounds to the values of the literals. *)
Definition lit_0_1 : num := (#1 / #10)%num.
Definition lit_0_001 : num := (#1 / #1000)%num.
Definition lit_1_2 : num := (#12 / #10)%num.
Definition lit_0_95 : num := (#95 / #100)%num.

(** [getPointOnImage(clientX, clientY)] for a mounted canvas: the wrapper's
    rectangle starts at [(wrapper_left, wrapper_top)].  In the rotated
    branch the angle is not 0, where [-currentAngle] is [0 - currentAngle]. *)
Definition getPointOnImage (wrapper_left wrapper_top : num)
    (canvas_width canvas_height : num) (transform : Transform)
    (isCropping : bool) (straightenAngle : num) (clientX clientY : num)
    : Point num :=
  let mouseX := (clientX - wrapper_left)%num in
  let mouseY := (clientY - wrapper_top)%num in
  let imageX := ((mouseX - pan_x transform) / zoom transform)%num in
  let imageY := ((mouseY - pan_y transform) / zoom transform)%num in
  let currentAngle := if isCropping then (#0)%num else straightenAngle in
  if negb (currentAngle =? #0)%num then
    let rad := ((#0 - currentAngle) * Math_PI / #180)%num in
    let cos := Math_cos rad in
    let sin := Math_sin rad in
    let centerX := (canvas_width / #2)%num in
    let centerY := (canvas_height / #2)%num in
    let translatedX := (imageX - centerX)%num in
    let translatedY := (imageY - centerY)%num in
    let rotatedX := (translatedX * cos - translatedY * sin)%num in
    let rotatedY := (translatedX * sin + translatedY * cos)%num in
    mkPoint (rotatedX + centerX)%num (rotatedY + centerY)%num
  else mkPoint imageX imageY.

(** [handleZoom]: the wheel over the canvas wrapper. *)
Definition handleZoom (rect_left rect_top : num) (clientX clientY deltaY : num)
    (transform : Transform) : Transform :=
  let mouseX := (clientX - rect_left)%num in
  let mouseY := (clientY - rect_top)%num in
  let newZoom :=
    Math_max lit_0_1
      (Math_min (#5)%num (zoom transform - deltaY * lit_0_001)%num) in
  let newPanX :=
    (mouseX - (mouseX - pan_x transform) * (newZoom / zoom transform))%num in
  let newPanY :=
    (mouseY - (mouseY - pan_y transform) * (newZoom / zoom transform))%num in
  mkTransform newZoom newPanX newPanY.

(** [handleSliderZoom]: zooming about the centre of the wrapper. *)
Definition handleSliderZoom (clientWidth clientHeight : num)
    (newZoomValue : num) (transform : Transform) : Transform :=
  let anchorX := (clientWidth / #2)%num in
  let anchorY := (clientHeight / #2)%num in
  let oldZoom := zoom transform in
  let newZoom := Math_max lit_0_1 (Math_min (#5)%num newZoomValue) in
  if (num_abs (oldZoom - newZoom)%num <? lit_0_001)%num then transform
  else
    let newPanX :=
      (anchorX - (anchorX - pan_x transform) * (newZoom / oldZoom))%num in
    let newPanY :=
      (anchorY - (anchorY - pan_y transform) * (newZoom / oldZoom))%num in
    mkTransform newZoom newPanX newPanY.

(** [zoomWithButtons(direction)]; [zoomIn] is the direction ['in']. *)
Definition zoomWithButtons (clientWidth clientHeight : num) (zoomIn : bool)
    (transform : Transform) : Transform :=
  let zoomFactor := lit_1_2 in
  let oldZoom := zoom transform in
  let newZoom :=
    if zoomIn then (oldZoom * zoomFactor)%num
    else (oldZoom / zoomFactor)%num in
  handleSliderZoom clientWidth clientHeight newZoom transform.

(** [fitToScreen]: nothing on an empty canvas. *)
Definition fitToScreen (clientWidth clientHeight : num)
    (canvas_width canvas_height : num) (transform : Transform) : Transform :=
  if falsy canvas_width then transform
  else
    let zoomX := (clientWidth / canvas_width)%num in
    let zoomY := (clientHeight / canvas_height)%num in
    let newZoom := (Math_min zoomX zoomY * lit_0_95)%num in
    mkTransform newZoom
      ((clientWidth - canvas_width * newZoom) / #2)%num
      ((clientHeight - canvas_height * newZoom) / #2)%num.

End View.

Arguments Transform num : clear implicits.

(** ** Crop box *)

Section Crop.

Context {num : Type} {A : Arith num}.

Record CropBox := mkCropBox {
  crop_x : num;
  crop_y : num;
  crop_width : num;
  crop_height : num
}.

(** The table of [setCropToAspectRatio]: the ratio of a preset, [None] for
    [null]. *)
Definition numericAR (ar : string) : option num :=
  if String.eqb ar "1:1" then Some (#1)%num
  else if String.eqb ar "4:3" then Some (#4 / #3)%num
  else if String.eqb ar "3:2" then Some (#3 / #2)%num
  else if String.eqb ar "16:9" then Some (#16 / #9)%num
  else if String.eqb ar "3:4" then Some (#3 / #4)%num
  else if String.eqb ar "2:3" then Some (#2 / #3)%num
  else if String.eqb ar "9:16" then Some (#9 / #16)%num
  else None.

(** A number or [null] as a condition. *)
Definition truthy (v : option num) : bool :=
  match v with
  | Some r => negb ((r =? #0)%num || num_is_nan r)
  | None => false
  end.

(** The largest centred box of ratio [r] in a [width] by [height] image:
    the computation shared by [setCropToAspectRatio] and
    [handleCustomAspectRatioKeydown]. *)
Definition centred_box (r : option num) (width height : num) : CropBox :=
  let '(newWidth, newHeight) :=
    match r with
    | Some numericAR =>
        if truthy r then
          if (numericAR <? width / height)%num
          then ((height * numericAR)%num, height)
          else (width, (width / numericAR)%num)
        else (width, height)
    | None => (width, height)
    end in
  mkCropBox ((width - newWidth) / #2)%num ((height - newHeight) / #2)%num
            newWidth newHeight.

(** The crop box set by [setCropToAspectRatio(ar)] on a canvas of the
    given size. *)
Definition setCropToAspectRatio (ar : string) (width height : num) : CropBox :=
  centred_box (numericAR ar) width height.

(** [handle.includes(c)] for a one-character [c] *)
Fixpoint includes (handle : string) (c : ascii) : bool :=
  match handle with
  | EmptyString => false
  | String a rest => Ascii.eqb a c || includes rest c
  end.

(** [handleCropMouseMove]: the crop box while [handle] is dragged from
    [(startX, startY)], where the box was [initialRect], to the image point
    [(point_x, point_y)]. *)
Definition handleCropMouseMove (point_x point_y : num) (handle : string)
    (startX startY : num) (initialRect : CropBox)
    (imageWidth imageHeight : num) (aspectRatioValue : option num)
    : CropBox :=
  let dx := (point_x - startX)%num in
  let dy := (point_y - startY)%num in
  let has := includes handle in
  let isBody := String.eqb handle "body" in
  let newRect :=
    if isBody then
      mkCropBox (crop_x initialRect + dx)%num (crop_y initialRect + dy)%num
                (crop_width initialRect) (crop_height initialRect)
    else
      let x := crop_x initialRect in
      let y := crop_y initialRect in
      let width := crop_width initialRect in
      let height := crop_height initialRect in
      let width := if has "r"%char then (width + dx)%num else width in
      let '(x, width) :=
        if has "l"%char then ((x + dx)%num, (width - dx)%num)
        else (x, width) in
      let height := if has "b"%char then (height + dy)%num else height in
      let '(y, height) :=
        if has "t"%char then ((y + dy)%num, (height - dy)%num)
        else (y, height) in
      let '(x, y, width, height) :=
        match aspectRatioValue with
        | Some ratio =>
            if truthy aspectRatioValue then
              let isCorner := (String.length handle =? 2)%nat in
              if isCorner then
                let newProposedWidth :=
                  if has "l"%char then (crop_width initialRect - dx)%num
                  else (crop_width initialRect + dx)%num in
                let width := newProposedWidth in
                let height := (width / ratio)%num in
                let y :=
                  if has "t"%char
                  then (crop_y initialRect + crop_height initialRect
                        - height)%num
                  else y in
                let x :=
                  if has "l"%char
                  then (crop_x initialRect + crop_width initialRect
                        - width)%num
                  else x in
                (x, y, width, height)
              else if has "l"%char || has "r"%char then
                let newH := (width / ratio)%num in
                (x, (y + (height - newH) / #2)%num, width, newH)
              else
                let newW := (height * ratio)%num in
                ((x + (width - newW) / #2)%num, y, newW, height)
            else (x, y, width, height)
        | None => (x, y, width, height)
        end in
      mkCropBox x y width height in
  let x := crop_x newRect in
  let y := crop_y newRect in
  let width := crop_width newRect in
  let height := crop_height newRect in
  let width := if (width <? #20)%num then (#20)%num else width in
  let height := if (height <? #20)%num then (#20)%num else height in
  let x := Math_max (#0)%num x in
  let y := Math_max (#0)%num y in
  let '(x, width) :=
    if (imageWidth <? x + width)%num then
      if has "l"%char || isBody then ((imageWidth - width)%num, width)
      else (x, (imageWidth - x)%num)
    else (x, width) in
  let '(y, height) :=
    if (imageHeight <? y + height)%num then
      if has "t"%char || isBody then ((imageHeight - height)%num, height)
      else (y, (imageHeight - y)%num)
    else (y, height) in
  mkCropBox x y width height.

End Crop.

Arguments CropBox num : clear implicits.

(** ** Properties of editor states and of the pointer handlers *)

(** [d] is [d0] but for the bytes at the offsets in [S]. *)
Definition writes_only (S : Z -> Prop) (d0 d : list Z) : Prop :=
  length d = length d0
  /\ forall k : nat, ~ S (Z.of_nat k) -> nth k d 0 = nth k d0 0.

(** The offsets of the colour bytes of the pixels: all but the alpha
    bytes. *)
Definition colour_offset (j : Z) : Prop := j mod 4 <> 3.

(** [out] has the dimensions and the length of [img], and the same alpha
    bytes. *)
Definition same_frame (img out : ImageData) : Prop :=
  width out = width img /\ height out = height img
  /\ writes_only colour_offset (data img) (data out).

(** The offsets of the colour bytes of the pixels that are not on the
    border of a [w] by [h] image. *)
Definition interior_offset (w h : Z) (j : Z) : Prop :=
  exists y x c, 1 <= y < h - 1 /\ 1 <= x < w - 1 /\ 0 <= c < 3
                /\ j = (y * w + x) * 4 + c.

(** A gray pixel of level [v] goes through [rgbToHsl] and [hslToRgb] and
    comes back as it was, with hue and saturation 0 on the way. *)
Definition gray_round_trip (v : Z) : bool :=
  let '(h, s, l) := rgbToHsl (ofZ v) (ofZ v) (ofZ v) in
  let '(r, g, b) := hslToRgb h s l in
  (h =? 0)%float && (s =? 0)%float
  && (toUint8Clamp r =? v) && (toUint8Clamp g =? v) && (toUint8Clamp b =? v).

(** A number that is NaN or lies between [lo] and [hi]. *)
Definition nan_or_within (lo hi v : number) : Prop :=
  PrimFloat.is_nan v = true
  \/ ((lo <=? v)%float = true /\ (v <=? hi)%float = true).

(** The sum of the counters of a histogram. *)
Definition total (hist : list Z) : Z := fold_right Z.add 0 hist.

(** A curve as the editor keeps it: at least two points, sorted by x, the
    first at [x = 0] and the last at [x = 255]. *)
Definition editor_curve (c : Curve R) : Prop :=
  (2 <= length c)%nat /\ Exact.chain (map px c)
  /\ get (A := Exact.real_arith) (map px c) 0 = 0%R
  /\ get (A := Exact.real_arith) (map px c) (length c - 1) = 255%R.

(** A point of the drawing area. *)
Definition in_square (p : Point R) : Prop :=
  (0 <= px p <= 255 /\ 0 <= py p <= 255)%R.

(** A crop box that lies inside an image of the given size. *)
Definition inside_image (box : CropBox R) (imageWidth imageHeight : R) : Prop :=
  (0 <= crop_x box /\ 0 <= crop_y box
   /\ crop_x box + crop_width box <= imageWidth
   /\ crop_y box + crop_height box <= imageHeight)%R.

(** An image all of whose pixels are opaque. *)
Definition opaque_image (img : ImageData) : Prop :=
  forall x y, 0 <= x < width img -> 0 <= y < height img ->
    byte_or_0 (data img) ((y * width img + x) * 4 + 3) = 255.

(** The segment on which the table loop evaluates the abscissa [i], for
    the abscissae [x] of [n] points: the [while] loop has passed every
    point before [i] but the last two. *)
Definition segment_of (x : list R) (n : nat) (i : R) (q : nat) : Prop :=
  (q + 2 <= n)%nat
  /\ (q = 0%nat \/ (get (A := Exact.real_arith) x q < i)%R)
  /\ ((q + 2)%nat = n \/ ~ (get (A := Exact.real_arith) x (q + 1) < i)%R).

(** Points in strictly increasing order of x. *)
Inductive increasing : list (Point R) -> Prop :=
  | increasing_nil : increasing []
  | increasing_cons p l :
      Forall (fun q => (px p < px q)%R) l -> increasing l ->
      increasing (p :: l).

(** * Verification *)

(** ** Stores into a pixel buffer stay in range *)

Lemma toUint8Clamp_range (v : number) : in_range (toUint8Clamp v).
Proof.
  unfold in_range, toUint8Clamp.
  destruct (Prim2SF v) as [s | s | | s m e]; try destruct s; lia.
Qed.

Lemma set_byte_ok (d : list Z) (i : nat) (b : Z) :
  buffer_ok d -> in_range b -> buffer_ok (set_byte d i b).
Proof.
  intros Hd Hb. revert i.
  induction Hd as [| v d Hv Hd IH]; intros [| i]; simpl;
    try constructor; auto.
  apply IH.
Qed.

Lemma wr_ok (d : list Z) (i : Z) (v : number) :
  buffer_ok d -> buffer_ok (wr d i v).
Proof.
  intros Hd. unfold wr. destruct (i <? 0); auto.
  apply set_byte_ok; auto using toUint8Clamp_range.
Qed.

Lemma fold_left_ok {X : Type} (body : list Z -> X -> list Z) (l : list X) :
  (forall d x, buffer_ok d -> buffer_ok (body d x)) ->
  forall d, buffer_ok d -> buffer_ok (fold_left body l d).
Proof.
  intros Hbody. induction l as [| x l IH]; simpl; auto.
Qed.

Lemma forPixels_ok (body : list Z -> Z -> list Z) (d : list Z) :
  (forall d i, buffer_ok d -> buffer_ok (body d i)) ->
  buffer_ok d -> buffer_ok (forPixels body d).
Proof. intros. unfold forPixels. apply fold_left_ok; auto. Qed.

Lemma repeat_zero_ok (n : nat) : buffer_ok (repeat 0 n).
Proof. apply Forall_forall. intros v Hv. apply repeat_spec in Hv. subst. red. lia. Qed.

(** Peels one binding, branch or store off a loop body. *)
Ltac ok_step :=
  match goal with
  | |- buffer_ok (wr _ _ _) => apply wr_ok
  | |- buffer_ok (if ?c then _ else _) => destruct c
  | |- buffer_ok (let '(_, _) := ?e in _) => destruct e
  | |- buffer_ok (match ?e with _ => _ end) => destruct e
  | |- buffer_ok (fold_left _ _ _) => apply fold_left_ok; [intros |]
  | H : buffer_ok ?d |- buffer_ok ?d => exact H
  end.

Ltac ok_body := intros; cbv zeta; repeat ok_step.

Section OperatorBounds.

Variable Math_cos : number -> number.
Variable Math_pow : number -> number -> number.
Variable Math_random : Z -> number.

Lemma applyExposure_ok img amount :
  buffer_ok (data img) -> buffer_ok (data (applyExposure Math_pow img amount)).
Proof.
  intros H. unfold applyExposure. destruct (amount =? 0)%float; auto.
  simpl. apply forPixels_ok; auto. unfold applyExposure_pixel. ok_body.
Qed.

Lemma applyTemperature_ok img temperature :
  buffer_ok (data img) -> buffer_ok (data (applyTemperature img temperature)).
Proof.
  intros H. unfold applyTemperature. cbv zeta.
  destruct (_ =? 0)%float; auto.
  simpl. apply forPixels_ok; auto. unfold applyTemperature_pixel. ok_body.
Qed.

Lemma applyVibrance_ok img amount :
  buffer_ok (data img) -> buffer_ok (data (applyVibrance img amount)).
Proof.
  intros H. unfold applyVibrance. cbv zeta.
  destruct (_ =? 0)%float; auto.
  simpl. apply forPixels_ok; auto. unfold applyVibrance_pixel. ok_body.
Qed.

Lemma applyDehaze_ok img amount :
  buffer_ok (data img) -> buffer_ok (data (applyDehaze img amount)).
Proof.
  intros H. unfold applyDehaze. destruct (amount =? 0)%float; auto.
  simpl. apply forPixels_ok; auto. unfold applyDehaze_pixel. ok_body.
Qed.

Lemma applyHighlightsShadows_ok img highlights shadows :
  buffer_ok (data img) ->
  buffer_ok (data (applyHighlightsShadows Math_cos Math_pow img highlights shadows)).
Proof.
  intros H. unfold applyHighlightsShadows. cbv zeta.
  destruct (_ && _); auto.
  simpl. apply forPixels_ok; auto. unfold applyHighlightsShadows_pixel.
  ok_body.
Qed.

Lemma applyWhitesBlacks_ok img whites blacks :
  buffer_ok (data img) -> buffer_ok (data (applyWhitesBlacks img whites blacks)).
Proof.
  intros H. unfold applyWhitesBlacks. destruct (_ && _); auto.
  simpl. apply forPixels_ok; auto. unfold applyWhitesBlacks_pixel. ok_body.
Qed.

Lemma applyCurves_ok img curves :
  buffer_ok (data img) ->
  buffer_ok (data (applyCurves Math_cos Math_pow img curves)).
Proof.
  intros H. unfold applyCurves. simpl. apply forPixels_ok; auto.
  unfold applyCurves_pixel. ok_body.
Qed.

Lemma applyHsl_ok img hslAdjustments :
  buffer_ok (data img) ->
  buffer_ok (data (applyHsl Math_cos Math_pow img hslAdjustments)).
Proof.
  intros H. unfold applyHsl. simpl. apply forPixels_ok; auto.
  unfold applyHsl_pixel. ok_body.
Qed.

Lemma applyHaze_ok img amount spread :
  buffer_ok (data img) -> buffer_ok (data (applyHaze img amount spread)).
Proof.
  intros H. unfold applyHaze. destruct (amount =? 0)%float; auto.
  destruct (haze_color spread) as [[hazeR hazeG] hazeB].
  simpl. apply forPixels_ok; auto. unfold haze_pixel. ok_body.
Qed.

Lemma applySharpen_ok img amount :
  buffer_ok (data img) -> buffer_ok (data (applySharpen img amount)).
Proof.
  intros H. unfold applySharpen. cbv zeta.
  destruct (_ =? 0)%float; auto.
  simpl. repeat ok_step.
Qed.

Lemma applyGrain_ok img amount :
  buffer_ok (data img) ->
  buffer_ok (data (applyGrain Math_random img amount)).
Proof.
  intros H. unfold applyGrain. destruct (amount =? 0)%float; auto.
  simpl. apply forPixels_ok; auto. unfold applyGrain_pixel. ok_body.
Qed.

End OperatorBounds.

(** C9.  Every pixel operator (exposure, temperature, vibrance, dehaze,
    highlights/shadows, whites/blacks, curves, selective HSL, haze, sharpen,
    grain) maps a buffer whose entries all lie in [0,255] to a buffer whose
    entries all lie in [0,255], whatever the parameters and whatever the
    host's [Math.cos], [Math.pow] and [Math.random] return: every value an
    operator writes goes through the clamping store of the
    [Uint8ClampedArray], which never wraps, and the entries it does not
    write keep their value. *)
Theorem pixel_operators_stay_in_range :
  forall (Math_cos : number -> number) (Math_pow : number -> number -> number)
         (Math_random : Z -> number) (img : ImageData)
         (amount a2 : number) (hslAdj : HSLFilters) (cs : CurvesState),
    buffer_ok (data img) ->
    buffer_ok (data (applyExposure Math_pow img amount))
    /\ buffer_ok (data (applyTemperature img amount))
    /\ buffer_ok (data (applyVibrance img amount))
    /\ buffer_ok (data (applyDehaze img amount))
    /\ buffer_ok (data (applyHighlightsShadows Math_cos Math_pow img amount a2))
    /\ buffer_ok (data (applyWhitesBlacks img amount a2))
    /\ buffer_ok (data (applyCurves Math_cos Math_pow img cs))
    /\ buffer_ok (data (applyHsl Math_cos Math_pow img hslAdj))
    /\ buffer_ok (data (applyHaze img amount a2))
    /\ buffer_ok (data (applySharpen img amount))
    /\ buffer_ok (data (applyGrain Math_random img amount)).
Proof.
  intros. repeat split;
    auto using applyExposure_ok, applyTemperature_ok, applyVibrance_ok,
      applyDehaze_ok, applyHighlightsShadows_ok, applyWhitesBlacks_ok,
      applyCurves_ok, applyHsl_ok, applyHaze_ok, applySharpen_ok,
      applyGrain_ok.
Qed.

Lemma pixel_operators_stay_in_range_witness :
  let img := mkImageData 1 1 [255; 0; 128; 255] in
  buffer_ok (data img)
  /\ data (applyTemperature img 100) = [255; 0; 78; 255]
  /\ buffer_ok (data (applyTemperature img 100))
  /\ buffer_ok (data (applyHaze img 100 50))
  /\ buffer_ok (data (applyGrain SampleHost.Math_random img 100)).
Proof.
  assert (H : buffer_ok [255; 0; 128; 255])
    by (repeat constructor; unfold in_range; lia).
  split; [exact H |]. split; [vm_compute; reflexivity |].
  pose proof (pixel_operators_stay_in_range SampleHost.Math_cos
                SampleHost.Math_pow SampleHost.Math_random
                (mkImageData 1 1 [255; 0; 128; 255]) 100%float 50%float
                initialHSL initialCurves H) as P.
  split; [apply P | split; apply P].
Defined.

(** ** The box blur's windows *)

Lemma window_step_count tempSrc pos bound idx acc i :
  snd acc <= snd (window_step tempSrc pos bound idx acc i).
Proof.
  unfold window_step. destruct acc as [[[[ra ga] ba] aa] count].
  destruct ((0 <=? pos + i) && (pos + i <? bound)); simpl; lia.
Qed.

Lemma window_fold_count tempSrc pos bound idx l acc :
  snd acc <= snd (fold_left (window_step tempSrc pos bound idx) l acc).
Proof.
  revert acc. induction l as [| i l IH]; intros acc; simpl; [lia |].
  etransitivity; [apply (window_step_count tempSrc pos bound idx acc i) |].
  apply IH.
Qed.

Lemma window_has_centre (r : Z) : 0 <= r -> In 0 (window r).
Proof.
  intros Hr. unfold window, range. apply in_map_iff.
  exists (Z.to_nat r). split; [lia |]. apply in_seq. lia.
Qed.

Lemma window_count_pos tempSrc pos bound r idx :
  0 <= r -> 0 <= pos < bound ->
  1 <= snd (window_acc tempSrc pos bound r idx).
Proof.
  intros Hr Hpos. unfold window_acc.
  destruct (in_split _ _ (window_has_centre r Hr)) as (l1 & l2 & E).
  rewrite E, fold_left_app. simpl.
  set (acc := fold_left _ l1 _).
  assert (H0 : 0 <= snd acc).
  { subst acc.
    apply (window_fold_count tempSrc pos bound idx l1
             (0%float, 0%float, 0%float, 0%float, 0)). }
  etransitivity; [| apply window_fold_count].
  unfold window_step. destruct acc as [[[[ra ga] ba] aa] count].
  replace (pos + 0) with pos by lia.
  replace ((0 <=? pos) && (pos <? bound)) with true
    by (symmetry; apply andb_true_iff; split; [apply Z.leb_le | apply Z.ltb_lt]; lia).
  simpl in *. lia.
Qed.

Lemma set_byte_length d i b : length (set_byte d i b) = length d.
Proof.
  revert i. induction d as [| v d IH]; intros [| i]; simpl; auto.
Qed.

Lemma wr_length d i v : length (wr d i v) = length d.
Proof. unfold wr. destruct (i <? 0); auto using set_byte_length. Qed.

Lemma fold_left_length {X : Type} (body : list Z -> X -> list Z) (l : list X) :
  (forall d x, length (body d x) = length d) ->
  forall d, length (fold_left body l d) = length d.
Proof.
  intros Hbody. induction l as [| x l IH]; intros d; simpl; auto.
  rewrite IH. apply Hbody.
Qed.

Lemma store_average_length d i acc : length (store_average d i acc) = length d.
Proof.
  unfold store_average. destruct acc as [[[[ra ga] ba] aa] count].
  now rewrite !wr_length.
Qed.

Lemma horizontal_pass_length tempSrc dstData w h r :
  length (horizontal_pass tempSrc dstData w h r) = length dstData.
Proof.
  unfold horizontal_pass. apply fold_left_length. intros d y.
  apply fold_left_length. intros d' x. apply store_average_length.
Qed.

Lemma vertical_pass_length tempSrc dstData w h r :
  length (vertical_pass tempSrc dstData w h r) = length dstData.
Proof.
  unfold vertical_pass. apply fold_left_length. intros d x.
  apply fold_left_length. intros d' y. apply store_average_length.
Qed.

(** C10.  [boxBlur] is total on an image of width and height at least 1
    with any radius [r >= 0], also when [r] is at least the width or the
    height: with source and destination buffers of the image's size it
    returns a buffer of that size (the copy into [tempSrc] fits), and in
    both passes every averaging window contains its centre sample, so the
    count of in-bounds samples that divides the sums is at least 1. *)
Theorem boxBlur_total_windows_nonempty :
  forall (srcData dstData : list Z) (w h r : Z),
    1 <= w -> 1 <= h -> 0 <= r ->
    length srcData = Z.to_nat (w * h * 4) ->
    length dstData = Z.to_nat (w * h * 4) ->
    (exists out, boxBlur srcData dstData w h r = Some out
                 /\ length out = length dstData)
    /\ In 0 (window r)
    /\ (forall tempSrc x y, 0 <= x < w -> 0 <= y < h ->
          1 <= snd (window_acc tempSrc x w r (fun xi => (y * w + xi) * 4))
          /\ 1 <= snd (window_acc tempSrc y h r (fun yi => (yi * w + x) * 4))).
Proof.
  intros srcData dstData w h r Hw Hh Hr Hsrc Hdst. split; [| split].
  - unfold boxBlur, typed_set. rewrite horizontal_pass_length.
    replace (length srcData <? length dstData)%nat with false
      by (symmetry; apply Nat.ltb_ge; lia).
    eexists. split; [reflexivity |].
    now rewrite vertical_pass_length, horizontal_pass_length.
  - now apply window_has_centre.
  - intros tempSrc x y Hx Hy. split; apply window_count_pos; auto.
Qed.

Lemma boxBlur_total_windows_nonempty_witness :
  (exists out, boxBlur [10; 20; 30; 40; 50; 60; 70; 80] (repeat 0 8%nat) 2 1 5
               = Some out /\ length out = 8%nat)
  /\ 1 <= snd (window_acc [10; 20; 30; 40; 50; 60; 70; 80] 1 2 5
                 (fun xi => (0 * 2 + xi) * 4)).
Proof.
  destruct (boxBlur_total_windows_nonempty
              [10; 20; 30; 40; 50; 60; 70; 80] (repeat 0 8%nat) 2 1 5
              ltac:(lia) ltac:(lia) ltac:(lia) eq_refl eq_refl)
    as (Hout & _ & Hwin).
  split; [exact Hout |].
  apply (Hwin [10; 20; 30; 40; 50; 60; 70; 80] 1 0); lia.
Defined.


(** ** The tone curve tables in binary64 *)

(** C4, as stated, fails: the table built from the default curve is not
    exactly the identity.  At index 1 the Hermite value is
    [0.99999999999999989], since [t = 1/255] and its powers are rounded. *)
Lemma default_lut_not_exact :
  ~ (forall i : nat, (i <= 255)%nat ->
       (get (createLutFromPoints (initialCurve (num := number))) i
        =? ofNat i)%float = true).
Proof.
  intros H. specialize (H 1%nat ltac:(lia)). vm_compute in H. discriminate.
Qed.

(** C4, amended.  The table built from the default curve is the identity up
    to binary64 rounding: its first and last entries are exactly 0 and 255,
    every entry [lut[i]] is within [1e-13] of [i], and both [Math.round]
    and the store into a [Uint8ClampedArray] turn it into [i]. *)
Theorem default_lut_rounds_to_identity :
  forall i : nat, (i <= 255)%nat ->
    let v := get (createLutFromPoints (initialCurve (num := number))) i in
    toUint8Clamp v = Z.of_nat i
    /\ roundZ v = Some (Z.of_nat i)
    /\ (Math_abs (v - ofNat i) <? 1e-13)%float = true
    /\ get (createLutFromPoints (initialCurve (num := number))) 0 = 0%float
    /\ get (createLutFromPoints (initialCurve (num := number))) 255 = 255%float.
Proof.
  intros i Hi.
  assert (All : forallb near_identity_entry (seq 0 256) = true)
    by (vm_compute; reflexivity).
  rewrite forallb_forall in All.
  specialize (All i ltac:(apply in_seq; lia)).
  unfold near_identity_entry, default_lut in All.
  apply andb_true_iff in All. destruct All as [All Hnear].
  apply andb_true_iff in All. destruct All as [Hclamp Hround].
  cbv zeta. split; [| split; [| split; [| split]]].
  - now apply Z.eqb_eq.
  - destruct (roundZ _) as [z |]; [| discriminate].
    apply Z.eqb_eq in Hround. now subst.
  - exact Hnear.
  - vm_compute; reflexivity.
  - vm_compute; reflexivity.
Qed.

Lemma default_lut_rounds_to_identity_witness :
  (128 <= 255)%nat
  /\ toUint8Clamp (get (createLutFromPoints (initialCurve (num := number))) 128)
     = 128.
Proof.
  split; [lia |].
  apply (default_lut_rounds_to_identity 128 ltac:(lia)).
Defined.

(** C7.  The table of the curve [(0,0),(128,200),(255,255)] holds exactly
    200 at index 128.  But [applyCurves] with this curve on the rgb channel
    and default channel curves does not give 200 at every pixel: at the
    origin, where the Bayer offset is -0.5, the default channel table
    answers [127.99999999999997] for 128, the offset brings it to
    [127.49999999999997], [Math.round] gives 127, and the pixel receives
    [lutRgb[127]], stored as 199.  The next pixel, with offset 0, gets 200. *)
Theorem curve_128_misses_200_at_dither_origin :
  forall (Math_cos : number -> number) (Math_pow : number -> number -> number),
    get (createLutFromPoints scenario_curve) 128 = 200%float
    /\ get (createLutFromPoints (initialCurve (num := number))) 128
       = 127.99999999999997%float
    /\ data (applyCurves Math_cos Math_pow
               (mkImageData 2 1 [128; 128; 128; 255; 128; 128; 128; 255])
               (mkCurves scenario_curve initialCurve initialCurve initialCurve))
       = [199; 199; 199; 255; 200; 200; 200; 255].
Proof.
  intros. split; [| split]; vm_compute; reflexivity.
Qed.


(** In binary64 even a flat curve over the whole range gives a table that
    wobbles by one unit in the last place: [lut[1] > lut[2]]. *)
Lemma flat_curve_lut_wobbles :
  get (createLutFromPoints flat_curve) 1 = 100.00000000000001%float
  /\ get (createLutFromPoints flat_curve) 2 = 99.999999999999986%float.
Proof. split; vm_compute; reflexivity. Qed.


(** ** The histogram of a uniform image *)

(** C6, as stated, fails: a 1x1 image of colour (10,20,30) has a
    histogram with one entry 255 in each of the four channels. *)
Lemma uniform_histogram_not_zero :
  let hist := Histogram.calculateHistogram (mkImageData 1 1 [10; 20; 30; 255]) in
  ~ all_zero (Histogram.rgb hist) /\ ~ all_zero (Histogram.red hist)
  /\ ~ all_zero (Histogram.green hist) /\ ~ all_zero (Histogram.blue hist).
Proof.
  cbv zeta. unfold all_zero.
  repeat split; intros H; vm_compute in H; discriminate.
Qed.

Lemma uniform_length r g b a n : length (uniform r g b a n) = (4 * n)%nat.
Proof. unfold uniform. induction n as [| n IH]; simpl in *; lia. Qed.

Lemma uniform_nth r g b a n k j :
  (k < n)%nat -> (j < 4)%nat ->
  nth_error (uniform r g b a n) (4 * k + j) = nth_error [r; g; b; a] j.
Proof.
  revert k. induction n as [| n IH]; intros k Hk Hj; [lia |].
  destruct k as [| k].
  - destruct j as [| [| [| [| j]]]]; try lia; reflexivity.
  - replace (4 * S k + j)%nat with (S (S (S (S (4 * k + j))))) by lia.
    change (uniform r g b a (S n)) with (r :: g :: b :: a :: uniform r g b a n).
    simpl. apply IH; lia.
Qed.

Lemma uniform_byte_at r g b a n k :
  (k < n)%nat ->
  Histogram.byte_at (uniform r g b a n) (4 * Z.of_nat k) = Some r
  /\ Histogram.byte_at (uniform r g b a n) (4 * Z.of_nat k + 1) = Some g
  /\ Histogram.byte_at (uniform r g b a n) (4 * Z.of_nat k + 2) = Some b.
Proof.
  intros Hk. unfold Histogram.byte_at.
  replace (4 * Z.of_nat k <? 0) with false by (symmetry; apply Z.ltb_ge; lia).
  replace (4 * Z.of_nat k + 1 <? 0) with false
    by (symmetry; apply Z.ltb_ge; lia).
  replace (4 * Z.of_nat k + 2 <? 0) with false
    by (symmetry; apply Z.ltb_ge; lia).
  replace (Z.to_nat (4 * Z.of_nat k)) with (4 * k + 0)%nat by lia.
  replace (Z.to_nat (4 * Z.of_nat k + 1)) with (4 * k + 1)%nat by lia.
  replace (Z.to_nat (4 * Z.of_nat k + 2)) with (4 * k + 2)%nat by lia.
  rewrite !uniform_nth by lia. repeat split.
Qed.

Lemma pixel_offsets_uniform n :
  pixel_offsets (4 * n) = map (fun k => 4 * Z.of_nat k) (seq 0 n).
Proof.
  unfold pixel_offsets. f_equal. f_equal.
  rewrite (Nat.mul_comm 4 n), Nat.div_add_l by lia. simpl. lia.
Qed.

Lemma incr_spike k c : (k <= 255)%nat ->
  Histogram.incr (spike k c) k = spike k (c + 1).
Proof.
  intros _. unfold spike. generalize (repeat 0 (255 - k)) as tl.
  induction k as [| k IH]; intros tl; simpl; [reflexivity |].
  now rewrite IH.
Qed.

Lemma spike_zero k : (k <= 255)%nat -> spike k 0 = repeat 0 256.
Proof.
  intros Hk. unfold spike.
  replace 256%nat with (k + S (255 - k))%nat by lia.
  now rewrite repeat_app.
Qed.

Lemma fold_max_zeros m c : 0 <= c -> fold_left Z.max (repeat 0 m) c = c.
Proof.
  intros Hc. induction m as [| m IH]; simpl; auto.
  now replace (Z.max c 0) with c by lia.
Qed.

Lemma max_of_spike k c : 0 <= c -> Histogram.max_of (spike k c) = c.
Proof.
  intros Hc. unfold spike. generalize (255 - k)%nat as m. intros m.
  destruct k as [| k].
  - change (Histogram.max_of ([] ++ c :: repeat 0 m))
      with (fold_left Z.max (repeat 0 m) c).
    now apply fold_max_zeros.
  - change (Histogram.max_of (repeat 0 (S k) ++ c :: repeat 0 m))
      with (fold_left Z.max (repeat 0 k ++ c :: repeat 0 m) 0).
    rewrite fold_left_app, fold_max_zeros by lia.
    change (fold_left Z.max (c :: repeat 0 m) 0)
      with (fold_left Z.max (repeat 0 m) (Z.max 0 c)).
    replace (Z.max 0 c) with c by lia. now apply fold_max_zeros.
Qed.

Lemma normalize_spike k n : (1 <= n)%nat ->
  Histogram.normalize (spike k (Z.of_nat n))
  = map (fun v => (ofZ v * (255 / ofZ (Z.of_nat n)))%float)
        (spike k (Z.of_nat n)).
Proof.
  intros Hn. unfold Histogram.normalize.
  rewrite max_of_spike by lia.
  now replace (Z.of_nat n =? 0) with false by (symmetry; apply Z.eqb_neq; lia).
Qed.

Lemma counts_uniform r g b a L n m :
  in_range r -> in_range g -> in_range b ->
  Histogram.luma_index r g b = Some L -> in_range L -> (m <= n)%nat ->
  fold_left (Histogram.count_pixel (uniform r g b a n))
            (map (fun k => 4 * Z.of_nat k) (seq 0 m))
            (repeat 0 256, repeat 0 256, repeat 0 256, repeat 0 256)
  = (spike (Z.to_nat L) (Z.of_nat m), spike (Z.to_nat r) (Z.of_nat m),
     spike (Z.to_nat g) (Z.of_nat m), spike (Z.to_nat b) (Z.of_nat m)).
Proof.
  unfold in_range. intros Hr Hg Hb HL HLr Hm.
  induction m as [| m IH].
  - simpl. now rewrite !spike_zero by lia.
  - rewrite seq_S, map_app, fold_left_app, IH by lia.
    cbn [map fold_left Nat.add]. unfold Histogram.count_pixel.
    destruct (uniform_byte_at r g b a n m ltac:(lia)) as (E0 & E1 & E2).
    rewrite E0, E1, E2, HL. unfold Histogram.incr_at.
    replace (L <? 0) with false by (symmetry; apply Z.ltb_ge; lia).
    replace (r <? 0) with false by (symmetry; apply Z.ltb_ge; lia).
    replace (g <? 0) with false by (symmetry; apply Z.ltb_ge; lia).
    replace (b <? 0) with false by (symmetry; apply Z.ltb_ge; lia).
    rewrite !incr_spike by lia.
    now replace (Z.of_nat (S m)) with (Z.of_nat m + 1) by lia.
Qed.

(** C6, amended.  For a uniform image of [n >= 1] pixels the guard
    [maxVal === 0] does not fire: in each channel the counters are 0 except
    [n] at the colour's index (the rounded luma for the rgb channel), the
    maximum is [n], and normalisation scales every counter by [255 / n], so
    the array holds [n * (255 / n)] at that index and [0 * (255 / n)]
    elsewhere.  The all-zero arrays come out for an image without pixels. *)
Theorem uniform_histogram_is_scaled_spike :
  forall (w h r g b a L : Z) (n : nat),
    in_range r -> in_range g -> in_range b -> (1 <= n)%nat ->
    Histogram.luma_index r g b = Some L -> in_range L ->
    let scaled k :=
      map (fun v => (ofZ v * (255 / ofZ (Z.of_nat n)))%float)
          (spike (Z.to_nat k) (Z.of_nat n)) in
    Histogram.calculateHistogram (mkImageData w h (uniform r g b a n))
    = Histogram.mkHistogramData (scaled L) (scaled r) (scaled g) (scaled b)
    /\ Histogram.calculateHistogram (mkImageData w h [])
       = Histogram.mkHistogramData (repeat 0%float 256) (repeat 0%float 256)
           (repeat 0%float 256) (repeat 0%float 256).
Proof.
  intros w h r g b a L n Hr Hg Hb Hn HL HLr. cbv zeta. split.
  - unfold Histogram.calculateHistogram, Histogram.counts. simpl data.
    rewrite uniform_length, pixel_offsets_uniform.
    rewrite (counts_uniform r g b a L n n) by auto.
    now rewrite !normalize_spike by lia.
  - vm_compute. reflexivity.
Qed.

Lemma uniform_histogram_is_scaled_spike_witness :
  nth 10 (Histogram.red
            (Histogram.calculateHistogram
               (mkImageData 2 1 (uniform 10 20 30 255 2)))) 0%float
  = (ofZ 2 * (255 / ofZ 2))%float.
Proof.
  destruct (uniform_histogram_is_scaled_spike 2 1 10 20 30 255 18 2
              ltac:(unfold in_range; lia) ltac:(unfold in_range; lia)
              ltac:(unfold in_range; lia) ltac:(lia) eq_refl
              ltac:(unfold in_range; lia)) as [E _].
  rewrite E. reflexivity.
Defined.

(** ** Comparisons of numbers *)

Lemma eqb_refl_right (a b : number) :
  (a =? b)%float = true -> (b =? b)%float = true.
Proof.
  rewrite !FloatAxioms.eqb_spec. unfold SFeqb.
  destruct (Prim2SF b) as [sb | sb | | sb mb eb].
  - reflexivity.
  - destruct sb; reflexivity.
  - destruct (Prim2SF a) as [sa | sa | | sa ma ea]; discriminate.
  - intros _. simpl.
    destruct sb; rewrite Z.compare_refl, Pos.compare_cont_refl; reflexivity.
Qed.

Lemma ltb_0_of_leb (v : number) :
  (0 <=? v)%float = true -> (0 <? v)%float = negb (v =? 0)%float.
Proof.
  rewrite FloatAxioms.leb_spec, FloatAxioms.ltb_spec, FloatAxioms.eqb_spec.
  unfold SFleb, SFltb, SFeqb.
  change (Prim2SF 0) with (S754_zero false).
  destruct (Prim2SF v) as [s | s | | s m e]; simpl; try discriminate; auto;
    destruct s; simpl; try discriminate; auto.
Qed.

(** ** Surfaces *)

Lemma mul255_255 (c : Z) : mul255 c 255 = c.
Proof.
  unfold mul255. rewrite Z.div_add_l by lia.
  change (127 / 255) with 0. lia.
Qed.

Lemma mul255_255_l (c : Z) : mul255 255 c = c.
Proof.
  unfold mul255. rewrite (Z.mul_comm 255 c), Z.div_add_l by lia.
  change (127 / 255) with 0. lia.
Qed.

Lemma mul255_0 (c : Z) : mul255 c 0 = 0.
Proof. unfold mul255. now rewrite Z.mul_0_r. Qed.

Lemma mul255_0_l (c : Z) : mul255 0 c = 0.
Proof. reflexivity. Qed.

Lemma tabulate_index (w h : Z) (k : nat) :
  (k < Z.to_nat w * Z.to_nat h)%nat ->
  0 <= Z.of_nat k mod w < w /\ 0 <= Z.of_nat k / w < h.
Proof.
  intros Hk. assert (0 < w) by lia. assert (0 < h) by lia.
  split; [apply Z.mod_pos_bound; lia |].
  split; [apply Z.div_pos; lia |].
  apply Z.div_lt_upper_bound; nia.
Qed.

Lemma pixel_at_tabulate (w h : Z) (f : Z -> Z -> RGBA) (x y : Z) :
  0 <= x < w -> 0 <= y < h -> pixel_at (tabulate w h f) x y = f x y.
Proof.
  intros Hx Hy. unfold pixel_at, tabulate. cbn [s_width s_height s_pixels].
  replace ((0 <=? x) && (x <? w) && (0 <=? y) && (y <? h)) with true
    by (symmetry; rewrite !andb_true_iff, !Z.leb_le, !Z.ltb_lt; lia).
  set (k := Z.to_nat (y * w + x)).
  assert (Hk : (k < Z.to_nat w * Z.to_nat h)%nat) by (subst k; nia).
  rewrite (nth_indep _ transparent (f 0 0))
    by (rewrite length_map, length_seq; exact Hk).
  change (f 0 0) with ((fun k => f (Z.of_nat k mod w) (Z.of_nat k / w)) 0%nat).
  rewrite map_nth.
  rewrite seq_nth by exact Hk. cbn [Nat.add].
  replace (Z.of_nat k) with (y * w + x) by (subst k; lia).
  f_equal.
  - rewrite Z.add_comm, Z.mod_add by lia. apply Z.mod_small; lia.
  - rewrite Z.add_comm, Z.div_add by lia. rewrite Z.div_small; lia.
Qed.

Lemma pixel_at_outside (s : Surface) (x y : Z) :
  ~ (0 <= x < s_width s /\ 0 <= y < s_height s) -> pixel_at s x y = transparent.
Proof.
  intros H. unfold pixel_at.
  destruct ((0 <=? x) && (x <? s_width s) && (0 <=? y) && (y <? s_height s))
    eqn:E; auto.
  rewrite !andb_true_iff, !Z.leb_le, !Z.ltb_lt in E. lia.
Qed.

Lemma tabulate_ext (w h : Z) (f g : Z -> Z -> RGBA) :
  (forall x y, 0 <= x < w -> 0 <= y < h -> f x y = g x y) ->
  tabulate w h f = tabulate w h g.
Proof.
  intros H. unfold tabulate. f_equal. apply map_ext_in. intros k Hk.
  apply in_seq in Hk.
  destruct (tabulate_index w h k ltac:(lia)) as [Hx Hy]. now apply H.
Qed.

Lemma source_over_transparent (p : RGBA) : source_over p transparent = p.
Proof.
  destruct p as [r g b a]. unfold source_over, pointwise. simpl.
  rewrite !mul255_0_l. f_equal; lia.
Qed.

Lemma tabulate_pixel_at (w h : Z) (f : Z -> Z -> RGBA) :
  tabulate w h (pixel_at (tabulate w h f)) = tabulate w h f.
Proof. apply tabulate_ext. intros. now apply pixel_at_tabulate. Qed.

(** Drawing over a cleared canvas of the same size copies the source. *)
Lemma draw_over_blank (w h : Z) (f : Z -> Z -> RGBA) :
  drawImage source_over (tabulate w h f) (createCanvas w h) = tabulate w h f.
Proof.
  unfold drawImage, createCanvas. cbn [s_width s_height tabulate].
  apply tabulate_ext. intros x y Hx Hy.
  rewrite !pixel_at_tabulate by assumption. apply source_over_transparent.
Qed.

(** ** The orchestrator *)

Lemma find_app {X : Type} (f : X -> bool) (l1 l2 : list X) :
  find f (l1 ++ l2)
  = match find f l1 with Some x => Some x | None => find f l2 end.
Proof.
  induction l1 as [| x l1 IH]; simpl; auto. destruct (f x); auto.
Qed.

Lemma existsb_false_In {X : Type} (f : X -> bool) (l : list X) (x : X) :
  existsb f l = false -> In x l -> f x = false.
Proof.
  intros H Hin. destruct (f x) eqn:E; auto.
  assert (existsb f l = true) by (apply existsb_exists; eauto). congruence.
Qed.

(** When the lookup of [getAdjustmentsCss] finds no difference for the
    value of a key with initial value 0, that value is 0. *)
Lemma differs_zero (f : BasicFilters) (k : BasicFilters -> number) :
  In k zeroKeys -> differs_from_initial f (k f) = false ->
  (k f =? 0)%float = true.
Proof.
  intros Hk. unfold differs_from_initial.
  change pixelFilterKeys with (zeroKeys ++ [hazeSpread]).
  rewrite find_app.
  destruct (find (fun k0 => (k0 f =? k f)%float) zeroKeys) as [k' |] eqn:F.
  - apply find_some in F. destruct F as [Hin _]. intros H.
    apply negb_false_iff in H.
    assert (Z0 : k' initialFilters = 0%float).
    { simpl in Hin.
      repeat (destruct Hin as [<- | Hin]; [reflexivity |]). contradiction. }
    now rewrite Z0 in H.
  - pose proof (find_none _ _ F k Hk) as Hself. simpl in Hself.
    simpl. destruct (hazeSpread f =? k f)%float eqn:E; [| discriminate].
    apply eqb_refl_right in E. congruence.
Qed.

Lemma needsPixelManipulation_false (a : Adjustments) :
  needsPixelManipulation a = false ->
  Forall (fun k => (k (filters a) =? 0)%float = true) zeroKeys
  /\ curvesAreDefault (curves a) = true
  /\ hsl_active (hsl a) = false.
Proof.
  unfold needsPixelManipulation. intros H.
  apply orb_false_iff in H. destruct H as [H Hhsl].
  apply orb_false_iff in H. destruct H as [H Hcurves].
  split; [| split; [now apply negb_false_iff | assumption]].
  apply Forall_forall. intros k Hk. apply differs_zero; auto.
  apply (existsb_false_In _ _ _ H).
  apply in_map_iff. exists k. split; auto.
  change pixelFilterKeys with (zeroKeys ++ [hazeSpread]).
  apply in_or_app. now left.
Qed.

Lemma when_congr (c1 c2 : bool) (f : ImageData -> ImageData) (x y : ImageData) :
  c1 = c2 -> x = y -> when c1 f x = when c2 f y.
Proof. now intros -> ->. Qed.

Lemma when_skip (c : bool) (f : ImageData -> ImageData) (x y : ImageData) :
  c = false -> x = y -> when c f x = y.
Proof. now intros -> ->. Qed.

Lemma spec_step_when (a : Adjustments) (st : Stage) (img : ImageData) :
  (if at_identity st a then img else run st img a)
  = when (negb (at_identity st a)) (fun d => run st d a) img.
Proof. unfold when. now destruct (at_identity st a). Qed.



Lemma spec_fold_when (a : Adjustments) (l : list Stage) (img : ImageData) :
  fold_left (fun img st => if at_identity st a then img else run st img a) l img
  = fold_left (fun img st =>
                 when (negb (at_identity st a)) (fun d => run st d a) img) l img.
Proof.
  revert img. induction l as [| st l IH]; intros img; simpl; auto.
  now rewrite IH, spec_step_when.
Qed.

Lemma negb_or_and (x y : bool) : negb x || negb y = negb (x && y).
Proof. now destruct x, y. Qed.



(** ** The mask compositor *)

Lemma drawImage_width op src dst : s_width (drawImage op src dst) = s_width dst.
Proof. reflexivity. Qed.

Lemma drawImage_height op src dst :
  s_height (drawImage op src dst) = s_height dst.
Proof. reflexivity. Qed.

Lemma pixel_at_drawImage op src dst x y :
  0 <= x < s_width dst -> 0 <= y < s_height dst ->
  pixel_at (drawImage op src dst) x y
  = op (pixel_at src x y) (pixel_at dst x y).
Proof. intros. unfold drawImage. now rewrite pixel_at_tabulate. Qed.

Lemma pixel_at_fillRect op color dst x y :
  0 <= x < s_width dst -> 0 <= y < s_height dst ->
  pixel_at (fillRect op color dst) x y = op color (pixel_at dst x y).
Proof. intros. unfold fillRect. now rewrite pixel_at_tabulate. Qed.

(** The temporary canvas of a layer that is not inverted holds the mask at
    the origin at its own size: inside the canvas the mask's pixel, which is
    transparent where the mask does not reach; nothing outside. *)
Lemma pixel_at_mask_canvas w h layer m x y :
  maskSrc layer = Some m -> isMaskInverted layer = false ->
  pixel_at (mask_canvas w h layer) x y
  = if (0 <=? x) && (x <? w) && (0 <=? y) && (y <? h)
    then pixel_at (toSurface m) x y else transparent.
Proof.
  intros Hm Hinv. unfold mask_canvas. rewrite Hm, Hinv.
  destruct ((0 <=? x) && (x <? w) && (0 <=? y) && (y <? h)) eqn:E.
  - rewrite !andb_true_iff, !Z.leb_le, !Z.ltb_lt in E.
    rewrite pixel_at_drawImage by (simpl; lia).
    unfold createCanvas. rewrite pixel_at_tabulate by lia.
    apply source_over_transparent.
  - apply pixel_at_outside. simpl. intros H.
    assert (T : (0 <=? x) && (x <? w) && (0 <=? y) && (y <? h) = true)
      by (rewrite !andb_true_iff, !Z.leb_le, !Z.ltb_lt; lia).
    congruence.
Qed.




Lemma lighten_alpha (p b : RGBA) : ca b = 255 -> ca (lighten p b) = 255.
Proof.
  intros Hb. unfold lighten, pointwise. cbn [ca]. rewrite Hb, mul255_255_l. lia.
Qed.

Lemma lighten_transparent (b : RGBA) : ca b = 255 -> lighten transparent b = b.
Proof.
  destruct b as [r g b a]. cbn [ca]. intros ->.
  unfold lighten, pointwise. cbn [cr cg cb ca transparent].
  rewrite !mul255_0_l, !mul255_0, !mul255_255. f_equal; lia.
Qed.

Lemma lighten_opaque (p b : RGBA) :
  ca p = 255 -> ca b = 255 ->
  lighten p b
  = mkRGBA (Z.max (cr p) (cr b)) (Z.max (cg p) (cg b)) (Z.max (cb p) (cb b)) 255.
Proof.
  destruct p as [pr pg pb pa], b as [r g b a]. cbn [ca]. intros -> ->.
  unfold lighten, pointwise. cbn [cr cg cb ca].
  change (255 - 255) with 0. rewrite !mul255_0, !mul255_255. f_equal; lia.
Qed.

(** Lightening by two binary pixels commutes on an opaque backdrop: each is
    either no change or a channel-wise maximum. *)
Lemma lighten_binary_commute (p q b : RGBA) :
  binary_pixel p -> binary_pixel q -> ca b = 255 ->
  lighten q (lighten p b) = lighten p (lighten q b).
Proof.
  intros [-> | Hp] [-> | Hq] Hb.
  - reflexivity.
  - rewrite (lighten_transparent b Hb).
    now rewrite lighten_transparent by (now apply lighten_alpha).
  - rewrite (lighten_transparent b Hb).
    now rewrite lighten_transparent by (now apply lighten_alpha).
  - rewrite (lighten_opaque p b Hp Hb), (lighten_opaque q b Hq Hb).
    rewrite !lighten_opaque by (auto; reflexivity). cbn [cr cg cb ca].
    f_equal; lia.
Qed.

Lemma xor_white_binary (p : RGBA) :
  binary_pixel p -> binary_pixel (xor opaque_white p).
Proof.
  intros [-> | Hp].
  - right. reflexivity.
  - left. destruct p as [r g b a]. cbn [ca] in Hp. subst a.
    unfold xor, pointwise. cbn [cr cg cb ca opaque_white].
    change (255 - 255) with 0. now rewrite !mul255_0.
Qed.

Lemma pixel_at_binary (s : Surface) (x y : Z) :
  Forall binary_pixel (s_pixels s) -> binary_pixel (pixel_at s x y).
Proof.
  intros H. unfold pixel_at.
  destruct ((0 <=? x) && (x <? s_width s) && (0 <=? y) && (y <? s_height s));
    [| now left].
  destruct (Nat.lt_ge_cases (Z.to_nat (y * s_width s + x)) (length (s_pixels s)))
    as [Hlt | Hge].
  - rewrite Forall_forall in H. apply H. now apply nth_In.
  - rewrite nth_overflow by assumption. now left.
Qed.

Lemma mask_canvas_width w h layer : s_width (mask_canvas w h layer) = w.
Proof.
  unfold mask_canvas. destruct (isMaskInverted layer), (maskSrc layer);
    reflexivity.
Qed.

Lemma mask_canvas_height w h layer : s_height (mask_canvas w h layer) = h.
Proof.
  unfold mask_canvas. destruct (isMaskInverted layer), (maskSrc layer);
    reflexivity.
Qed.

Lemma mask_canvas_binary w h layer x y :
  binary_mask layer -> binary_pixel (pixel_at (mask_canvas w h layer) x y).
Proof.
  intros Hb.
  destruct (Z_le_gt_dec 0 x), (Z_lt_ge_dec x w), (Z_le_gt_dec 0 y),
    (Z_lt_ge_dec y h);
    try (rewrite pixel_at_outside;
         [now left | rewrite mask_canvas_width, mask_canvas_height; lia]).
  assert (Htemp : binary_pixel
            (pixel_at
               match maskSrc layer with
               | Some maskImage =>
                   drawImage source_over (toSurface maskImage) (createCanvas w h)
               | None => createCanvas w h
               end x y)).
  { unfold binary_mask in Hb. destruct (maskSrc layer) as [m |].
    - rewrite pixel_at_drawImage by (simpl; lia).
      unfold createCanvas. rewrite pixel_at_tabulate by lia.
      rewrite source_over_transparent. now apply pixel_at_binary.
    - unfold createCanvas. rewrite pixel_at_tabulate by lia. now left. }
  unfold mask_canvas. destruct (isMaskInverted layer); [| exact Htemp].
  rewrite pixel_at_fillRect
    by (destruct (maskSrc layer); simpl; lia).
  now apply xor_white_binary.
Qed.

Lemma combine_mask_opaque w h D layer :
  opaque_canvas w h D -> opaque_canvas w h (combine_mask w h D layer).
Proof.
  intros (Hw & Hh & Ha). unfold combine_mask. repeat split; auto.
  intros x y Hx Hy. rewrite pixel_at_drawImage by lia.
  apply lighten_alpha. now apply Ha.
Qed.

Lemma drawImage_ext op src1 dst1 src2 dst2 :
  s_width dst1 = s_width dst2 -> s_height dst1 = s_height dst2 ->
  (forall x y, 0 <= x < s_width dst2 -> 0 <= y < s_height dst2 ->
     op (pixel_at src1 x y) (pixel_at dst1 x y)
     = op (pixel_at src2 x y) (pixel_at dst2 x y)) ->
  drawImage op src1 dst1 = drawImage op src2 dst2.
Proof.
  intros Hw Hh H. unfold drawImage. rewrite Hw, Hh. now apply tabulate_ext.
Qed.

Lemma combine_mask_commute w h D l1 l2 :
  opaque_canvas w h D -> binary_mask l1 -> binary_mask l2 ->
  combine_mask w h (combine_mask w h D l1) l2
  = combine_mask w h (combine_mask w h D l2) l1.
Proof.
  intros (Hw & Hh & Ha) H1 H2. unfold combine_mask.
  apply drawImage_ext; try reflexivity.
  rewrite drawImage_width, drawImage_height. intros x y Hx Hy.
  rewrite !pixel_at_drawImage by lia.
  apply lighten_binary_commute; auto using mask_canvas_binary.
  apply Ha; lia.
Qed.

(** A left fold is invariant under permutation when its steps commute on the
    states and elements they meet. *)
Lemma fold_left_permutation {S X : Type} (f : S -> X -> S)
    (I : S -> Prop) (P : X -> Prop) :
  (forall s x, I s -> P x -> I (f s x)) ->
  (forall s x y, I s -> P x -> P y -> f (f s x) y = f (f s y) x) ->
  forall l l', Permutation l l' -> Forall P l ->
  forall s, I s -> fold_left f l s = fold_left f l' s.
Proof.
  intros Hinv Hcomm l l' Hperm.
  induction Hperm as [| x l l' Hperm IH | x y l | l l' l'' H1 IH1 H2 IH2];
    intros HP s Hs.
  - reflexivity.
  - inversion HP; subst. simpl. apply IH; auto.
  - inversion HP as [| ? ? Hy HP']; subst.
    inversion HP' as [| ? ? Hx HP'']; subst.
    simpl. now rewrite (Hcomm s y x).
  - rewrite IH1 by assumption. apply IH2; auto.
    apply Forall_forall. intros z Hz. rewrite Forall_forall in HP. apply HP.
    apply Permutation_in with (l := l'); auto. now apply Permutation_sym.
Qed.

Lemma black_canvas_opaque w h :
  opaque_canvas w h (fillRect source_over opaque_black (createCanvas w h)).
Proof.
  repeat split. intros x y Hx Hy.
  rewrite pixel_at_fillRect by (simpl; lia).
  unfold createCanvas. rewrite pixel_at_tabulate by lia. reflexivity.
Qed.

Lemma compositeMask_opaque w h ls : opaque_canvas w h (compositeMask w h ls).
Proof.
  unfold compositeMask.
  generalize (black_canvas_opaque w h).
  generalize (fillRect source_over opaque_black (createCanvas w h)) as D.
  induction ls as [| l ls IH]; intros D HD; simpl; auto.
  apply IH. now apply combine_mask_opaque.
Qed.

Lemma destination_in_opaque (m p : RGBA) : ca m = 255 -> destination_in m p = p.
Proof.
  intros Hm. destruct p as [r g b a]. unfold destination_in, pointwise.
  cbn [cr cg cb ca]. now rewrite Hm, !mul255_255.
Qed.

(** Clipping the adjusted layer to an opaque composite mask leaves it as
    it is. *)
Lemma clip_to_opaque_mask w h M f :
  opaque_canvas w h M ->
  drawImage destination_in M (tabulate w h f) = tabulate w h f.
Proof.
  intros (_ & _ & Ha). unfold drawImage. cbn [s_width s_height tabulate].
  apply tabulate_ext. intros x y Hx Hy.
  rewrite pixel_at_tabulate by lia. apply destination_in_opaque. now apply Ha.
Qed.

(** With any visible mask, [drawCanvas] draws the adjusted image over the
    base image: the composite mask is opaque everywhere, whatever the
    layers, so [destination-in] keeps the whole adjusted layer. *)
Lemma drawCanvas_with_masks Math_cos Math_pow Math_random canvasFilter
    baseImage lys a :
  filter visible lys <> [] ->
  drawCanvas Math_cos Math_pow Math_random canvasFilter
             (mkEditorState (Some baseImage) lys a) a
  = Some (drawImage source_over
            (drawImage source_over
               (toSurface (adjustedImage Math_cos Math_pow Math_random
                             canvasFilter baseImage a))
               (createCanvas (width baseImage) (height baseImage)))
            (drawImage source_over (toSurface baseImage)
               (createCanvas (width baseImage) (height baseImage)))).
Proof.
  intros Hne. unfold drawCanvas. cbn [baseImageSrc layers].
  destruct (filter visible lys) as [| l ls] eqn:E; [congruence |].
  f_equal. f_equal.
  apply (clip_to_opaque_mask (width baseImage) (height baseImage)).
  apply compositeMask_opaque.
Qed.

(** C8, as stated, fails for the composite mask.  A half-transparent white
    mask and an opaque mid-gray mask give the composite 128 in one order and
    192 in the other: ['lighten'] blends by the source's alpha, so it is a
    maximum only where the source is opaque. *)
Lemma mask_order_changes_composite :
  Permutation [soft_layer; gray_layer] [gray_layer; soft_layer]
  /\ compositeMask 1 1 (filter visible [soft_layer; gray_layer])
     = mkSurface 1 1 [mkRGBA 128 128 128 255]
  /\ compositeMask 1 1 (filter visible [gray_layer; soft_layer])
     = mkSurface 1 1 [mkRGBA 192 192 192 255].
Proof.
  split; [apply perm_swap |]. split; vm_compute; reflexivity.
Qed.

Lemma filter_permutation {X : Type} (f : X -> bool) (l l' : list X) :
  Permutation l l' -> Permutation (filter f l) (filter f l').
Proof.
  intros H. induction H as [| x l l' H IH | x y l | l l' l'' H1 IH1 H2 IH2];
    simpl.
  - constructor.
  - destruct (f x); auto.
  - destruct (f x), (f y); auto using perm_swap, Permutation_refl.
  - now transitivity (filter f l').
Qed.

(** C8, amended.  Permuting the layers never changes the final composited
    image.  It leaves the composite mask unchanged whenever every pixel of
    every mask is fully transparent or fully opaque: there each layer either
    leaves the composite alone or takes a channel-wise maximum with it, so
    the result depends only on the set of visible masks. *)
Theorem mask_order_independence :
  forall (Math_cos : number -> number) (Math_pow : number -> number -> number)
         (Math_random : Z -> number)
         (canvasFilter : number -> number -> number -> number ->
                         ImageData -> ImageData)
         (baseImage : ImageData) (a : Adjustments) (lys lys' : list Layer),
    Permutation lys lys' ->
    drawCanvas Math_cos Math_pow Math_random canvasFilter
               (mkEditorState (Some baseImage) lys a) a
    = drawCanvas Math_cos Math_pow Math_random canvasFilter
                 (mkEditorState (Some baseImage) lys' a) a
    /\ (Forall binary_mask lys ->
        compositeMask (width baseImage) (height baseImage) (filter visible lys)
        = compositeMask (width baseImage) (height baseImage)
            (filter visible lys')).
Proof.
  intros Math_cos Math_pow Math_random canvasFilter baseImage a lys lys' Hperm.
  pose proof (filter_permutation visible lys lys' Hperm) as Hvis.
  split.
  - destruct (filter visible lys) as [| l ls] eqn:E.
    + apply Permutation_nil in Hvis.
      unfold drawCanvas. cbn [baseImageSrc layers]. now rewrite E, Hvis.
    + rewrite !drawCanvas_with_masks; auto.
      * intros E'. rewrite E' in Hvis. apply Permutation_sym in Hvis.
        apply Permutation_nil in Hvis. discriminate.
      * congruence.
  - intros Hbin. unfold compositeMask.
    apply (fold_left_permutation (combine_mask (width baseImage) (height baseImage))
             (opaque_canvas (width baseImage) (height baseImage)) binary_mask).
    + intros. now apply combine_mask_opaque.
    + intros. now apply combine_mask_commute.
    + exact Hvis.
    + apply Forall_forall. intros l Hl. apply filter_In in Hl.
      rewrite Forall_forall in Hbin. now apply Hbin.
    + apply black_canvas_opaque.
Qed.

Lemma mask_order_independence_witness :
  compositeMask 1 1 (filter visible [white_layer; black_layer])
  = compositeMask 1 1 (filter visible [black_layer; white_layer])
  /\ compositeMask 1 1 (filter visible [white_layer; black_layer])
     = mkSurface 1 1 [opaque_white].
Proof.
  split; [| vm_compute; reflexivity].
  destruct (mask_order_independence
              SampleHost.Math_cos SampleHost.Math_pow SampleHost.Math_random
              SampleHost.canvasFilter (mkImageData 1 1 [9; 9; 9; 255])
              initialAdjustments [white_layer; black_layer]
              [black_layer; white_layer] (perm_swap _ _ _)) as [_ H].
  apply H. repeat constructor; right; reflexivity.
Defined.


(** ** The tone curve tables in exact arithmetic *)

Import Exact.

Section ExactCurves.

Local Open Scope R_scope.



Lemma square_le_le (X Y : R) : 0 <= X -> 0 <= Y -> Y * Y <= X * X -> Y <= X.
Proof. intros HX HY H. destruct (Rle_or_lt Y X) as [L | L]; auto. nra. Qed.

Lemma weighted_squares_bound (a b c u v : R) :
  0 <= a -> 0 <= b -> 0 <= c -> 0 <= u -> 0 <= v -> c * c <= a * b ->
  2 * u * v * c <= a * (v * v) + b * (u * u).
Proof.
  intros Ha Hb Hc Hu Hv Hab.
  assert (Huu : 0 <= u * u) by (apply Rmult_le_pos; assumption).
  assert (Hvv : 0 <= v * v) by (apply Rmult_le_pos; assumption).
  assert (Huv : 0 <= u * v) by (apply Rmult_le_pos; assumption).
  apply square_le_le.
  - apply Rplus_le_le_0_compat; apply Rmult_le_pos; assumption.
  - replace (2 * u * v * c) with (2 * ((u * v) * c)) by ring.
    assert (0 <= (u * v) * c) by (apply Rmult_le_pos; assumption). lra.
  - pose proof (Rle_0_sqr (a * (v * v) - b * (u * u))) as Hsq.
    unfold Rsqr in Hsq.
    assert (Huvuv : 0 <= (u * v) * (u * v))
      by (apply Rmult_le_pos; assumption).
    pose proof (Rmult_le_compat_l _ _ _ Huvuv Hab) as Hm.
    replace (2 * u * v * c * (2 * u * v * c))
      with (4 * (u * v * (u * v) * (c * c))) by ring.
    replace ((a * (v * v) + b * (u * u)) * (a * (v * v) + b * (u * u)))
      with ((a * (v * v) - b * (u * u)) * (a * (v * v) - b * (u * u))
            + 4 * (u * v * (u * v) * (a * b))) by ring.
    lra.
Qed.

Lemma hermite_slope_nonneg (D a b u : R) :
  0 <= D -> 0 <= a -> 0 <= b -> a * a + b * b <= 9 * (D * D) ->
  0 <= u <= 1 -> 0 <= hermite_slope D a b u.
Proof.
  intros HD Ha Hb Hcircle Hu.
  assert (Hv : 0 <= 1 - u) by lra.
  assert (E : hermite_slope D a b u
              = a * ((1 - u) * (1 - u)) + b * (u * u)
                + 2 * u * (1 - u) * (3 * D - a - b))
    by (unfold hermite_slope; ring).
  rewrite E. clear E. revert Hv. generalize (1 - u) as v. intros v Hv.
  assert (Huv : 0 <= u * v) by (apply Rmult_le_pos; lra).
  assert (Hav : 0 <= a * (v * v))
    by (apply Rmult_le_pos; [assumption | apply Rmult_le_pos; assumption]).
  assert (Hbu : 0 <= b * (u * u))
    by (apply Rmult_le_pos; [assumption | apply Rmult_le_pos; lra]).
  destruct (Rle_or_lt (a + b) (3 * D)) as [Hsmall | Hbig].
  - assert (0 <= (u * v) * (3 * D - a - b)) by (apply Rmult_le_pos; lra).
    replace (2 * u * v * (3 * D - a - b))
      with (2 * ((u * v) * (3 * D - a - b))) by ring.
    lra.
  - assert (Hc : 0 <= a + b - 3 * D) by lra.
    assert (Hsum : a + b <= 9 * D).
    { apply square_le_le; [lra | lra |].
      pose proof (Rle_0_sqr (a - b)) as Hsq. unfold Rsqr in Hsq.
      assert (0 <= D * D) by (apply Rmult_le_pos; assumption).
      replace ((a + b) * (a + b))
        with (2 * (a * a + b * b) - (a - b) * (a - b)) by ring.
      replace (9 * D * (9 * D)) with (81 * (D * D)) by ring.
      lra. }
    assert (Hab : (a + b - 3 * D) * (a + b - 3 * D) <= a * b).
    { assert (Hprod : 0 <= (a + b - 3 * D) * (9 * D - (a + b)))
        by (apply Rmult_le_pos; lra).
      replace (a * b)
        with (((a + b - 3 * D) * (a + b - 3 * D)
               + (a + b - 3 * D) * (9 * D - (a + b))
               + (9 * (D * D) - (a * a + b * b))) / 2
              + (a + b - 3 * D) * (a + b - 3 * D) / 2) by field.
      lra. }
    pose proof (weighted_squares_bound a b (a + b - 3 * D) u v Ha Hb Hc
                  (proj1 Hu) Hv Hab) as W.
    replace (2 * u * v * (3 * D - a - b))
      with (- (2 * u * v * (a + b - 3 * D))) by ring.
    lra.
Qed.

Lemma hermite_value_increment (y0 y1 a b s t : R) :
  hermite_value y0 y1 a b t - hermite_value y0 y1 a b s
  = (t - s) * ((hermite_slope (y1 - y0) a b s
                + 4 * hermite_slope (y1 - y0) a b ((s + t) / 2)
                + hermite_slope (y1 - y0) a b t) / 6).
Proof. unfold hermite_value, hermite_slope. field. Qed.

Lemma hermite_value_monotone (y0 y1 a b s t : R) :
  y0 <= y1 -> 0 <= a -> 0 <= b ->
  a * a + b * b <= 9 * ((y1 - y0) * (y1 - y0)) ->
  0 <= s -> s <= t -> t <= 1 ->
  hermite_value y0 y1 a b s <= hermite_value y0 y1 a b t.
Proof.
  intros Hy Ha Hb Hcircle Hs Hst Ht.
  assert (HD : 0 <= y1 - y0) by lra.
  pose proof (hermite_slope_nonneg _ a b s HD Ha Hb Hcircle ltac:(lra)).
  pose proof (hermite_slope_nonneg _ a b ((s + t) / 2) HD Ha Hb Hcircle
                ltac:(lra)).
  pose proof (hermite_slope_nonneg _ a b t HD Ha Hb Hcircle ltac:(lra)).
  pose proof (hermite_value_increment y0 y1 a b s t) as E.
  assert (0 <= (t - s) * ((hermite_slope (y1 - y0) a b s
                + 4 * hermite_slope (y1 - y0) a b ((s + t) / 2)
                + hermite_slope (y1 - y0) a b t) / 6)) by
    (apply Rmult_le_pos; lra).
  lra.
Qed.

Lemma hermite_value_0 y0 y1 a b : hermite_value y0 y1 a b 0 = y0.
Proof. unfold hermite_value. ring. Qed.

Lemma hermite_value_1 y0 y1 a b : hermite_value y0 y1 a b 1 = y1.
Proof. unfold hermite_value. ring. Qed.

Section ArrayFacts.

Context {num : Type} {A : Arith num}.

Lemma set_length (a : list num) (i : nat) (v : num) :
  length (set a i v) = length a.
Proof. revert i. induction a as [| h a IH]; intros [| i]; simpl; auto. Qed.

Lemma get_set_same (a : list num) (i : nat) (v : num) :
  (i < length a)%nat -> get (set a i v) i = v.
Proof.
  revert i. induction a as [| h a IH]; intros [| i] Hi; simpl in *;
    try lia; auto.
  apply IH. lia.
Qed.

Lemma get_set_other (a : list num) (i j : nat) (v : num) :
  i <> j -> get (set a i v) j = get a j.
Proof.
  revert i j. induction a as [| h a IH]; intros [| i] [| j] Hij; simpl;
    try reflexivity; try lia.
  apply IH. lia.
Qed.

Lemma get_map_seq (f : nat -> num) (n k : nat) :
  (k < n)%nat -> get (map f (seq 0 n)) k = f k.
Proof.
  intros Hk. unfold get.
  rewrite (nth_indep _ num_nan (f 0%nat)) by (now rewrite length_map, length_seq).
  rewrite (map_nth f (seq 0 n) 0%nat k). now rewrite seq_nth.
Qed.

Lemma get_map {X : Type} (f : X -> num) (l : list X) (d : X) (k : nat) :
  (k < length l)%nat -> get (map f l) k = f (nth k l d).
Proof.
  intros Hk. unfold get.
  rewrite (nth_indep _ num_nan (f d)) by (now rewrite length_map).
  apply map_nth.
Qed.

End ArrayFacts.


Lemma nonneg_set (m : list R) (i : nat) (v : R) :
  nonneg m -> 0 <= v -> nonneg (set m i v).
Proof.
  intros Hm Hv j. destruct (Nat.eq_dec i j) as [<- | Hij].
  - destruct (Nat.lt_ge_cases i (length m)) as [Hi | Hi].
    + now rewrite get_set_same.
    + unfold get. rewrite nth_overflow by (now rewrite set_length). 
      simpl. lra.
  - now rewrite get_set_other.
Qed.

Lemma nonneg_repeat (n : nat) : nonneg (repeat 0 n).
Proof.
  intros j. unfold get.
  destruct (Nat.lt_ge_cases j n) as [Hj | Hj].
  - rewrite (nth_indep _ _ 0) by (now rewrite repeat_length).
    rewrite nth_repeat. lra.
  - rewrite nth_overflow by (now rewrite repeat_length). simpl. lra.
Qed.

Lemma initial_tangents_nonneg (delta : list R) (n : nat) :
  nonneg delta -> nonneg (initial_tangents delta n).
Proof.
  intros Hd. unfold initial_tangents. cbv zeta.
  assert (H0 : nonneg
            (set (set (repeat (num_of_nat 0) n) 0 (get delta 0)) (n - 1)
                 (get delta (n - 2)))).
  { apply nonneg_set; [apply nonneg_set |]; auto. apply nonneg_repeat. }
  revert H0. generalize (set (set (repeat (num_of_nat 0) n) 0 (get delta 0))
                             (n - 1) (get delta (n - 2))) as m.
  generalize (seq 1 (n - 2)) as l.
  induction l as [| i l IH]; intros m Hm; simpl; auto.
  apply IH. apply nonneg_set; auto.
  pose proof (Hd (i - 1)%nat). pose proof (Hd i). lra.
Qed.

Lemma initial_tangents_length (delta : list R) (n : nat) :
  length (initial_tangents delta n) = n.
Proof.
  unfold initial_tangents. cbv zeta.
  assert (H0 : length
            (set (set (repeat (num_of_nat 0) n) 0 (get delta 0)) (n - 1)
                 (get delta (n - 2))) = n)
    by (now rewrite !set_length, repeat_length).
  revert H0. generalize (set (set (repeat (num_of_nat 0) n) 0 (get delta 0))
                             (n - 1) (get delta (n - 2))) as m.
  generalize (seq 1 (n - 2)) as l.
  induction l as [| i l IH]; intros m Hm; simpl; auto.
  apply IH. now rewrite set_length.
Qed.



Lemma limit_tangents_step (delta m : list R) (k : nat) :
  nonneg delta -> nonneg m -> (k + 1 < length m)%nat ->
  let m' := limit_tangents delta m k in
  length m' = length m /\ nonneg m' /\ below m' m /\ in_disc delta m' k.
Proof.
  intros Hd Hm Hk. cbv zeta. unfold limit_tangents.
  cbn [num_eqb num_ltb num_div num_mul num_add num_sqrt num_of_nat real_arith].
  unfold Reqb, Rltb. simpl INR.
  pose proof (Hd k) as Hdk. pose proof (Hm k) as Hmk.
  pose proof (Hm (k + 1)%nat) as Hmk1.
  assert (Hne : k <> (k + 1)%nat) by lia.
  assert (Hne' : (k + 1)%nat <> k) by lia.
  destruct (Req_dec_T (get delta k) 0) as [Hz | Hnz].
  - repeat split.
    + now rewrite !set_length.
    + apply nonneg_set; [apply nonneg_set |]; auto; lra.
    + intros j. destruct (Nat.eq_dec j (k + 1)) as [-> | Hj1].
      * rewrite get_set_same by (rewrite set_length; lia). auto.
      * rewrite get_set_other by lia.
        destruct (Nat.eq_dec j k) as [-> | Hj].
        -- rewrite get_set_same by lia. auto.
        -- rewrite get_set_other by lia. lra.
    + unfold in_disc. rewrite get_set_other by lia.
      rewrite get_set_same by lia.
      rewrite get_set_same by (rewrite set_length; lia). rewrite Hz. lra.
  - assert (Hpos : 0 < get delta k) by lra.
    assert (Ha : 0 <= get m k / get delta k)
      by (apply Rmult_le_pos; [assumption | apply Rlt_le, Rinv_0_lt_compat; assumption]).
    assert (Hb : 0 <= get m (k + 1) / get delta k)
      by (apply Rmult_le_pos; [assumption | apply Rlt_le, Rinv_0_lt_compat; assumption]).
    destruct (Rlt_dec (get m k / get delta k) 0) as [C | _]; [lra |].
    destruct (Rlt_dec (get m (k + 1) / get delta k) 0) as [C | _]; [lra |].
    set (alpha := get m k / get delta k) in *.
    set (beta := get m (k + 1) / get delta k) in *.
    assert (Hsum : 0 <= alpha * alpha + beta * beta)
      by (apply Rplus_le_le_0_compat; apply Rmult_le_pos; assumption).
    pose proof (sqrt_sqrt _ Hsum) as Hsq.
    pose proof (sqrt_pos (alpha * alpha + beta * beta)) as Hhyp.
    assert (Emk : get m k = alpha * get delta k)
      by (unfold alpha; field; lra).
    assert (Emk1 : get m (k + 1) = beta * get delta k)
      by (unfold beta; field; lra).
    destruct (Rlt_dec (1 + 1 + 1) (R_sqrt.sqrt (alpha * alpha + beta * beta)))
      as [Hbig | Hsmall].
    + set (hyp := R_sqrt.sqrt (alpha * alpha + beta * beta)) in *.
      assert (Htau : 0 < (1 + 1 + 1) / hyp <= 1).
      { split.
        - apply Rdiv_lt_0_compat; lra.
        - apply Rmult_le_reg_r with hyp; [lra |].
          unfold Rdiv. rewrite Rmult_assoc, Rinv_l by lra. lra. }
      set (tau := (1 + 1 + 1) / hyp) in *.
      rewrite (get_set_other m k (k + 1)) by lia.
      repeat split.
      * now rewrite !set_length.
      * apply nonneg_set; [apply nonneg_set |]; auto;
          apply Rmult_le_pos; lra.
      * intros j. destruct (Nat.eq_dec j (k + 1)) as [-> | Hj1].
        -- rewrite get_set_same by (rewrite set_length; lia).
           assert (get m (k + 1) * tau <= get m (k + 1) * 1)
             by (apply Rmult_le_compat_l; lra). lra.
        -- rewrite get_set_other by lia.
           destruct (Nat.eq_dec j k) as [-> | Hj].
           ++ rewrite get_set_same by lia.
              assert (get m k * tau <= get m k * 1)
                by (apply Rmult_le_compat_l; lra). lra.
           ++ rewrite get_set_other by lia. lra.
      * unfold in_disc. rewrite get_set_other by lia.
        rewrite get_set_same by lia.
        rewrite get_set_same by (rewrite set_length; lia).
        rewrite Emk, Emk1.
        assert (Et : tau * hyp = 3) by (unfold tau; field; lra).
        replace (alpha * get delta k * tau * (alpha * get delta k * tau)
                 + beta * get delta k * tau * (beta * get delta k * tau))
          with ((tau * hyp) * (tau * hyp) * (get delta k * get delta k)
                * ((alpha * alpha + beta * beta) / (hyp * hyp))).
        2:{ field. lra. }
        rewrite Et. fold hyp in Hsq. rewrite Hsq.
        unfold Rdiv. rewrite Rinv_r by (rewrite <- Hsq; apply Rgt_not_eq;
          apply Rmult_lt_0_compat; lra). lra.
    + repeat split; auto.
      * intros j. lra.
      * unfold in_disc. rewrite Emk, Emk1.
        assert (Hle : R_sqrt.sqrt (alpha * alpha + beta * beta) <= 3) by lra.
        assert (H9 : alpha * alpha + beta * beta <= 9).
        { rewrite <- Hsq.
          replace 9 with (3 * 3) by lra.
          apply Rmult_le_compat; lra. }
        assert (Hdd : 0 <= get delta k * get delta k)
          by (apply Rmult_le_pos; lra).
        pose proof (Rmult_le_compat_l _ _ _ Hdd H9) as P.
        replace (alpha * get delta k * (alpha * get delta k)
                 + beta * get delta k * (beta * get delta k))
          with (get delta k * get delta k * (alpha * alpha + beta * beta))
          by ring.
        lra.
Qed.

Lemma in_disc_below (delta m m' : list R) (k : nat) :
  nonneg m' -> below m' m -> in_disc delta m k -> in_disc delta m' k.
Proof.
  unfold in_disc. intros Hn Hb Hd.
  pose proof (Hn k). pose proof (Hn (k + 1)%nat).
  pose proof (Hb k). pose proof (Hb (k + 1)%nat).
  assert (get m' k * get m' k <= get m k * get m k)
    by (apply Rmult_le_compat; lra).
  assert (get m' (k + 1) * get m' (k + 1) <= get m (k + 1) * get m (k + 1))
    by (apply Rmult_le_compat; lra).
  lra.
Qed.

Lemma tangents_prefix (delta m0 : list R) (n K : nat) :
  nonneg delta -> nonneg m0 -> length m0 = n -> (K + 1 <= n)%nat ->
  let m := fold_left (limit_tangents delta) (seq 0 K) m0 in
  length m = n /\ nonneg m
  /\ forall k, (k < K)%nat -> in_disc delta m k.
Proof.
  intros Hd H0 Hlen. induction K as [| K IH]; intros HK; cbv zeta.
  - simpl. repeat split; auto. intros k Hk. lia.
  - rewrite seq_S, fold_left_app. cbn [fold_left Nat.add].
    destruct (IH ltac:(lia)) as (Hl & Hn & Hdisc).
    set (m := fold_left (limit_tangents delta) (seq 0 K) m0) in *.
    destruct (limit_tangents_step delta m K Hd Hn ltac:(lia))
      as (Hl' & Hn' & Hb' & Hd').
    repeat split; auto; try lia.
    intros k Hk. destruct (Nat.eq_dec k K) as [-> | Hne]; auto.
    apply in_disc_below with m; auto. apply Hdisc. lia.
Qed.

Lemma tangents_spec (delta : list R) (n : nat) :
  nonneg delta -> (1 <= n)%nat ->
  length (tangents delta n) = n /\ nonneg (tangents delta n)
  /\ forall k, (k + 1 < n)%nat -> in_disc delta (tangents delta n) k.
Proof.
  intros Hd Hn. unfold tangents.
  destruct (tangents_prefix delta (initial_tangents delta n) n (n - 1) Hd
              (initial_tangents_nonneg delta n Hd)
              (initial_tangents_length delta n) ltac:(lia))
    as (Hl & Hnn & Hdisc).
  repeat split; auto. intros k Hk. apply Hdisc. lia.
Qed.

(** *** Clamping *)

Lemma INR_255 : INR 255 = 255.
Proof. rewrite INR_IZR_INZ. reflexivity. Qed.

Lemma clamp255_exact (v : R) : clamp255 v = Rmax 0 (Rmin 255 v).
Proof.
  unfold clamp255, Math_max, Math_min.
  cbn [num_is_nan num_ltb num_sign_bit num_of_nat real_arith orb].
  rewrite INR_255. change (INR 0) with 0. unfold Rltb, Rmax, Rmin.
  destruct (Rlt_dec 255 v), (Rlt_dec v 255), (Rle_dec 255 v); try lra;
    repeat (match goal with
            | |- context [Rlt_dec ?a ?b] => destruct (Rlt_dec a b)
            | |- context [Rle_dec ?a ?b] => destruct (Rle_dec a b)
            end); lra.
Qed.

Lemma clamp255_monotone (u v : R) : u <= v -> clamp255 u <= clamp255 v.
Proof.
  intros H. rewrite !clamp255_exact.
  apply Rle_max_compat_l. apply Rle_min_compat_l. exact H.
Qed.

Lemma clamp255_below (v : R) : 0 <= v -> clamp255 v <= v.
Proof.
  intros H. rewrite clamp255_exact. unfold Rmax, Rmin.
  repeat (match goal with
          | |- context [Rle_dec ?a ?b] => destruct (Rle_dec a b)
          end); lra.
Qed.

(** *** Chains *)


Lemma chain_cons (a b : R) (l : list R) :
  a <= b -> chain (b :: l) -> chain (a :: b :: l).
Proof.
  intros Hab Hc [| k] Hk; simpl; auto.
  apply (Hc k). simpl in *. lia.
Qed.

Lemma chain_tail (a : R) (l : list R) : chain (a :: l) -> chain l.
Proof.
  intros Hc k Hk. apply (Hc (S k)). simpl. lia.
Qed.

Lemma chain_single (a : R) : chain [a].
Proof. intros k Hk. simpl in Hk. lia. Qed.

Lemma chain_nil : chain [].
Proof. intros k Hk. simpl in Hk. lia. Qed.

(** *** Sorting by x *)

Lemma insert_sorted_chain (p : Point R) (l : list (Point R)) :
  chain (map px l) -> chain (map px (insert_sorted p l)).
Proof.
  induction l as [| q l IH]; intros Hc; simpl.
  - apply chain_single.
  - unfold compare_x.
    cbn [num_is_nan num_leb num_sub num_of_nat real_arith].
    unfold Rleb. change (INR 0) with 0.
    destruct (Rle_dec (px p - px q) 0) as [Hle | Hgt]; simpl.
    + apply chain_cons; [lra | exact Hc].
    + specialize (IH (chain_tail _ _ Hc)).
      destruct l as [| r l]; simpl in *.
      * apply chain_cons; [lra | apply chain_single].
      * unfold compare_x in *.
        cbn [num_is_nan num_leb num_sub num_of_nat real_arith] in *.
        unfold Rleb in *. change (INR 0) with 0 in *.
        destruct (Rle_dec (px p - px r) 0); simpl in *.
        -- apply chain_cons; [lra | exact IH].
        -- apply chain_cons; [| exact IH].
           apply (Hc 0%nat). simpl. lia.
Qed.

Lemma sort_by_x_chain (l : list (Point R)) : chain (map px (sort_by_x l)).
Proof.
  unfold sort_by_x. induction l as [| p l IH]; simpl.
  - apply chain_nil.
  - now apply insert_sorted_chain.
Qed.

Lemma uniquePoints_sorted (points : Curve R) :
  chain (map px (uniquePoints points)).
Proof. unfold uniquePoints. apply sort_by_x_chain. Qed.

Lemma chain_get (l : list R) (k : nat) :
  chain l -> (k + 1 < length l)%nat -> get l k <= get l (k + 1).
Proof. intros Hc Hk. exact (Hc k Hk). Qed.

Lemma chain_le (l : list R) (j k : nat) :
  chain l -> (j <= k)%nat -> (k < length l)%nat -> get l j <= get l k.
Proof.
  intros Hc Hjk Hk. induction Hjk as [| k Hjk IH]; [lra |].
  specialize (IH ltac:(lia)).
  pose proof (chain_get l k Hc ltac:(lia)) as H.
  replace (k + 1)%nat with (S k) in H by lia. lra.
Qed.

Lemma hermite_exact (x y m dx : list R) (p : nat) (i : R) :
  hermite x y m dx p i
  = if Rlt_dec (1 / 10000000) (get dx p)
    then hermite_value (get y p) (get y (p + 1)) (get m p * get dx p)
           (get m (p + 1) * get dx p) ((i - get x p) / get dx p)
    else get y p.
Proof.
  unfold hermite.
  cbn [num_ltb num_div num_mul num_add num_sub num_of_nat num_1e_7 real_arith].
  unfold Rltb. destruct (Rlt_dec (1 / 10000000) (get dx p));
    unfold hermite_value; simpl INR; ring.
Qed.

Section Segments.

Variable up : list (Point R).

Let n := length up.
Let x := map px up.
Let y := map py up.
Let dx := segment_dx x n.
Let delta := segment_delta x y n.
Let m := tangents delta n.

Hypothesis y_sorted : chain y.
Hypothesis two_points : (2 <= n)%nat.
Hypothesis x_last : get x (n - 1) = 255.

Lemma x_length : length x = n.
Proof. unfold x, n. apply length_map. Qed.

Lemma y_length : length y = n.
Proof. unfold y, n. apply length_map. Qed.

Lemma get_dx (p : nat) :
  (p + 1 < n)%nat -> get dx p = get x (p + 1) - get x p.
Proof.
  intros Hp. unfold dx, segment_dx. rewrite get_map_seq by lia. reflexivity.
Qed.

Lemma get_delta (p : nat) :
  (p + 1 < n)%nat ->
  get delta p
  = if Rle_dec (get x (p + 1) - get x p) (1 / 10000000) then 0
    else (get y (p + 1) - get y p) / (get x (p + 1) - get x p).
Proof.
  intros Hp. unfold delta, segment_delta. rewrite get_map_seq by lia.
  cbn [num_leb num_sub num_div num_of_nat num_1e_7 real_arith].
  unfold Rleb. destruct (Rle_dec _ _); reflexivity.
Qed.

Lemma delta_nonneg : nonneg delta.
Proof.
  intros j. destruct (Nat.lt_ge_cases (j + 1) n) as [Hj | Hj].
  - rewrite get_delta by exact Hj.
    destruct (Rle_dec _ _) as [_ | Hgt]; [lra |].
    pose proof (chain_get y j y_sorted ltac:(rewrite y_length; lia)).
    apply Rmult_le_pos; [lra |].
    apply Rlt_le, Rinv_0_lt_compat. lra.
  - unfold get. rewrite nth_overflow; [simpl; lra |].
    unfold delta, segment_delta. rewrite length_map, length_seq. lia.
Qed.

(** On its own segment the interpolant climbs from [y[p]] to [y[p+1]]. *)
Lemma segment_values (p : nat) (i i' : R) :
  (p + 1 < n)%nat -> get x p <= i -> i <= i' -> i' <= get x (p + 1) ->
  get y p <= hermite x y m dx p i
  /\ hermite x y m dx p i <= hermite x y m dx p i'
  /\ hermite x y m dx p i' <= get y (p + 1).
Proof.
  intros Hp Hi Hii Hi'.
  pose proof (chain_get y p y_sorted ltac:(rewrite y_length; lia)) as Hy.
  rewrite !hermite_exact, get_dx by exact Hp.
  destruct (Rlt_dec (1 / 10000000) (get x (p + 1) - get x p)) as [Hh | Hh];
    [| lra].
  set (h := get x (p + 1) - get x p) in *.
  assert (Hpos : 0 < h) by lra.
  destruct (tangents_spec delta n delta_nonneg ltac:(lia))
    as (_ & Hnn & Hdisc).
  fold m in Hnn, Hdisc.
  pose proof (Hnn p) as Hm0. pose proof (Hnn (p + 1)%nat) as Hm1.
  pose proof (Hdisc p Hp) as Hd. unfold in_disc in Hd.
  rewrite get_delta in Hd by exact Hp. fold h in Hd.
  destruct (Rle_dec h (1 / 10000000)) as [C | _]; [lra |].
  set (y0 := get y p) in *. set (y1 := get y (p + 1)) in *.
  set (a := get m p * h). set (b := get m (p + 1) * h).
  assert (Ha : 0 <= a) by (apply Rmult_le_pos; lra).
  assert (Hb : 0 <= b) by (apply Rmult_le_pos; lra).
  assert (Hcircle : a * a + b * b <= 9 * ((y1 - y0) * (y1 - y0))).
  { assert (Hhh : 0 <= h * h) by (apply Rmult_le_pos; lra).
    pose proof (Rmult_le_compat_l _ _ _ Hhh Hd) as P.
    replace (a * a + b * b)
      with (h * h * (get m p * get m p + get m (p + 1) * get m (p + 1)))
      by (unfold a, b; ring).
    replace (9 * ((y1 - y0) * (y1 - y0)))
      with (h * h * (9 * ((y1 - y0) / h * ((y1 - y0) / h))))
      by (field; lra).
    exact P. }
  assert (Ht : forall v, get x p <= v -> v <= get x (p + 1) ->
                         0 <= (v - get x p) / h <= 1).
  { intros v Hv0 Hv1. split.
    - apply Rmult_le_pos; [lra | apply Rlt_le, Rinv_0_lt_compat; lra].
    - apply Rmult_le_reg_r with h; [lra |].
      unfold Rdiv. rewrite Rmult_assoc, Rinv_l by lra. unfold h. lra. }
  assert (Hmono : (i - get x p) / h <= (i' - get x p) / h).
  { apply Rmult_le_compat_r; [apply Rlt_le, Rinv_0_lt_compat; lra | lra]. }
  destruct (Ht i ltac:(lra) ltac:(lra)) as [Ht0 Ht1].
  destruct (Ht i' ltac:(lra) ltac:(lra)) as [Ht0' Ht1'].
  pose proof (hermite_value_monotone y0 y1 a b 0 ((i - get x p) / h)
                Hy Ha Hb Hcircle ltac:(lra) Ht0 Ht1) as L0.
  pose proof (hermite_value_monotone y0 y1 a b _ _
                Hy Ha Hb Hcircle Ht0 Hmono Ht1') as L1.
  pose proof (hermite_value_monotone y0 y1 a b ((i' - get x p) / h) 1
                Hy Ha Hb Hcircle Ht0' Ht1' ltac:(lra)) as L2.
  rewrite hermite_value_0 in L0. rewrite hermite_value_1 in L2.
  auto.
Qed.

(** The [while] loop stops at the first segment that reaches [i], or at
    the last segment. *)
Lemma advance_spec (i : R) (fuel p : nat) :
  (p + 2 <= n)%nat -> (n - 2 - p <= fuel)%nat ->
  let p' := advance fuel x n i p in
  (p <= p')%nat /\ (p' + 2 <= n)%nat
  /\ (p' = p \/ get x p' < i)
  /\ ((p' + 2)%nat = n \/ ~ get x (p' + 1) < i).
Proof.
  revert p. induction fuel as [| fuel IH]; intros p Hp Hfuel; cbv zeta.
  - simpl. repeat split; auto. left. lia.
  - simpl. cbn [num_ltb real_arith]. unfold Rltb.
    destruct (Nat.ltb_spec p (n - 2)) as [Hlt | Hge]; simpl.
    + destruct (Rlt_dec (get x (p + 1)) i) as [Hx | Hx].
      * destruct (IH (p + 1)%nat ltac:(lia) ltac:(lia)) as (H1 & H2 & H3 & H4).
        repeat split; auto; try lia.
        right. destruct H3 as [-> | H3]; auto.
      * repeat split; auto.
    + repeat split; auto. left. lia.
Qed.

Lemma lut_loop_length (ixs : list nat) (p : nat) :
  length (lut_loop x y m dx n ixs p) = length ixs.
Proof.
  revert p. induction ixs as [| i ixs IH]; intros p; simpl; auto.
Qed.

Lemma lut_loop_chain (len start p : nat) (u : R) :
  (p + 2 <= n)%nat -> get x p <= u -> u <= get x (p + 1) -> u <= INR start ->
  (start + len <= 256)%nat ->
  chain (clamp255 (hermite x y m dx p u)
           :: lut_loop x y m dx n (seq start len) p)
  /\ Forall (fun v => v <= clamp255 (get y (n - 1)))
            (lut_loop x y m dx n (seq start len) p).
Proof.
  revert start p u.
  induction len as [| len IH]; intros start p u Hp Hu0 Hu1 Hus Hlen.
  - simpl. split; [apply chain_single | constructor].
  - cbn [seq lut_loop].
    change (@num_of_nat R real_arith start) with (INR start).
    destruct (advance_spec (INR start) n p Hp ltac:(lia))
      as (Hpp & Hp' & Hlow & Hhigh).
    set (p' := advance n x n (INR start) p) in *.
    assert (Hstart : INR start <= 255).
    { rewrite <- INR_255. apply le_INR. lia. }
    assert (Hx0 : get x p' <= INR start).
    { destruct Hlow as [-> | Hlow]; lra. }
    assert (Hx1 : INR start <= get x (p' + 1)).
    { destruct Hhigh as [E | Hhigh]; [| lra].
      replace (p' + 1)%nat with (n - 1)%nat by lia. lra. }
    destruct (IH (S start) p' (INR start) Hp' Hx0 Hx1
                ltac:(rewrite S_INR; lra) ltac:(lia)) as (Hchain & Hall).
    destruct (segment_values p' (INR start) (INR start) ltac:(lia)
                Hx0 ltac:(lra) Hx1) as (Hlo' & _ & Hhi').
    split.
    + apply chain_cons; [| exact Hchain].
      apply clamp255_monotone.
      destruct (Nat.eq_dec p' p) as [E | Hne].
      * rewrite E in *.
        now destruct (segment_values p u (INR start) ltac:(lia)
                        Hu0 Hus Hx1) as (_ & H & _).
      * destruct (segment_values p u u ltac:(lia) Hu0 ltac:(lra) Hu1)
          as (_ & _ & Hhi).
        pose proof (chain_le y (p + 1) p' y_sorted ltac:(lia)
                      ltac:(rewrite y_length; lia)).
        lra.
    + constructor; [| exact Hall].
      apply clamp255_monotone.
      pose proof (chain_le y (p' + 1) (n - 1) y_sorted ltac:(lia)
                    ltac:(rewrite y_length; lia)).
      lra.
Qed.

End Segments.

Lemma Rleb_le (a b : R) : Rleb a b = true <-> a <= b.
Proof. unfold Rleb. destruct (Rle_dec a b); split; auto; discriminate. Qed.

Lemma nondecreasing_chain (l : list R) : nondecreasing l <-> chain l.
Proof.
  unfold nondecreasing, chain. split; intros H k Hk.
  - apply Rleb_le. exact (H k Hk).
  - apply Rleb_le. exact (H k Hk).
Qed.


Lemma uniquePoints_initialCurve_exact :
  uniquePoints (initialCurve (num := R)) = initialCurve.
Proof.
  unfold uniquePoints, initialCurve, sort_by_x. cbn [fold_left Map_set px py].
  unfold sameValueZero.
  cbn [num_eqb num_is_nan num_of_nat real_arith andb orb].
  unfold Reqb. rewrite INR_255. change (INR 0) with 0.
  destruct (Req_dec_T 0 0) as [_ | C]; [| lra].
  destruct (Req_dec_T 0 255) as [C | _]; [lra |].
  destruct (Req_dec_T 255 0) as [C | _]; [lra |].
  cbn [orb fold_right insert_sorted]. unfold compare_x.
  cbn [px num_sub num_is_nan num_leb num_of_nat real_arith]. unfold Rleb.
  change (INR 0) with 0.
  destruct (Rle_dec (0 - 255) 0) as [_ | C]; [reflexivity | lra].
Qed.


End ExactCurves.

(** ** The undo history *)

Lemma item_in_range {X : Type} (a : list X) (i : Z) :
  0 <= i < Z.of_nat (length a) -> exists v, item a i = Some v.
Proof.
  intros H. unfold item.
  destruct (Z.ltb_spec i 0) as [C | _]; [lia |].
  destruct (nth_error a (Z.to_nat i)) as [v |] eqn:E; [eauto |].
  apply nth_error_None in E. lia.
Qed.

Lemma item_app_left {X : Type} (a b : list X) (i : Z) :
  i < Z.of_nat (length a) -> item (a ++ b) i = item a i.
Proof.
  intros H. unfold item. destruct (Z.ltb_spec i 0); auto.
  apply nth_error_app1. lia.
Qed.

Lemma item_app_last {X : Type} (a : list X) (v : X) :
  item (a ++ [v]) (Z.of_nat (length a)) = Some v.
Proof.
  unfold item. destruct (Z.ltb_spec (Z.of_nat (length a)) 0) as [C | _]; [lia |].
  rewrite Nat2Z.id, nth_error_app2 by lia. now rewrite Nat.sub_diag.
Qed.

Lemma item_firstn {X : Type} (a : list X) (k : nat) (i : Z) :
  i < Z.of_nat k -> item (firstn k a) i = item a i.
Proof.
  intros H. unfold item. destruct (Z.ltb_spec i 0); auto.
  rewrite nth_error_firstn.
  destruct (Nat.ltb_spec (Z.to_nat i) k); auto. lia.
Qed.

Lemma item_tl {X : Type} (a : list X) (i : Z) :
  0 <= i -> item (tl a) i = item a (i + 1).
Proof.
  intros H. unfold item.
  destruct (Z.ltb_spec i 0) as [C | _]; [lia |].
  destruct (Z.ltb_spec (i + 1) 0) as [C | _]; [lia |].
  replace (Z.to_nat (i + 1)) with (S (Z.to_nat i)) by lia.
  destruct a; simpl; auto. now destruct (Z.to_nat i).
Qed.

Lemma length_tl {X : Type} (a : list X) : length (tl a) = (length a - 1)%nat.
Proof. destruct a; simpl; lia. Qed.

Lemma slice0_prefix {X : Type} (a : list X) (e : Z) :
  0 <= e <= Z.of_nat (length a) -> slice0 a e = firstn (Z.to_nat e) a.
Proof.
  intros H. unfold slice0. cbv zeta.
  destruct (Z.ltb_spec e 0) as [C | _]; [lia |]. f_equal. lia.
Qed.

(** What a commit does to a well-formed history. *)
Lemma commitChange_spec (updater : EditorState -> EditorState)
    (overwrite : bool) (h : HistoryState) :
  history_ok h ->
  exists base h',
    currentState h = Some base
    /\ commitChange updater overwrite h = Some h'
    /\ history_ok h'
    /\ currentState h' = Some (updater base)
    /\ canRedo h' = false
    /\ (overwrite = false ->
        canUndo h' = true /\ item (stack h') (index h' - 1) = Some base)
    /\ (overwrite = true ->
        index h' = index h
        /\ item (stack h') (index h' - 1) = item (stack h) (index h - 1)
        /\ (length (stack h') <= length (stack h))%nat).
Proof.
  intros [Hi Hlen]. unfold MAX_HISTORY in Hlen.
  destruct (item_in_range (stack h) (index h) Hi) as [base Hbase].
  exists base. unfold commitChange, currentState. rewrite Hbase. cbv zeta.
  eexists. split; [reflexivity |]. split; [reflexivity |].
  set (k := if overwrite then index h else index h + 1).
  assert (Hk : 0 <= k <= Z.of_nat (length (stack h)))
    by (unfold k; destruct overwrite; lia).
  replace (if overwrite then slice0 (stack h) (index h)
           else slice0 (stack h) (index h + 1))
    with (firstn (Z.to_nat k) (stack h))
    by (unfold k; destruct overwrite; now rewrite slice0_prefix by lia).
  set (pre := firstn (Z.to_nat k) (stack h)).
  assert (Hpre : length pre = Z.to_nat k)
    by (unfold pre; rewrite length_firstn; lia).
  assert (Hnew : length (pre ++ [updater base]) = S (Z.to_nat k))
    by (rewrite length_app, Hpre; simpl; lia).
  unfold MAX_HISTORY. cbn [stack index].
  destruct (Nat.ltb_spec 30 (length (pre ++ [updater base]))) as [Hfull | Hfit].
  - (* the oldest state is dropped *)
    assert (Hk30 : k = 30) by lia.
    assert (Hov : overwrite = false)
      by (destruct overwrite; auto; unfold k in Hk30; lia).
    assert (Hi29 : index h = 29) by (subst overwrite; unfold k in Hk30; lia).
    rewrite length_tl, Hnew, Hk30.
    change (Z.of_nat (S (Z.to_nat 30) - 1) - 1) with 29.
    assert (Hlast : item (tl (pre ++ [updater base])) 29 = Some (updater base)).
    { rewrite item_tl by lia. change (29 + 1) with 30.
      replace 30 with (Z.of_nat (length pre)) by lia. apply item_app_last. }
    split; [| split; [| split; [| split]]].
    + unfold history_ok. cbn [stack index]. rewrite length_tl, Hnew.
      unfold MAX_HISTORY. simpl. lia.
    + exact Hlast.
    + unfold canRedo. cbn [stack index]. rewrite length_tl, Hnew, Hk30.
      reflexivity.
    + intros _. split; [reflexivity |].
      change (29 - 1) with 28. rewrite item_tl by lia. change (28 + 1) with 29.
      rewrite item_app_left by lia. unfold pre. rewrite item_firstn by lia.
      now rewrite <- Hi29.
    + congruence.
  - rewrite Hnew.
    replace (Z.of_nat (S (Z.to_nat k)) - 1) with k by lia.
    assert (Hlast : item (pre ++ [updater base]) k = Some (updater base)).
    { replace k with (Z.of_nat (length pre)) at 1 by lia. apply item_app_last. }
    split; [| split; [| split; [| split]]].
    + unfold history_ok, MAX_HISTORY. cbn [stack index]. rewrite Hnew. lia.
    + exact Hlast.
    + unfold canRedo. cbn [stack index]. rewrite Hnew. apply Z.ltb_ge. lia.
    + intros ->. split.
      * unfold canUndo. cbn [index]. apply Z.ltb_lt. unfold k. lia.
      * unfold k. replace (index h + 1 - 1) with (index h) by lia.
        rewrite item_app_left by (unfold k in Hpre; lia).
        unfold pre, k. now rewrite item_firstn by lia.
    + intros ->. unfold k in *. split; [reflexivity | split].
      * destruct (Z.eq_dec (index h) 0) as [E0 | Hpos].
        -- rewrite E0. reflexivity.
        -- rewrite item_app_left by lia.
           unfold pre. now rewrite item_firstn by lia.
      * cbn [stack]. lia.
Qed.

Lemma undoHistory_ok (h : HistoryState) : history_ok h -> history_ok (undoHistory h).
Proof.
  intros [Hi Hl]. unfold undoHistory, canUndo.
  destruct (Z.ltb_spec 0 (index h)); split; cbn [stack index]; auto; lia.
Qed.

Lemma redoHistory_ok (h : HistoryState) : history_ok h -> history_ok (redoHistory h).
Proof.
  intros [Hi Hl]. unfold redoHistory, canRedo.
  destruct (Z.ltb_spec (index h) (Z.of_nat (length (stack h)) - 1));
    split; cbn [stack index]; auto; lia.
Qed.

Lemma fresh_history_ok (st : EditorState) : history_ok (mkHistoryState [st] 0).
Proof. split; cbn [stack index length]; unfold MAX_HISTORY; lia. Qed.

Lemma commit_ok updater overwrite (g : HistoryState -> App) h :
  history_ok h -> (forall h', history (g h') = h') ->
  exists app', option_map g (commitChange updater overwrite h) = Some app'
               /\ history_ok (history app').
Proof.
  intros Hok Hg.
  destruct (commitChange_spec updater overwrite h Hok)
    as (base & h' & _ & -> & Hok' & _).
  exists (g h'). split; [reflexivity |]. now rewrite Hg.
Qed.

(** Every edit of the component succeeds on a well-formed history and
    leaves it well formed. *)
Lemma edit_ok (e : Edit) (app : App) :
  history_ok (history app) ->
  exists app', edit e app = Some app' /\ history_ok (history app').
Proof.
  intros Hok.
  destruct (item_in_range _ _ (proj1 Hok)) as [st Hst].
  fold (currentState (history app)) in Hst.
  destruct e; cbn [edit].
  - apply commit_ok; auto.
  - exists (undo app). split; auto. unfold undo.
    destruct (canUndo (history app)); cbn [history]; auto using undoHistory_ok.
  - exists (redo app). split; auto. unfold redo.
    destruct (canRedo (history app)); cbn [history]; auto using redoHistory_ok.
  - unfold handleLiveUpdate, activeAdjustments. rewrite Hst.
    destruct (liveAdjustments app); cbn [option_map]; eexists; split;
      try reflexivity; exact Hok.
  - unfold handleCommitUpdate. destruct (liveAdjustments app).
    + apply commit_ok; auto.
    + eauto.
  - apply commit_ok; auto.
  - apply commit_ok; auto.
  - eexists. split; [reflexivity |]. unfold resetAll. rewrite Hst.
    destruct (baseImageSrc st); cbn [history]; auto using fresh_history_ok.
  - eexists. split; [reflexivity |]. apply fresh_history_ok.
  - unfold addLayer. rewrite Hst. apply commit_ok; auto.
  - apply commit_ok; auto.
  - apply commit_ok; auto.
  - apply commit_ok; auto.
  - unfold clearActiveMask. destruct (activeLayerId app).
    + apply commit_ok; auto.
    + eauto.
  - unfold invertMask. rewrite Hst. destruct (activeLayerId app); [| eauto].
    destruct (find _ (layers st)); [| eauto]. apply commit_ok; auto.
  - unfold storeMask. destruct (activeLayerId app).
    + apply commit_ok; auto.
    + eauto.
  - unfold applyDestructiveTransform. rewrite Hst.
    destruct (baseImageSrc st); [| eauto]. apply commit_ok; auto.
Qed.

(** X1.  Whatever edits are made from the first render on (commits with or
    without overwrite, undo, redo, slider drags and commits, presets, reset,
    opening a file, layer edits, destructive transforms), no edit fails,
    the history index always points at a state of the stack, and the stack
    never holds more than [MAX_HISTORY] = 30 states. *)
Theorem session_keeps_history_bounded :
  forall es : list Edit,
    exists app, session es initialApp = Some app
                /\ history_ok (history app)
                /\ exists st, currentState (history app) = Some st.
Proof.
  intros es.
  assert (H0 : history_ok (history initialApp)) by apply fresh_history_ok.
  revert H0. generalize initialApp as app.
  induction es as [| e es IH]; intros app Hok; cbn [session].
  - exists app. split; [reflexivity |]. split; [exact Hok |].
    apply item_in_range, Hok.
  - destruct (edit_ok e app Hok) as (app' & -> & Hok'). now apply IH.
Qed.

(** X2.  On a well-formed history a commit makes the updated state the
    current one and leaves nothing to redo.  Without overwrite the state it
    started from is the one undo returns to, also when the stack was full
    and its oldest state was dropped; redo then comes back. *)
Theorem commit_then_undo_redo :
  forall (updater : EditorState -> EditorState) (h : HistoryState),
    history_ok h ->
    exists base h',
      currentState h = Some base
      /\ commitChange updater false h = Some h'
      /\ currentState h' = Some (updater base)
      /\ canRedo h' = false
      /\ canUndo h' = true
      /\ stack (undoHistory h') = stack h'
      /\ currentState (undoHistory h') = Some base
      /\ redoHistory (undoHistory h') = h'.
Proof.
  intros updater h Hok.
  destruct (commitChange_spec updater false h Hok)
    as (base & h' & Hb & Hc & Hok' & Hcur & Hredo & Hundo & _).
  destruct (Hundo eq_refl) as [Hcan Hprev].
  exists base, h'.
  split; [exact Hb |]. split; [exact Hc |]. split; [exact Hcur |].
  split; [exact Hredo |]. split; [exact Hcan |]. split; [| split].
  - unfold undoHistory. now rewrite Hcan.
  - unfold undoHistory, currentState. now rewrite Hcan.
  - unfold undoHistory. rewrite Hcan. unfold redoHistory, canRedo.
    cbn [stack index]. destruct Hok' as [Hi' _].
    destruct (Z.ltb_spec (index h' - 1) (Z.of_nat (length (stack h')) - 1));
      [| lia].
    destruct h' as [s i]. cbn [stack index] in *. f_equal. lia.
Qed.

Lemma commit_then_undo_redo_witness :
  let full := mkHistoryState (repeat initialState 30) 29 in
  history_ok full
  /\ exists base h',
       currentState full = Some base
       /\ commitChange (addLayer_updater white_layer) false full = Some h'
       /\ currentState h' = Some (addLayer_updater white_layer base)
       /\ canRedo h' = false
       /\ canUndo h' = true
       /\ stack (undoHistory h') = stack h'
       /\ currentState (undoHistory h') = Some base
       /\ redoHistory (undoHistory h') = h'.
Proof.
  assert (H : history_ok (mkHistoryState (repeat initialState 30) 29))
    by (split; cbn [stack index]; rewrite repeat_length; unfold MAX_HISTORY; lia).
  split; [exact H |].
  exact (commit_then_undo_redo (addLayer_updater white_layer) _ H).
Defined.

(** X3.  An overwriting commit, the one of the destructive transforms
    (rotate, flip, straighten, crop), replaces the current state instead of
    adding one: the index and the undo button stay as they were, the stack
    does not grow, nothing is left to redo, and undo skips the replaced
    state: it leads where undo led before the commit. *)
Theorem overwrite_replaces_current_state :
  forall (updater : EditorState -> EditorState) (h : HistoryState),
    history_ok h ->
    exists base h',
      currentState h = Some base
      /\ commitChange updater true h = Some h'
      /\ currentState h' = Some (updater base)
      /\ index h' = index h
      /\ (length (stack h') <= length (stack h))%nat
      /\ canRedo h' = false
      /\ canUndo h' = canUndo h
      /\ (canUndo h = true ->
          currentState (undoHistory h') = currentState (undoHistory h)).
Proof.
  intros updater h Hok.
  destruct (commitChange_spec updater true h Hok)
    as (base & h' & Hb & Hc & Hok' & Hcur & Hredo & _ & Hov).
  destruct (Hov eq_refl) as (Hidx & Hprev & Hlen).
  exists base, h'.
  split; [exact Hb |]. split; [exact Hc |]. split; [exact Hcur |].
  split; [exact Hidx |]. split; [exact Hlen |]. split; [exact Hredo |].
  assert (Hcan : canUndo h' = canUndo h) by (unfold canUndo; now rewrite Hidx).
  split; [exact Hcan |].
  intros Hu. unfold undoHistory. rewrite Hcan, Hu. unfold currentState.
  cbn [stack index]. exact Hprev.
Qed.

Lemma overwrite_replaces_current_state_witness :
  let h := mkHistoryState [initialState; with_layers (fun _ => [white_layer]) initialState] 1 in
  history_ok h
  /\ exists base h',
      currentState h = Some base
      /\ commitChange (deleteLayer_updater "layer-1") true h = Some h'
      /\ currentState h' = Some (deleteLayer_updater "layer-1" base)
      /\ index h' = index h
      /\ (length (stack h') <= length (stack h))%nat
      /\ canRedo h' = false
      /\ canUndo h' = canUndo h
      /\ (canUndo h = true ->
          currentState (undoHistory h') = currentState (undoHistory h)).
Proof.
  assert (H : history_ok
                (mkHistoryState
                   [initialState;
                    with_layers (fun _ => [white_layer]) initialState] 1))
    by (split; cbn [stack index length]; unfold MAX_HISTORY; lia).
  split; [exact H |].
  exact (overwrite_replaces_current_state (deleteLayer_updater "layer-1") _ H).
Defined.

(** X4.  On a well-formed history undo and redo are inverse to each other
    wherever their buttons are enabled, and neither changes the stack. *)
Theorem undo_redo_inverse :
  forall h : HistoryState,
    history_ok h ->
    (canUndo h = true -> redoHistory (undoHistory h) = h)
    /\ (canRedo h = true -> undoHistory (redoHistory h) = h)
    /\ stack (undoHistory h) = stack h
    /\ stack (redoHistory h) = stack h.
Proof.
  intros [s i] [Hi Hl]. cbn [stack index] in *.
  unfold undoHistory, redoHistory, canUndo, canRedo. cbn [stack index].
  split; [| split; [| split]].
  - intros Hu. rewrite Hu. cbn [stack index].
    destruct (Z.ltb_spec (i - 1) (Z.of_nat (length s) - 1)); [| lia].
    f_equal. lia.
  - intros Hr. rewrite Hr. cbn [stack index]. apply Z.ltb_lt in Hr.
    destruct (Z.ltb_spec 0 (Z.min (Z.of_nat (length s) - 1) (i + 1))); [| lia].
    f_equal. lia.
  - destruct (0 <? i); reflexivity.
  - destruct (i <? Z.of_nat (length s) - 1); reflexivity.
Qed.

Lemma undo_redo_inverse_witness :
  let h := mkHistoryState [initialState; initialState; initialState] 1 in
  history_ok h
  /\ (canUndo h = true -> redoHistory (undoHistory h) = h)
  /\ (canRedo h = true -> undoHistory (redoHistory h) = h)
  /\ stack (undoHistory h) = stack h
  /\ stack (redoHistory h) = stack h.
Proof.
  assert (H : history_ok
                (mkHistoryState [initialState; initialState; initialState] 1))
    by (split; cbn [stack index length]; unfold MAX_HISTORY; lia).
  split; [exact H |]. exact (undo_redo_inverse _ H).
Defined.

(** ** Slider edits *)

Lemma getFilter_setFilter (k k' : FilterKey) (v : number) (f : BasicFilters) :
  getFilter k' (setFilter k v f) = if FilterKey_eqb k k' then v else getFilter k' f.
Proof. destruct k, k'; reflexivity. Qed.

(** X5.  A slider change is one undo step.  With no drag pending, the
    slider that commits on release ([handleFilterCommit]) and the slider
    that updates live and commits at the end of the drag
    ([handleFilterChange] then [handleCommitUpdate]) lead to the same
    state; in it the active adjustments hold the new value under the
    slider's key and the old values under every other key, and undo brings
    the old adjustments back. *)
Theorem slider_change_is_one_undo_step :
  forall (k : FilterKey) (v : number) (app : App),
    history_ok (history app) ->
    liveAdjustments app = None ->
    exists a app',
      activeAdjustments app = Some a
      /\ handleFilterCommit k v app = Some app'
      /\ match handleFilterChange k v app with
         | Some dragging => handleCommitUpdate dragging
         | None => None
         end = Some app'
      /\ activeAdjustments app' = Some (withFilter k v a)
      /\ getFilter k (filters (withFilter k v a)) = v
      /\ (forall k', k' <> k ->
            getFilter k' (filters (withFilter k v a)) = getFilter k' (filters a))
      /\ hsl (withFilter k v a) = hsl a
      /\ curves (withFilter k v a) = curves a
      /\ activeAdjustments (undo app') = Some a.
Proof.
  intros k v app Hok Hlive.
  destruct (commitChange_spec (with_adjustments (withFilter k v)) false
              (history app) Hok)
    as (base & h' & Hb & Hc & _ & Hcur & _ & Hundo & _).
  destruct (Hundo eq_refl) as [Hcan Hprev].
  exists (adjustments base), (mkApp h' None (activeLayerId app)).
  split; [| split; [| split; [| split; [| split; [| split; [| split; [| split]]]]]]].
  - unfold activeAdjustments. now rewrite Hlive, Hb.
  - unfold handleFilterCommit. now rewrite Hc.
  - unfold handleFilterChange, handleLiveUpdate, activeAdjustments.
    rewrite Hlive, Hb. cbn [option_map]. unfold handleCommitUpdate.
    cbn [liveAdjustments history activeLayerId].
    unfold commitChange in *. fold (currentState (history app)) in *.
    rewrite Hb in *. cbv zeta in *. injection Hc as <-. reflexivity.
  - unfold activeAdjustments. cbn [liveAdjustments history]. now rewrite Hcur.
  - cbn [withFilter filters]. rewrite getFilter_setFilter.
    now destruct k.
  - intros k' Hk. cbn [withFilter filters]. rewrite getFilter_setFilter.
    destruct k, k'; try reflexivity; congruence.
  - reflexivity.
  - reflexivity.
  - unfold undo. cbn [history]. rewrite Hcan.
    unfold activeAdjustments. cbn [liveAdjustments history].
    unfold undoHistory. rewrite Hcan. unfold currentState.
    cbn [stack index]. now rewrite Hprev.
Qed.

Lemma slider_change_is_one_undo_step_witness :
  history_ok (history initialApp)
  /\ liveAdjustments initialApp = None
  /\ exists a app',
      activeAdjustments initialApp = Some a
      /\ handleFilterCommit k_exposure 40 initialApp = Some app'
      /\ match handleFilterChange k_exposure 40 initialApp with
         | Some dragging => handleCommitUpdate dragging
         | None => None
         end = Some app'
      /\ activeAdjustments app' = Some (withFilter k_exposure 40 a)
      /\ getFilter k_exposure (filters (withFilter k_exposure 40 a)) = 40%float
      /\ (forall k', k' <> k_exposure ->
            getFilter k' (filters (withFilter k_exposure 40 a))
            = getFilter k' (filters a))
      /\ hsl (withFilter k_exposure 40 a) = hsl a
      /\ curves (withFilter k_exposure 40 a) = curves a
      /\ activeAdjustments (undo app') = Some a.
Proof.
  split; [apply fresh_history_ok |]. split; [reflexivity |].
  exact (slider_change_is_one_undo_step k_exposure 40%float initialApp
           (fresh_history_ok _) eq_refl).
Defined.

(** ** Layer edits and the rendering *)

Lemma filter_nil_existsb {X : Type} (f : X -> bool) (l : list X) :
  filter f l = [] <-> existsb f l = false.
Proof.
  induction l as [| x l IH]; simpl; [tauto |].
  destruct (f x); simpl; [split; discriminate | exact IH].
Qed.

(** The canvas after [drawCanvas] depends on the layers only through the
    presence of a visible mask. *)
Lemma drawCanvas_any_masks Math_cos Math_pow Math_random canvasFilter
    (st st' : EditorState) (a : Adjustments) :
  baseImageSrc st = baseImageSrc st' ->
  existsb visible (layers st) = existsb visible (layers st') ->
  drawCanvas Math_cos Math_pow Math_random canvasFilter st a
  = drawCanvas Math_cos Math_pow Math_random canvasFilter st' a.
Proof.
  intros Hb He. unfold drawCanvas. rewrite <- Hb.
  destruct (baseImageSrc st) as [baseImage |]; [| reflexivity].
  destruct (filter visible (layers st)) as [| l ls] eqn:E;
    destruct (filter visible (layers st')) as [| l' ls'] eqn:E'; auto.
  - apply filter_nil_existsb in E. rewrite He in E.
    apply filter_nil_existsb in E. congruence.
  - apply filter_nil_existsb in E'. rewrite <- He in E'.
    apply filter_nil_existsb in E'. congruence.
  - f_equal. f_equal. etransitivity.
    + apply (clip_to_opaque_mask (width baseImage) (height baseImage)).
      apply compositeMask_opaque.
    + symmetry.
      apply (clip_to_opaque_mask (width baseImage) (height baseImage)).
      apply compositeMask_opaque.
Qed.

Lemma existsb_map_layer (i : string) (f : Layer -> Layer) (ls : list Layer) :
  (forall l, visible (f l) = visible l) ->
  existsb visible (map_layer i f ls) = existsb visible ls.
Proof.
  intros Hf. unfold map_layer. induction ls as [| l ls IH]; simpl; auto.
  rewrite IH. destruct (String.eqb (id l) i); now rewrite ?Hf.
Qed.

Lemma filter_visible_map_layer (i : string) (f : Layer -> Layer)
    (ls : list Layer) :
  (forall l, visible (f l) = visible l) ->
  filter visible (map_layer i f ls) = map_layer i f (filter visible ls).
Proof.
  intros Hf. unfold map_layer. induction ls as [| l ls IH]; simpl; auto.
  destruct (String.eqb (id l) i) eqn:E.
  - rewrite Hf. destruct (visible l); simpl; now rewrite ?E, IH.
  - destruct (visible l); simpl; now rewrite ?E, IH.
Qed.

(** The composite mask reads the mask and the inversion flag of a layer,
    nothing else. *)
Lemma compositeMask_ext w h (f : Layer -> Layer) (ls : list Layer) :
  (forall l, maskSrc (f l) = maskSrc l) ->
  (forall l, isMaskInverted (f l) = isMaskInverted l) ->
  compositeMask w h (map f ls) = compositeMask w h ls.
Proof.
  intros Hm Hi. unfold compositeMask.
  generalize (fillRect source_over opaque_black (createCanvas w h)) as D.
  induction ls as [| l ls IH]; intros D; simpl; auto.
  rewrite IH. f_equal. unfold combine_mask, mask_canvas. now rewrite Hm, Hi.
Qed.

(** X6.  The masks never reach the picture.  The canvas that [drawCanvas]
    leaves depends on the layers only through the presence of a visible
    layer with a mask: the composite mask is drawn on an opaque black
    ground, so it is opaque whatever the masks are, and [destination-in]
    keeps the whole adjusted layer.  In particular the Invert Mask switch
    and a new brush stroke on a layer that has a mask leave the rendered
    canvas as it was. *)
Theorem masks_never_reach_the_picture :
  forall (Math_cos : number -> number) (Math_pow : number -> number -> number)
         (Math_random : Z -> number)
         (canvasFilter : number -> number -> number -> number ->
                         ImageData -> ImageData)
         (st : EditorState) (a : Adjustments),
    (forall st' : EditorState,
        baseImageSrc st' = baseImageSrc st ->
        existsb visible (layers st') = existsb visible (layers st) ->
        drawCanvas Math_cos Math_pow Math_random canvasFilter st' a
        = drawCanvas Math_cos Math_pow Math_random canvasFilter st a)
    /\ (forall (i : string) (checked : bool),
          drawCanvas Math_cos Math_pow Math_random canvasFilter
                     (invertMask_updater i checked st) a
          = drawCanvas Math_cos Math_pow Math_random canvasFilter st a)
    /\ (forall (i : string) (stroke : ImageData),
          (forall l, In l (layers st) -> id l = i -> has_mask l = true) ->
          drawCanvas Math_cos Math_pow Math_random canvasFilter
                     (setMask_updater i (Some stroke) st) a
          = drawCanvas Math_cos Math_pow Math_random canvasFilter st a).
Proof.
  intros Math_cos Math_pow Math_random canvasFilter st a.
  split; [| split].
  - intros st' Hb He. now apply drawCanvas_any_masks.
  - intros i checked. apply drawCanvas_any_masks; [reflexivity |].
    cbn [invertMask_updater with_layers layers]. now apply existsb_map_layer.
  - intros i stroke Hmask. apply drawCanvas_any_masks; [reflexivity |].
    cbn [setMask_updater with_layers layers]. unfold map_layer.
    induction (layers st) as [| l ls IH]; simpl; auto.
    rewrite IH by (intros; apply Hmask; simpl; auto). f_equal.
    destruct (String.eqb_spec (id l) i) as [E | _]; auto.
    unfold visible, has_mask. cbn [isVisible maskSrc].
    specialize (Hmask l (or_introl eq_refl) E). unfold has_mask in Hmask.
    now destruct (maskSrc l).
Qed.

(** X7.  Adding a layer and renaming a layer change neither the composite
    mask nor the rendered canvas: a new layer has no mask, and a name is
    never read by the compositor. *)
Theorem add_and_rename_keep_the_picture :
  forall (Math_cos : number -> number) (Math_pow : number -> number -> number)
         (Math_random : Z -> number)
         (canvasFilter : number -> number -> number -> number ->
                         ImageData -> ImageData)
         (st : EditorState) (a : Adjustments) (w h : Z)
         (name : option string) (now : N) (i newName : string),
    let added :=
      addLayer_updater (newLayer name now (length (layers st))) st in
    let renamed := updateLayerName_updater i newName st in
    compositeMask w h (filter visible (layers added))
    = compositeMask w h (filter visible (layers st))
    /\ drawCanvas Math_cos Math_pow Math_random canvasFilter added a
       = drawCanvas Math_cos Math_pow Math_random canvasFilter st a
    /\ compositeMask w h (filter visible (layers renamed))
       = compositeMask w h (filter visible (layers st))
    /\ drawCanvas Math_cos Math_pow Math_random canvasFilter renamed a
       = drawCanvas Math_cos Math_pow Math_random canvasFilter st a.
Proof.
  intros Math_cos Math_pow Math_random canvasFilter st a w h name now i
         newName added renamed.
  assert (Hadd : filter visible (layers added) = filter visible (layers st)).
  { unfold added. cbn [addLayer_updater with_layers layers].
    rewrite filter_app. cbn [filter newLayer visible isVisible has_mask maskSrc].
    simpl. apply app_nil_r. }
  split; [| split; [| split]].
  - now rewrite Hadd.
  - apply drawCanvas_any_masks; [reflexivity |].
    destruct (existsb visible (layers added)) eqn:E1;
      destruct (existsb visible (layers st)) eqn:E2; auto.
    + apply filter_nil_existsb in E2. rewrite <- Hadd in E2.
      apply filter_nil_existsb in E2. congruence.
    + apply filter_nil_existsb in E1. rewrite Hadd in E1.
      apply filter_nil_existsb in E1. congruence.
  - unfold renamed. cbn [updateLayerName_updater with_layers layers].
    rewrite filter_visible_map_layer by reflexivity.
    unfold map_layer. apply compositeMask_ext; intros l;
      now destruct (String.eqb (id l) i).
  - apply drawCanvas_any_masks; [reflexivity |].
    unfold renamed. cbn [updateLayerName_updater with_layers layers].
    now apply existsb_map_layer.
Qed.

(** X8.  Toggling the visibility of a layer twice gives the editor state
    back, whatever the layers are (also when several share the id). *)
Theorem toggle_visibility_twice :
  forall (i : string) (st : EditorState),
    toggleLayerVisibility_updater i (toggleLayerVisibility_updater i st) = st.
Proof.
  intros i [b ls a]. unfold toggleLayerVisibility_updater, with_layers.
  cbn [baseImageSrc layers adjustments]. f_equal.
  unfold map_layer. induction ls as [| l ls IH]; simpl; auto.
  rewrite IH. f_equal.
  destruct (String.eqb (id l) i) eqn:E; cbn [id]; rewrite ?E; auto.
  destruct l as [li ln lv lm lx]. cbn. now rewrite negb_involutive.
Qed.

(** X9.  For the compositor a layer whose mask is cleared is a deleted
    layer, and so is a visible layer that is hidden: the visible masks that
    [drawCanvas] composites are the same list in both cases. *)
Theorem cleared_or_hidden_layer_is_gone :
  forall (i : string) (st : EditorState),
    filter visible (layers (clearActiveMask_updater i st))
    = filter visible (layers (deleteLayer_updater i st))
    /\ ((forall l, In l (layers st) -> id l = i -> isVisible l = true) ->
        filter visible (layers (toggleLayerVisibility_updater i st))
        = filter visible (layers (deleteLayer_updater i st))).
Proof.
  intros i st. split.
  - cbn [clearActiveMask_updater setMask_updater deleteLayer_updater
         with_layers layers].
    unfold map_layer. induction (layers st) as [| l ls IH]; simpl; auto.
    destruct (String.eqb (id l) i); simpl.
    + unfold visible at 1, has_mask. cbn [maskSrc isVisible].
      rewrite andb_false_r. exact IH.
    + destruct (visible l); now rewrite IH.
  - intros Hvis.
    cbn [toggleLayerVisibility_updater deleteLayer_updater with_layers layers].
    unfold map_layer. induction (layers st) as [| l ls IH]; simpl; auto.
    rewrite IH by (intros; apply Hvis; simpl; auto).
    destruct (String.eqb_spec (id l) i) as [E | _]; simpl; auto.
    unfold visible at 1. cbn [isVisible].
    now rewrite (Hvis l (or_introl eq_refl) E).
Qed.

(** ** What the pixel operators leave alone *)

Lemma set_byte_nth (d : list Z) (i k : nat) (b : Z) :
  k <> i -> nth k (set_byte d i b) 0 = nth k d 0.
Proof.
  revert i k. induction d as [| v d IH]; intros [| i] [| k] H; simpl; auto;
    try congruence.
Qed.

Lemma writes_only_refl (S : Z -> Prop) (d : list Z) : writes_only S d d.
Proof. split; auto. Qed.

Lemma writes_only_wr (S : Z -> Prop) (d0 d : list Z) (j : Z) (v : number) :
  writes_only S d0 d -> S j -> writes_only S d0 (wr d j v).
Proof.
  intros [Hl Hk] Hj. split.
  - now rewrite wr_length.
  - intros k Hnot. rewrite <- Hk by exact Hnot. unfold wr.
    destruct (Z.ltb_spec j 0); auto.
    apply set_byte_nth. intros E. apply Hnot.
    replace (Z.of_nat k) with j by lia. exact Hj.
Qed.

Lemma writes_only_fold {X : Type} (S : Z -> Prop) (d0 : list Z)
    (body : list Z -> X -> list Z) (l : list X) :
  (forall d x, In x l -> writes_only S d0 d -> writes_only S d0 (body d x)) ->
  forall d, writes_only S d0 d -> writes_only S d0 (fold_left body l d).
Proof.
  induction l as [| x l IH]; intros Hbody d Hd; simpl; auto.
  apply IH; [intros; apply Hbody; simpl; auto |].
  apply Hbody; simpl; auto.
Qed.

Lemma writes_only_weaken (S S' : Z -> Prop) (d0 d : list Z) :
  (forall j, S j -> S' j) -> writes_only S d0 d -> writes_only S' d0 d.
Proof. intros H [Hl Hk]. split; auto. Qed.

Lemma pixel_offsets_In (len : nat) (i : Z) :
  In i (pixel_offsets len) -> 0 <= i /\ i mod 4 = 0.
Proof.
  unfold pixel_offsets. intros H. apply in_map_iff in H as (k & <- & _).
  split; [lia |]. rewrite Z.mul_comm. apply Z.mod_mul. lia.
Qed.

Lemma range_In (lo hi c : Z) : In c (range lo hi) -> lo <= c < hi.
Proof.
  unfold range. intros H. apply in_map_iff in H as (k & <- & Hk).
  apply in_seq in Hk. lia.
Qed.

Lemma colour_offsets_of_pixel (i : Z) :
  i mod 4 = 0 ->
  colour_offset i /\ colour_offset (i + 1) /\ colour_offset (i + 2).
Proof.
  intros H. unfold colour_offset. repeat split; Z.div_mod_to_equations; lia.
Qed.

(** A per-pixel loop whose body stores into the colour bytes of its pixel
    only. *)
Lemma forPixels_frame (body : list Z -> Z -> list Z) (d0 : list Z) :
  (forall d i, colour_offset i -> colour_offset (i + 1) ->
               colour_offset (i + 2) ->
               writes_only colour_offset d0 d ->
               writes_only colour_offset d0 (body d i)) ->
  writes_only colour_offset d0 (forPixels body d0).
Proof.
  intros Hbody. unfold forPixels. apply writes_only_fold.
  - intros d i Hi Hd. apply pixel_offsets_In in Hi as [_ Hi].
    destruct (colour_offsets_of_pixel i Hi) as (H0 & H1 & H2). auto.
  - apply writes_only_refl.
Qed.

(** Peels one binding, branch or store off a loop body. *)
Ltac frame_step :=
  match goal with
  | |- writes_only _ _ (wr _ _ _) => apply writes_only_wr; [| assumption]
  | |- writes_only _ _ (if ?c then _ else _) => destruct c
  | |- writes_only _ _ (let '(_, _) := ?e in _) => destruct e
  | |- writes_only _ _ (match ?e with _ => _ end) => destruct e
  | H : writes_only ?S ?d0 ?d |- writes_only ?S ?d0 ?d => exact H
  end.

Ltac frame_body := intros; cbv zeta; repeat frame_step.

Lemma same_frame_refl (img : ImageData) : same_frame img img.
Proof. repeat split; auto. Qed.

Lemma same_frame_forPixels (img : ImageData) (body : list Z -> Z -> list Z) :
  (forall d i, colour_offset i -> colour_offset (i + 1) ->
               colour_offset (i + 2) ->
               writes_only colour_offset (data img) d ->
               writes_only colour_offset (data img) (body d i)) ->
  same_frame img
    (mkImageData (width img) (height img) (forPixels body (data img))).
Proof.
  intros H. split; [reflexivity |]. split; [reflexivity |].
  cbn [data]. now apply forPixels_frame.
Qed.

Section OperatorFrames.

Variable Math_cos : number -> number.
Variable Math_pow : number -> number -> number.
Variable Math_random : Z -> number.

Lemma applyExposure_frame img amount :
  same_frame img (applyExposure Math_pow img amount).
Proof.
  unfold applyExposure. destruct (amount =? 0)%float;
    [apply same_frame_refl |].
  apply same_frame_forPixels. unfold applyExposure_pixel. frame_body.
Qed.

Lemma applyTemperature_frame img temperature :
  same_frame img (applyTemperature img temperature).
Proof.
  unfold applyTemperature. cbv zeta.
  destruct (_ =? 0)%float; [apply same_frame_refl |].
  apply same_frame_forPixels. unfold applyTemperature_pixel. frame_body.
Qed.

Lemma applyVibrance_frame img amount :
  same_frame img (applyVibrance img amount).
Proof.
  unfold applyVibrance. cbv zeta.
  destruct (_ =? 0)%float; [apply same_frame_refl |].
  apply same_frame_forPixels. unfold applyVibrance_pixel. frame_body.
Qed.

Lemma applyDehaze_frame img amount :
  same_frame img (applyDehaze img amount).
Proof.
  unfold applyDehaze. destruct (amount =? 0)%float; [apply same_frame_refl |].
  apply same_frame_forPixels. unfold applyDehaze_pixel. frame_body.
Qed.

Lemma applyHighlightsShadows_frame img highlights shadows :
  same_frame img
    (applyHighlightsShadows Math_cos Math_pow img highlights shadows).
Proof.
  unfold applyHighlightsShadows. cbv zeta.
  destruct (_ && _); [apply same_frame_refl |].
  apply same_frame_forPixels. unfold applyHighlightsShadows_pixel.
  frame_body.
Qed.

Lemma applyWhitesBlacks_frame img whites blacks :
  same_frame img (applyWhitesBlacks img whites blacks).
Proof.
  unfold applyWhitesBlacks. destruct (_ && _); [apply same_frame_refl |].
  apply same_frame_forPixels. unfold applyWhitesBlacks_pixel. frame_body.
Qed.

Lemma applyCurves_frame img curves :
  same_frame img (applyCurves Math_cos Math_pow img curves).
Proof.
  unfold applyCurves. apply same_frame_forPixels.
  unfold applyCurves_pixel. frame_body.
Qed.

Lemma applyHsl_frame img hslAdjustments :
  same_frame img (applyHsl Math_cos Math_pow img hslAdjustments).
Proof.
  unfold applyHsl. apply same_frame_forPixels.
  unfold applyHsl_pixel. frame_body.
Qed.

Lemma applyHaze_frame img amount spread :
  same_frame img (applyHaze img amount spread).
Proof.
  unfold applyHaze. destruct (amount =? 0)%float; [apply same_frame_refl |].
  destruct (haze_color spread) as [[hazeR hazeG] hazeB].
  cbv zeta. apply same_frame_forPixels. unfold haze_pixel. frame_body.
Qed.

Lemma applyGrain_frame img amount :
  same_frame img (applyGrain Math_random img amount).
Proof.
  unfold applyGrain. destruct (amount =? 0)%float; [apply same_frame_refl |].
  apply same_frame_forPixels. unfold applyGrain_pixel. frame_body.
Qed.

End OperatorFrames.

(** [applySharpen] stores into the colour bytes of the interior pixels
    only. *)
Lemma applySharpen_interior img amount :
  writes_only (interior_offset (width img) (height img)) (data img)
              (data (applySharpen img amount)).
Proof.
  unfold applySharpen. cbv zeta.
  destruct (_ =? 0)%float; [apply writes_only_refl |].
  cbn [data].
  apply writes_only_fold; [| apply writes_only_refl].
  intros d y Hy Hd. apply range_In in Hy.
  apply writes_only_fold; [| exact Hd].
  intros d' x Hx Hd'. apply range_In in Hx.
  apply writes_only_fold; [| exact Hd'].
  intros d'' c Hc Hd''. apply range_In in Hc.
  apply writes_only_wr; [exact Hd'' |].
  exists y, x, c. repeat split; lia.
Qed.

Lemma interior_is_colour (w h j : Z) : interior_offset w h j -> colour_offset j.
Proof.
  intros (y & x & c & _ & _ & Hc & ->). unfold colour_offset.
  Z.div_mod_to_equations. lia.
Qed.

Lemma applySharpen_frame img amount : same_frame img (applySharpen img amount).
Proof.
  split; [| split].
  - unfold applySharpen. cbv zeta. destruct (_ =? 0)%float; reflexivity.
  - unfold applySharpen. cbv zeta. destruct (_ =? 0)%float; reflexivity.
  - eapply writes_only_weaken; [| apply applySharpen_interior].
    intros j. apply interior_is_colour.
Qed.


(** X10.  No pixel operator touches an alpha byte or resizes the image:
    each of the eleven operators returns an image of the same width and
    height whose buffer has the same length and the same byte at every
    offset [4k + 3], whatever the parameters, the buffer (of any length and
    content) and the host's [Math.cos], [Math.pow] and [Math.random]. *)
Theorem pixel_operators_keep_alpha_and_size :
  forall (Math_cos : number -> number) (Math_pow : number -> number -> number)
         (Math_random : Z -> number) (img : ImageData)
         (amount a2 : number) (hslAdj : HSLFilters) (cs : CurvesState),
    same_frame img (applyExposure Math_pow img amount)
    /\ same_frame img (applyTemperature img amount)
    /\ same_frame img (applyVibrance img amount)
    /\ same_frame img (applyDehaze img amount)
    /\ same_frame img (applyHighlightsShadows Math_cos Math_pow img amount a2)
    /\ same_frame img (applyWhitesBlacks img amount a2)
    /\ same_frame img (applyCurves Math_cos Math_pow img cs)
    /\ same_frame img (applyHsl Math_cos Math_pow img hslAdj)
    /\ same_frame img (applyHaze img amount a2)
    /\ same_frame img (applySharpen img amount)
    /\ same_frame img (applyGrain Math_random img amount).
Proof.
  intros.
  split; [apply applyExposure_frame |].
  split; [apply applyTemperature_frame |].
  split; [apply applyVibrance_frame |].
  split; [apply applyDehaze_frame |].
  split; [apply applyHighlightsShadows_frame |].
  split; [apply applyWhitesBlacks_frame |].
  split; [apply applyCurves_frame |].
  split; [apply applyHsl_frame |].
  split; [apply applyHaze_frame |].
  split; [apply applySharpen_frame | apply applyGrain_frame].
Qed.

Lemma row_major_unique (w x y x' y' : Z) :
  0 <= x < w -> 0 <= x' < w -> y' * w + x' = y * w + x -> x' = x /\ y' = y.
Proof.
  intros Hx Hx' E.
  assert (Hy : y' = y).
  { destruct (Z.lt_trichotomy y' y) as [L | [L | L]]; auto; nia. }
  subst y'. split; lia.
Qed.

(** X11.  [applySharpen] never changes a pixel of the one-pixel border of
    the image (no byte of it, whatever the amount), and it returns an image
    narrower or lower than three pixels as it is. *)
Theorem sharpen_leaves_the_border :
  forall (img : ImageData) (amount : number),
    (forall x y c : Z,
        0 <= x < width img -> 0 <= y < height img -> 0 <= c < 4 ->
        x = 0 \/ x = width img - 1 \/ y = 0 \/ y = height img - 1 ->
        nth (Z.to_nat ((y * width img + x) * 4 + c))
            (data (applySharpen img amount)) 0
        = nth (Z.to_nat ((y * width img + x) * 4 + c)) (data img) 0)
    /\ (width img < 3 \/ height img < 3 -> applySharpen img amount = img).
Proof.
  intros img amount. split.
  - intros x y c Hx Hy Hc Hborder.
    apply (proj2 (applySharpen_interior img amount)).
    intros (y' & x' & c' & Hy' & Hx' & Hc' & E).
    rewrite Z2Nat.id in E by nia.
    assert (Et : y' * width img + x' = y * width img + x) by lia.
    apply row_major_unique in Et; lia.
  - intros Hsmall. unfold applySharpen. cbv zeta.
    destruct (_ =? 0)%float; [reflexivity |].
    destruct img as [w h d]. cbn [width height data] in *. f_equal.
    destruct Hsmall as [Hw | Hh].
    + replace (range 1 (w - 1)) with (@nil Z)
        by (unfold range; replace (Z.to_nat (w - 1 - 1)) with 0%nat by lia;
            reflexivity).
      cbn [fold_left]. induction (range 1 (h - 1)); simpl; auto.
    + replace (range 1 (h - 1)) with (@nil Z)
        by (unfold range; replace (Z.to_nat (h - 1 - 1)) with 0%nat by lia;
            reflexivity).
      reflexivity.
Qed.

(** ** The order of binary64 numbers *)

Lemma SFcompare_antisym (a b : spec_float) :
  SFcompare b a = option_map CompOpp (SFcompare a b).
Proof.
  destruct a as [sa | sa | | sa ma ea], b as [sb | sb | | sb mb eb]; simpl;
    try reflexivity; try (destruct sa; reflexivity);
    try (destruct sb; reflexivity);
    try (destruct sa, sb; reflexivity).
  destruct sa, sb; try reflexivity.
  - rewrite (Z.compare_antisym ea eb).
    destruct (ea ?= eb) eqn:E; simpl; try reflexivity.
    pose proof (Pos.compare_cont_antisym ma mb Eq) as H. simpl in H.
    rewrite <- H. now destruct (Pos.compare_cont Eq ma mb).
  - rewrite (Z.compare_antisym ea eb).
    destruct (ea ?= eb) eqn:E; simpl; try reflexivity.
    pose proof (Pos.compare_cont_antisym ma mb Eq) as H. simpl in H.
    rewrite <- H. now destruct (Pos.compare_cont Eq ma mb).
Qed.

Lemma is_nan_compare (a : number) :
  PrimFloat.is_nan a = false <-> Prim2SF a <> S754_nan.
Proof.
  unfold PrimFloat.is_nan. rewrite FloatAxioms.eqb_spec. unfold SFeqb.
  destruct (Prim2SF a) as [s | s | | s m e]; simpl.
  - split; [discriminate | reflexivity].
  - destruct s; simpl; split; try discriminate; reflexivity.
  - split; [discriminate | congruence].
  - split; [discriminate |]. intros _.
    destruct s; rewrite Z.compare_refl, Pos.compare_cont_refl; reflexivity.
Qed.

Lemma compare_defined (a b : number) :
  PrimFloat.is_nan a = false -> PrimFloat.is_nan b = false ->
  exists c, SFcompare (Prim2SF a) (Prim2SF b) = Some c.
Proof.
  intros Ha Hb. apply is_nan_compare in Ha, Hb.
  destruct (Prim2SF a) as [sa | sa | | sa ma ea],
           (Prim2SF b) as [sb | sb | | sb mb eb];
    simpl; try congruence; eauto.
Qed.

Lemma ltb_leb (a b : number) : (a <? b)%float = true -> (a <=? b)%float = true.
Proof.
  rewrite FloatAxioms.ltb_spec, FloatAxioms.leb_spec. unfold SFltb, SFleb.
  destruct (SFcompare _ _) as [[| |] |]; auto.
Qed.

Lemma not_ltb_leb (a b : number) :
  PrimFloat.is_nan a = false -> PrimFloat.is_nan b = false ->
  (a <? b)%float = false -> (b <=? a)%float = true.
Proof.
  intros Ha Hb. destruct (compare_defined a b Ha Hb) as [c Hc].
  rewrite FloatAxioms.ltb_spec, FloatAxioms.leb_spec. unfold SFltb, SFleb.
  rewrite (SFcompare_antisym (Prim2SF a) (Prim2SF b)), Hc.
  destruct c; simpl; auto.
Qed.

Lemma leb_refl (a : number) :
  PrimFloat.is_nan a = false -> (a <=? a)%float = true.
Proof.
  intros Ha. unfold PrimFloat.is_nan in Ha. apply negb_false_iff in Ha.
  rewrite FloatAxioms.eqb_spec in Ha. rewrite FloatAxioms.leb_spec.
  unfold SFeqb in Ha. unfold SFleb.
  destruct (SFcompare _ _) as [[| |] |]; auto.
Qed.

Lemma Math_min_spec (a b : number) :
  PrimFloat.is_nan a = false -> PrimFloat.is_nan b = false ->
  (Math_min a b = a \/ Math_min a b = b)
  /\ (Math_min a b <=? a)%float = true /\ (Math_min a b <=? b)%float = true.
Proof.
  intros Ha Hb. unfold Math_min.
  cbn [num_is_nan num_ltb num_sign_bit float_arith]. rewrite Ha, Hb.
  cbn [orb].
  destruct (a <? b)%float eqn:Hab.
  - auto using leb_refl, ltb_leb.
  - destruct (b <? a)%float eqn:Hba.
    + auto using leb_refl, ltb_leb.
    + destruct (sign_bit a); auto using leb_refl, not_ltb_leb.
Qed.

Lemma Math_max_spec (a b : number) :
  PrimFloat.is_nan a = false -> PrimFloat.is_nan b = false ->
  (Math_max a b = a \/ Math_max a b = b)
  /\ (a <=? Math_max a b)%float = true /\ (b <=? Math_max a b)%float = true.
Proof.
  intros Ha Hb. unfold Math_max.
  cbn [num_is_nan num_ltb num_sign_bit float_arith]. rewrite Ha, Hb.
  cbn [orb].
  destruct (a <? b)%float eqn:Hab.
  - auto using leb_refl, ltb_leb.
  - destruct (b <? a)%float eqn:Hba.
    + auto using leb_refl, ltb_leb.
    + destruct (sign_bit a); auto using leb_refl, not_ltb_leb.
Qed.

Lemma is_nan_nan : PrimFloat.is_nan nan = true.
Proof. reflexivity. Qed.

(** [Math.max(lo, Math.min(hi, v))] is NaN or lies between the bounds. *)
Lemma clamp_within (lo hi v : number) :
  PrimFloat.is_nan lo = false -> PrimFloat.is_nan hi = false ->
  (lo <=? hi)%float = true ->
  nan_or_within lo hi (Math_max lo (Math_min hi v)).
Proof.
  intros Hlo Hhi Hle. unfold nan_or_within.
  destruct (PrimFloat.is_nan v) eqn:Hv.
  - left. unfold Math_max, Math_min.
    cbn [num_is_nan num_nan float_arith]. rewrite Hv, Hlo, Hhi. reflexivity.
  - right.
    destruct (Math_min_spec hi v Hhi Hv) as (Hsel & Hmh & _).
    assert (Hm : PrimFloat.is_nan (Math_min hi v) = false)
      by (destruct Hsel as [-> | ->]; auto).
    destruct (Math_max_spec lo (Math_min hi v) Hlo Hm) as (Hsel' & Hl & _).
    split; [exact Hl |].
    destruct Hsel' as [-> | ->]; auto.
Qed.

Lemma clamp255_within (v : number) : nan_or_within 0 255 (clamp255 v).
Proof. apply (clamp_within 0 255 v); reflexivity. Qed.

(** ** Gray pixels through the colour space converter *)

(** X12.  A gray pixel survives the round trip through HSL: for every
    level [v] of 0..255, [rgbToHsl(v, v, v)] has hue 0 and saturation 0,
    and [hslToRgb] of the result, stored back into the pixel buffer, gives
    [v] on the three channels. *)
Theorem gray_survives_hsl_round_trip :
  forall v : Z, 0 <= v <= 255 ->
    let '(h, s, l) := rgbToHsl (ofZ v) (ofZ v) (ofZ v) in
    let '(r, g, b) := hslToRgb h s l in
    (h =? 0)%float = true /\ (s =? 0)%float = true
    /\ toUint8Clamp r = v /\ toUint8Clamp g = v /\ toUint8Clamp b = v.
Proof.
  intros v Hv.
  assert (All : forallb gray_round_trip (range 0 256) = true)
    by (vm_compute; reflexivity).
  rewrite forallb_forall in All.
  assert (Hin : In v (range 0 256)).
  { unfold range. apply in_map_iff. exists (Z.to_nat v). split; [lia |].
    apply in_seq. lia. }
  specialize (All v Hin). unfold gray_round_trip in All.
  destruct (rgbToHsl (ofZ v) (ofZ v) (ofZ v)) as [[h s] l].
  destruct (hslToRgb h s l) as [[r g] b].
  repeat (apply andb_true_iff in All; destruct All as [All ?]).
  repeat split; auto; now apply Z.eqb_eq.
Qed.

Lemma gray_survives_hsl_round_trip_witness :
  0 <= 128 <= 255
  /\ rgbToHsl 128 128 128 = (0, 0, 0.50196078431372548)%float
  /\ toUint8Clamp (fst (fst (hslToRgb 0 0 0.50196078431372548))) = 128.
Proof.
  split; [lia |].
  pose proof (gray_survives_hsl_round_trip 128 ltac:(lia)) as H.
  change (rgbToHsl (ofZ 128) (ofZ 128) (ofZ 128))
    with (0%float, 0%float, 0.50196078431372548%float) in H.
  split; [reflexivity |]. exact (proj1 (proj2 (proj2 H))).
Defined.

(** ** The size and the range of a tone curve table *)

Section TableSize.

Context {num : Type} {A : Arith num}.

Lemma set_length_any (a : list num) (i : nat) (v : num) :
  length (set a i v) = length a.
Proof.
  revert i. induction a as [| h t IH]; intros [| i]; simpl; auto.
Qed.

Lemma lut_loop_length_any (x y m dx : list num) (n : nat) (ixs : list nat)
    (p : nat) :
  length (lut_loop x y m dx n ixs p) = length ixs.
Proof.
  revert p. induction ixs as [| i ixs IH]; intros p; simpl; auto.
Qed.

(** X13.  [createLutFromPoints] returns a table of exactly 256 entries for
    every list of control points: empty, a single point, points that share
    an abscissa, points out of order, coordinates outside 0..255 or NaN, in
    binary64 as well as in exact arithmetic. *)
Theorem createLutFromPoints_has_256_entries :
  forall points : Curve num, length (createLutFromPoints points) = 256%nat.
Proof.
  intros points. unfold createLutFromPoints.
  destruct (uniquePoints points) as [| p [| q rest]].
  - now rewrite length_map, length_seq.
  - apply repeat_length.
  - cbv zeta. now rewrite set_length_any, lut_loop_length_any, length_seq.
Qed.

End TableSize.

Lemma get_nth_error (l : list number) (i : nat) (v : number) :
  nth_error l i = Some v -> get l i = v.
Proof. intros H. unfold get. now apply nth_error_nth. Qed.

Lemma lut_loop_within (x y m dx : list number) (n : nat) (ixs : list nat)
    (p : nat) :
  Forall (nan_or_within 0 255) (lut_loop x y m dx n ixs p).
Proof.
  revert p. induction ixs as [| i ixs IH]; intros p; simpl; constructor; auto.
  apply clamp255_within.
Qed.

Lemma set_Forall_before (P : number -> Prop) (l : list number) (k i : nat)
    (v : number) :
  Forall P l -> (i < k)%nat -> (i < length l)%nat -> P (get (set l k v) i).
Proof.
  intros Hl. revert k i.
  induction Hl as [| a l Ha Hl IH]; intros [| k] [| i] Hik Hi; simpl in *;
    try lia; auto.
  apply IH; lia.
Qed.



(** ** The counters of the histogram *)

Lemma incr_length (hist : list Z) (k : nat) :
  length (Histogram.incr hist k) = length hist.
Proof.
  revert k. induction hist as [| c t IH]; intros [| k]; simpl; auto.
Qed.

Lemma incr_at_length (hist : list Z) (k : option Z) :
  length (Histogram.incr_at hist k) = length hist.
Proof.
  unfold Histogram.incr_at. destruct k as [z |]; auto.
  destruct (z <? 0); auto using incr_length.
Qed.

Lemma incr_total (hist : list Z) (k : nat) :
  (k < length hist)%nat -> total (Histogram.incr hist k) = total hist + 1.
Proof.
  revert k. induction hist as [| c t IH]; intros [| k] Hk; simpl in *;
    try lia.
  rewrite IH by lia. lia.
Qed.

Lemma incr_at_total (hist : list Z) (v : Z) :
  0 <= v < Z.of_nat (length hist) ->
  total (Histogram.incr_at hist (Some v)) = total hist + 1.
Proof.
  intros Hv. unfold Histogram.incr_at.
  destruct (Z.ltb_spec v 0); [lia |]. apply incr_total. lia.
Qed.

Lemma incr_at_total_le (hist : list Z) (k : option Z) :
  total hist <= total (Histogram.incr_at hist k) <= total hist + 1.
Proof.
  unfold Histogram.incr_at. destruct k as [z |]; [| lia].
  destruct (z <? 0); [lia |].
  generalize (Z.to_nat z) as n. clear z.
  induction hist as [| c t IH]; intros [| n]; simpl; try lia.
  specialize (IH n). lia.
Qed.

Lemma incr_nonneg (hist : list Z) (k : option Z) :
  Forall (fun c => 0 <= c) hist ->
  Forall (fun c => 0 <= c) (Histogram.incr_at hist k).
Proof.
  intros H. unfold Histogram.incr_at. destruct k as [z |]; auto.
  destruct (z <? 0); auto.
  generalize (Z.to_nat z) as n. clear z.
  induction H as [| c t Hc Ht IH]; intros [| n]; simpl; constructor; auto;
    lia.
Qed.

Lemma byte_at_pixel (d : list Z) (n k : nat) :
  length d = (4 * n)%nat -> (k < n)%nat -> buffer_ok d ->
  exists r g b,
    Histogram.byte_at d (4 * Z.of_nat k) = Some r
    /\ Histogram.byte_at d (4 * Z.of_nat k + 1) = Some g
    /\ Histogram.byte_at d (4 * Z.of_nat k + 2) = Some b
    /\ in_range r /\ in_range g /\ in_range b.
Proof.
  intros Hlen Hk Hok.
  assert (Hbyte : forall j : Z, 0 <= j < 4 ->
            exists v, Histogram.byte_at d (4 * Z.of_nat k + j) = Some v
                      /\ in_range v).
  { intros j Hj. unfold Histogram.byte_at.
    destruct (Z.ltb_spec (4 * Z.of_nat k + j) 0); [lia |].
    destruct (nth_error d (Z.to_nat (4 * Z.of_nat k + j))) as [v |] eqn:E.
    - exists v. split; auto. apply nth_error_In in E.
      unfold buffer_ok in Hok. rewrite Forall_forall in Hok. auto.
    - apply nth_error_None in E. lia. }
  destruct (Hbyte 0 ltac:(lia)) as (r & Hr & Hr').
  destruct (Hbyte 1 ltac:(lia)) as (g & Hg & Hg').
  destruct (Hbyte 2 ltac:(lia)) as (b & Hb & Hb').
  rewrite Z.add_0_r in Hr. exists r, g, b. auto 10.
Qed.

(** The state of the counting loop after [m] pixels. *)
Lemma counts_after (d : list Z) (n m : nat) :
  length d = (4 * n)%nat -> buffer_ok d -> (m <= n)%nat ->
  let '(rgb, r, g, b) :=
    fold_left (Histogram.count_pixel d)
              (map (fun k => 4 * Z.of_nat k) (seq 0 m))
              (repeat 0 256, repeat 0 256, repeat 0 256, repeat 0 256) in
  (length rgb = 256 /\ length r = 256 /\ length g = 256 /\ length b = 256)%nat
  /\ total r = Z.of_nat m /\ total g = Z.of_nat m /\ total b = Z.of_nat m
  /\ 0 <= total rgb <= Z.of_nat m
  /\ Forall (fun c => 0 <= c) rgb /\ Forall (fun c => 0 <= c) r
  /\ Forall (fun c => 0 <= c) g /\ Forall (fun c => 0 <= c) b.
Proof.
  intros Hlen Hok Hm. induction m as [| m IH].
  - cbn [seq map fold_left]. cbv beta iota.
    assert (Z0 : total (repeat 0 256) = 0) by reflexivity.
    assert (P0 : Forall (fun c => 0 <= c) (repeat 0 256))
      by (apply Forall_forall; intros c Hc; apply repeat_spec in Hc; lia).
    rewrite !repeat_length, !Z0. repeat split; auto; lia.
  - rewrite seq_S, map_app, fold_left_app. cbn [map fold_left Nat.add].
    specialize (IH ltac:(lia)).
    destruct (fold_left _ _ _) as [[[rgb r] g] b].
    destruct IH as ((L0 & L1 & L2 & L3) & T1 & T2 & T3 & T0 & P0 & P1 & P2 & P3).
    destruct (byte_at_pixel d n m Hlen ltac:(lia) Hok)
      as (vr & vg & vb & Er & Eg & Eb & Hr & Hg & Hb).
    unfold Histogram.count_pixel. rewrite Er, Eg, Eb.
    unfold in_range in *.
    rewrite !incr_at_length, !incr_at_total by lia.
    pose proof (incr_at_total_le rgb (Histogram.luma_index vr vg vb)).
    repeat split; auto using incr_nonneg; lia.
Qed.

Lemma normalize_length (hist : list Z) :
  length (Histogram.normalize hist) = length hist.
Proof.
  unfold Histogram.normalize. destruct (_ =? 0); now rewrite length_map.
Qed.

Lemma count_pixel_lengths (d : list Z) (l : list Z)
    (st : list Z * list Z * list Z * list Z) :
  let '(rgb, r, g, b) := st in
  let '(rgb', r', g', b') := fold_left (Histogram.count_pixel d) l st in
  (length rgb' = length rgb /\ length r' = length r
   /\ length g' = length g /\ length b' = length b)%nat.
Proof.
  revert st. induction l as [| i l IH]; intros [[[rgb r] g] b]; simpl; auto.
  specialize (IH (Histogram.count_pixel d (rgb, r, g, b) i)).
  unfold Histogram.count_pixel in *.
  destruct (Histogram.byte_at d i), (Histogram.byte_at d (i + 1)),
    (Histogram.byte_at d (i + 2)); auto;
    destruct (fold_left _ _ _) as [[[rgb' r'] g'] b'];
    rewrite !incr_at_length in IH; exact IH.
Qed.

(** X15.  [calculateHistogram] returns four arrays of 256 entries for every
    image.  On an [ImageData] buffer (four bytes per pixel, each in
    0..255) every pixel is counted exactly once in each of the red, green
    and blue histograms and at most once in the luminance histogram: before
    normalisation the counters of a channel are non-negative and sum to the
    number of pixels. *)
Theorem histogram_counts_every_pixel_once :
  forall (imageData : ImageData),
    (let h := Histogram.calculateHistogram imageData in
     length (Histogram.rgb h) = 256 /\ length (Histogram.red h) = 256
     /\ length (Histogram.green h) = 256
     /\ length (Histogram.blue h) = 256)%nat
    /\ forall n : nat,
        length (data imageData) = (4 * n)%nat -> buffer_ok (data imageData) ->
        let '(rgb, r, g, b) := Histogram.counts imageData in
        total r = Z.of_nat n /\ total g = Z.of_nat n /\ total b = Z.of_nat n
        /\ 0 <= total rgb <= Z.of_nat n
        /\ Forall (fun c => 0 <= c) rgb /\ Forall (fun c => 0 <= c) r
        /\ Forall (fun c => 0 <= c) g /\ Forall (fun c => 0 <= c) b.
Proof.
  intros imageData. split.
  - cbv zeta. unfold Histogram.calculateHistogram, Histogram.counts.
    pose proof (count_pixel_lengths (data imageData)
                  (pixel_offsets (length (data imageData)))
                  (repeat 0 256, repeat 0 256, repeat 0 256, repeat 0 256))
      as H.
    cbv beta iota in H.
    destruct (fold_left _ _ _) as [[[rgb r] g] b].
    cbn [Histogram.rgb Histogram.red Histogram.green Histogram.blue].
    rewrite !normalize_length. rewrite !repeat_length in H. exact H.
  - intros n Hlen Hok. unfold Histogram.counts.
    rewrite Hlen, pixel_offsets_uniform.
    pose proof (counts_after (data imageData) n n Hlen Hok (le_n n)) as H.
    destruct (fold_left _ _ _) as [[[rgb r] g] b]. tauto.
Qed.

(** ** The view transform *)

(** The literals of the view code, as binary64 numbers. *)
Lemma view_literals_binary64 :
  lit_0_1 = 0.1%float /\ lit_0_001 = 0.001%float
  /\ lit_1_2 = 1.2%float /\ lit_0_95 = 0.95%float.
Proof. repeat split; reflexivity. Qed.

(** X16.  In binary64 the zoom after a wheel event is NaN or lies in
    [0.1, 5], whatever the event and the transform before; the zoom slider
    and the zoom buttons either leave the transform as it is or set a zoom
    that is NaN or lies in [0.1, 5]. *)
Theorem zoom_is_clamped :
  forall (rect_left rect_top clientX clientY deltaY : number)
         (clientWidth clientHeight newZoomValue : number) (zoomIn : bool)
         (transform : Transform number),
    nan_or_within 0.1 5
      (zoom (handleZoom rect_left rect_top clientX clientY deltaY transform))
    /\ (handleSliderZoom clientWidth clientHeight newZoomValue transform
        = transform
        \/ nan_or_within 0.1 5
             (zoom (handleSliderZoom clientWidth clientHeight newZoomValue
                      transform)))
    /\ (zoomWithButtons clientWidth clientHeight zoomIn transform = transform
        \/ nan_or_within 0.1 5
             (zoom (zoomWithButtons clientWidth clientHeight zoomIn
                      transform))).
Proof.
  intros.
  assert (Hslider : forall v,
            handleSliderZoom clientWidth clientHeight v transform = transform
            \/ nan_or_within 0.1 5
                 (zoom (handleSliderZoom clientWidth clientHeight v transform))).
  { intros v. unfold handleSliderZoom. cbv zeta.
    destruct (_ <? _)%num; [left; reflexivity | right].
    cbn [zoom]. apply (clamp_within 0.1 5); reflexivity. }
  split; [| split].
  - unfold handleZoom. cbn [zoom]. apply (clamp_within 0.1 5); reflexivity.
  - apply Hslider.
  - unfold zoomWithButtons. apply Hslider.
Qed.

Section ExactView.

Local Open Scope R_scope.

Lemma Math_max_exact (a b : R) : Math_max a b = Rmax a b.
Proof.
  unfold Math_max. cbn [num_is_nan num_ltb num_sign_bit real_arith orb].
  unfold Rltb, Rmax.
  destruct (Rlt_dec a b), (Rlt_dec b a), (Rle_dec a b); lra.
Qed.

Lemma Math_min_exact (a b : R) : Math_min a b = Rmin a b.
Proof.
  unfold Math_min. cbn [num_is_nan num_ltb num_sign_bit real_arith orb].
  unfold Rltb, Rmin.
  destruct (Rlt_dec a b), (Rlt_dec b a), (Rle_dec a b); lra.
Qed.

Lemma INR_lit (n : nat) : INR n = IZR (Z.of_nat n).
Proof. apply INR_IZR_INZ. Qed.

Lemma lit_0_1_exact : lit_0_1 = 1 / 10.
Proof.
  unfold lit_0_1. cbn [num_div num_of_nat real_arith]. rewrite !INR_lit.
  reflexivity.
Qed.

Lemma lit_0_001_exact : lit_0_001 = 1 / 1000.
Proof.
  unfold lit_0_001. cbn [num_div num_of_nat real_arith]. rewrite !INR_lit.
  reflexivity.
Qed.

Lemma lit_1_2_exact : lit_1_2 = 12 / 10.
Proof.
  unfold lit_1_2. cbn [num_div num_of_nat real_arith]. rewrite !INR_lit.
  reflexivity.
Qed.

Lemma lit_0_95_exact : lit_0_95 = 95 / 100.
Proof.
  unfold lit_0_95. cbn [num_div num_of_nat real_arith]. rewrite !INR_lit.
  reflexivity.
Qed.

Lemma clamp_zoom_exact (v : R) :
  1 / 10 <= Rmax (1 / 10) (Rmin 5 v) <= 5
  /\ (1 / 10 <= v <= 5 -> Rmax (1 / 10) (Rmin 5 v) = v).
Proof.
  unfold Rmax, Rmin.
  destruct (Rle_dec 5 v); destruct (Rle_dec (1 / 10) _); split; lra.
Qed.

Lemma num_abs_exact (v : R) : num_abs v = Rabs v.
Proof.
  unfold num_abs. cbn [num_sign_bit num_ltb num_sub num_of_nat real_arith orb].
  unfold Rltb, Rabs. change (INR 0) with 0.
  destruct (Rlt_dec v 0), (Rcase_abs v); lra.
Qed.



Lemma handleSliderZoom_exact (cw ch v : R) (t : Transform R) :
  1 / 10 <= v <= 5 -> 1 / 1000 <= Rabs (zoom t - v) ->
  handleSliderZoom cw ch v t
  = mkTransform v (cw / 2 - (cw / 2 - pan_x t) * (v / zoom t))
                  (ch / 2 - (ch / 2 - pan_y t) * (v / zoom t)).
Proof.
  intros Hv Habs. unfold handleSliderZoom. cbv zeta.
  rewrite Math_max_exact, Math_min_exact, lit_0_1_exact, lit_0_001_exact,
    num_abs_exact.
  cbn [num_of_nat num_sub num_div num_mul num_ltb real_arith].
  rewrite !INR_lit. change (IZR (Z.of_nat 5)) with 5.
  change (IZR (Z.of_nat 2)) with 2.
  rewrite (proj2 (clamp_zoom_exact v) Hv).
  unfold Rltb. destruct (Rlt_dec (Rabs (zoom t - v)) (1 / 1000)); [lra |].
  reflexivity.
Qed.





End ExactView.

(** ** The curves editor *)

Section EditorLists.

Context {num : Type} {A : Arith num}.

Lemma insert_sorted_perm (p : Point num) (l : list (Point num)) :
  Permutation (insert_sorted p l) (p :: l).
Proof.
  induction l as [| q l IH]; simpl; auto.
  destruct (_ <=? _)%num; auto.
  rewrite IH. apply perm_swap.
Qed.

Lemma sort_by_x_perm (l : list (Point num)) : Permutation (sort_by_x l) l.
Proof.
  unfold sort_by_x. induction l as [| p l IH]; simpl; auto.
  rewrite insert_sorted_perm. now constructor.
Qed.

Lemma assign_perm (l : list (Point num)) (i : nat) (p : Point num) :
  (i < length l)%nat ->
  exists l', assign l i p = Some l' /\ Permutation l' (p :: remove_at l i).
Proof.
  revert i. induction l as [| h t IH]; intros [| i] Hi; simpl in *; try lia.
  - eauto.
  - destruct (IH i ltac:(lia)) as (l' & -> & Hp). simpl.
    eexists. split; [reflexivity |].
    rewrite Hp. apply perm_swap.
Qed.

Lemma remove_at_length (l : list (Point num)) (i : nat) :
  (i < length l)%nat -> S (length (remove_at l i)) = length l.
Proof.
  revert i. induction l as [| h t IH]; intros [| i] Hi; simpl in *; try lia.
  rewrite IH; lia.
Qed.

Lemma remove_at_nth (l : list (Point num)) (i k : nat) (d : Point num) :
  nth k (remove_at l i) d = if (k <? i)%nat then nth k l d else nth (S k) l d.
Proof.
  revert i k. induction l as [| h t IH]; intros i k.
  - simpl. destruct (k <? i)%nat; now destruct k.
  - destruct i as [| i], k as [| k]; simpl; auto.
    rewrite IH. reflexivity.
Qed.

Lemma remove_at_In (l : list (Point num)) (i j : nat) (d : Point num) :
  (j < length l)%nat -> j <> i -> In (nth j l d) (remove_at l i).
Proof.
  revert i j. induction l as [| h t IH]; intros [| i] [| j] Hj Hne;
    simpl in *; try lia; auto.
  - apply nth_In. lia.
  - right. apply IH; lia.
Qed.

Lemma findIndex_found (f : Point num -> bool) (l : list (Point num))
    (p : Point num) :
  In p l -> f p = true ->
  exists k q, findIndex f l = Some k /\ nth_error l k = Some q /\ f q = true.
Proof.
  induction l as [| h t IH]; intros Hin Hf; simpl in *; [tauto |].
  destruct (f h) eqn:E.
  - exists O, h. auto.
  - destruct Hin as [-> | Hin]; [congruence |].
    destruct (IH Hin Hf) as (k & q & -> & Hq & Hfq). exists (S k), q. auto.
Qed.

End EditorLists.

Section ExactEditor.

Local Open Scope R_scope.

Lemma size_exact : size = 255.
Proof. unfold size. cbn [num_of_nat real_arith]. apply INR_255. Qed.

Lemma clamp_exact (v : R) : 0 <= Math_max 0 (Math_min 255 v) <= 255.
Proof.
  rewrite Math_max_exact, Math_min_exact. unfold Rmax, Rmin.
  destruct (Rle_dec 255 v); destruct (Rle_dec 0 _); lra.
Qed.

(** In a sorted list that lies between [lo] and [hi] and holds both, the
    first entry is [lo] and the last is [hi]. *)
Lemma sorted_ends (l : list R) (lo hi : R) :
  chain l -> Forall (fun v => lo <= v <= hi) l -> In lo l -> In hi l ->
  get l 0 = lo /\ get l (length l - 1) = hi.
Proof.
  intros Hc Hall Hlo Hhi.
  assert (Hlen : (0 < length l)%nat) by (destruct l; simpl in *; [tauto | lia]).
  rewrite Forall_forall in Hall.
  apply (In_nth _ _ 0) in Hlo as (j & Hj & Ej).
  apply (In_nth _ _ 0) in Hhi as (k & Hk & Ek).
  pose proof (chain_le l 0 j Hc ltac:(lia) Hj) as H0.
  pose proof (chain_le l k (length l - 1) Hc ltac:(lia) ltac:(lia)) as H1.
  unfold get in *. cbn [num_nan real_arith] in *.
  rewrite Ej in H0. rewrite Ek in H1.
  pose proof (Hall (nth 0 l 0) (nth_In _ _ Hlen)).
  assert (Hlast : (length l - 1 < length l)%nat) by lia.
  pose proof (Hall (nth (length l - 1) l 0) (nth_In _ _ Hlast)).
  split; lra.
Qed.

Lemma editor_curve_range (c : Curve R) :
  editor_curve c -> Forall (fun v => 0 <= v <= 255) (map px c).
Proof.
  intros (Hn & Hc & H0 & H1). apply Forall_forall. intros v Hv.
  apply (In_nth _ _ 0) in Hv as (k & Hk & <-).
  rewrite length_map in Hk.
  pose proof (chain_le (map px c) 0 k Hc ltac:(lia)
                ltac:(rewrite length_map; lia)) as Ha.
  pose proof (chain_le (map px c) k (length c - 1) Hc ltac:(lia)
                ltac:(rewrite length_map; lia)) as Hb.
  unfold get in *. cbn [num_nan real_arith] in *. lra.
Qed.

(** A curve sorted again after an edit that kept its abscissae in
    [0, 255] and both ends among them. *)
Lemma sorted_editor_curve (l : list (Point R)) :
  (2 <= length l)%nat ->
  Forall (fun v => 0 <= v <= 255) (map px l) ->
  In 0 (map px l) -> In 255 (map px l) ->
  editor_curve (sort_by_x l).
Proof.
  intros Hn Hall H0 H1.
  pose proof (sort_by_x_perm l) as Hp.
  pose proof (Permutation_map px Hp) as Hpx.
  assert (Hlen : length (sort_by_x l) = length l)
    by now apply Permutation_length.
  destruct (sorted_ends (map px (sort_by_x l)) 0 255) as [E0 E1].
  - apply sort_by_x_chain.
  - eapply Permutation_Forall; [symmetry; exact Hpx | exact Hall].
  - eapply Permutation_in; [symmetry; exact Hpx | exact H0].
  - eapply Permutation_in; [symmetry; exact Hpx | exact H1].
  - rewrite length_map in E1.
    split; [lia |]. split; [apply sort_by_x_chain |]. auto.
Qed.

Lemma editor_curve_ends_In (c : Curve R) (i : nat) :
  editor_curve c ->
  (i <> 0%nat -> In 0 (map px (remove_at c i)))
  /\ (i <> (length c - 1)%nat -> In 255 (map px (remove_at c i))).
Proof.
  intros (Hn & Hc & H0 & H1).
  rewrite !(get_map px c (mkPoint 0 0)) in H0, H1 by lia.
  split; intros Hi.
  - rewrite <- H0. apply in_map. apply remove_at_In; lia.
  - rewrite <- H1. apply in_map. apply remove_at_In; lia.
Qed.



Lemma chain_remove_at (c : Curve R) (i : nat) :
  chain (map px c) -> chain (map px (remove_at c i)).
Proof.
  intros Hc k Hk. rewrite length_map in Hk.
  destruct (Nat.lt_ge_cases i (length c)) as [Hi | Hi].
  - pose proof (remove_at_length c i Hi) as Hl.
    change (get (map px (remove_at c i)) k
            <= get (map px (remove_at c i)) (k + 1)).
    rewrite !(get_map px (remove_at c i) (mkPoint 0 0)) by lia.
    rewrite !remove_at_nth.
    assert (Hget : forall a b, (a <= b)%nat -> (b < length c)%nat ->
              px (nth a c (mkPoint 0 0)) <= px (nth b c (mkPoint 0 0))).
    { intros a b Hab Hb.
      pose proof (chain_le (map px c) a b Hc Hab
                    ltac:(rewrite length_map; lia)) as H.
      now rewrite !(get_map px c (mkPoint 0 0)) in H by lia. }
    destruct (Nat.ltb_spec k i), (Nat.ltb_spec (k + 1) i);
      apply Hget; lia.
  - assert (E : remove_at c i = c).
    { clear Hc Hk. revert i Hi.
      induction c as [| h t IH]; intros [| i] Hi; simpl in *; auto; try lia.
      f_equal. apply IH. lia. }
    rewrite E in *. apply Hc. now rewrite length_map.
Qed.



End ExactEditor.

(** ** The tone curve through its control points *)

Section Interpolation.

Local Open Scope R_scope.

Variable up : list (Point R).

Let n := length up.
Let x := map px up.
Let y := map py up.
Let dx := segment_dx x n.
Let m := tangents (segment_delta x y n) n.

Hypothesis two_points : (2 <= n)%nat.
Hypothesis apart :
  forall k, (k + 1 < n)%nat -> 1 / 10000000 < get x (k + 1) - get x k.

Lemma x_increasing (a b : nat) :
  (a < b)%nat -> (b < n)%nat -> get x a < get x b.
Proof.
  intros Hab Hb. induction Hab as [| b Hab IH].
  - pose proof (apart a ltac:(lia)) as H.
    replace (a + 1)%nat with (S a) in H by lia. lra.
  - specialize (IH ltac:(lia)). pose proof (apart b ltac:(lia)) as H.
    replace (b + 1)%nat with (S b) in H by lia. lra.
Qed.

Lemma x_order (a b : nat) :
  (a < n)%nat -> (b < n)%nat -> get x a < get x b -> (a < b)%nat.
Proof.
  intros Ha Hb H. destruct (Nat.lt_ge_cases a b) as [L | G]; auto.
  destruct (Nat.eq_dec a b) as [-> | Hne]; [lra |].
  pose proof (x_increasing b a ltac:(lia) Ha). lra.
Qed.

Lemma lut_loop_get (len start p j : nat) :
  (p + 2 <= n)%nat -> (p = 0%nat \/ get x p < INR start) -> (j < len)%nat ->
  exists q,
    get (lut_loop x y m dx n (seq start len) p) j
    = clamp255 (hermite x y m dx q (INR (start + j)))
    /\ segment_of x n (INR (start + j)) q.
Proof.
  revert start p j.
  induction len as [| len IH]; intros start p j Hp Hpre Hj; [lia |].
  cbn [seq lut_loop]. cbv zeta.
  change (@num_of_nat R real_arith start) with (INR start).
  destruct (advance_spec up two_points (INR start) n p Hp ltac:(fold n; lia))
    as (H1 & H2 & H3 & H4).
  fold n x in H1, H2, H3, H4.
  set (p' := advance n x n (INR start) p) in *.
  destruct j as [| j].
  - exists p'. rewrite Nat.add_0_r. split; [reflexivity |].
    split; [exact H2 |]. split; [| exact H4].
    destruct H3 as [-> | H3]; auto.
  - destruct (IH (S start) p' j H2) as (q & Hq & Hseg).
    + destruct H3 as [-> | H3].
      * destruct Hpre as [-> | Hpre]; auto. right. rewrite S_INR. lra.
      * right. rewrite S_INR. lra.
    + lia.
    + exists q. replace (start + S j)%nat with (S start + j)%nat by lia.
      split; [exact Hq | exact Hseg].
Qed.

Lemma hermite_at_knot (q k : nat) :
  (k < n)%nat -> segment_of x n (get x k) q ->
  hermite x y m dx q (get x k) = get y k.
Proof.
  intros Hk (Hq & Hlo & Hhi).
  rewrite hermite_exact.
  pose proof (get_dx up two_points q ltac:(fold n; lia)) as Hdx.
  fold n x dx in Hdx. rewrite Hdx.
  pose proof (apart q ltac:(lia)) as Hgap.
  destruct (Rlt_dec (1 / 10000000) (get x (q + 1) - get x q)) as [_ | C];
    [| lra].
  destruct (Nat.eq_dec k 0) as [-> | Hk0].
  - assert (q = 0%nat) as ->.
    { destruct Hlo as [-> | Hlo]; auto.
      apply x_order in Hlo; lia. }
    replace ((get x 0 - get x 0) / (get x (0 + 1) - get x 0)) with 0
      by (field; lra).
    apply hermite_value_0.
  - assert (Hqk : (q + 1)%nat = k).
    { assert (q < k)%nat.
      { destruct Hlo as [-> | Hlo]; [lia |]. apply x_order in Hlo; lia. }
      destruct Hhi as [Hn | Hhi]; [lia |].
      destruct (Nat.lt_ge_cases (q + 1) k) as [L | G]; [| lia].
      exfalso. apply Hhi. apply x_increasing; lia. }
    rewrite <- Hqk.
    replace ((get x (q + 1) - get x q) / (get x (q + 1) - get x q)) with 1
      by (field; lra).
    apply hermite_value_1.
Qed.

End Interpolation.


Section SortedPoints.

Local Open Scope R_scope.

Lemma Map_set_fresh (m : list (Point R)) (k v : R) :
  Forall (fun q => px q <> k) m -> Map_set m k v = m ++ [mkPoint k v].
Proof.
  induction m as [| q m IH]; intros H; simpl.
  - cbn [num_eqb num_of_nat real_arith]. unfold Reqb. change (INR 0) with 0.
    destruct (Req_dec_T k 0) as [-> | _]; reflexivity.
  - inversion H as [| ? ? Hq Hm]; subst. unfold sameValueZero.
    cbn [num_eqb num_is_nan real_arith andb orb]. unfold Reqb.
    destruct (Req_dec_T (px q) k) as [E | _]; [contradiction |].
    simpl. now rewrite IH.
Qed.

Lemma fold_Map_set_increasing (l m : list (Point R)) :
  increasing l ->
  Forall (fun q => Forall (fun p => px q < px p) l) m ->
  fold_left (fun m p => Map_set m (px p) (py p)) l m = m ++ l.
Proof.
  revert m. induction l as [| p l IH]; intros m Hl Hm; simpl.
  - now rewrite app_nil_r.
  - inversion Hl as [| ? ? Hp Hl']; subst.
    rewrite Map_set_fresh.
    + rewrite IH; auto.
      * rewrite <- app_assoc. simpl. now destruct p.
      * apply Forall_app. split.
        -- eapply Forall_impl; [| exact Hm]. intros q Hq.
           now inversion Hq.
        -- constructor; [| constructor]. exact Hp.
    + eapply Forall_impl; [| exact Hm]. intros q Hq.
      inversion Hq; subst. lra.
Qed.

Lemma sort_by_x_increasing (l : list (Point R)) :
  increasing l -> sort_by_x l = l.
Proof.
  unfold sort_by_x. induction 1 as [| p l Hp Hl IH]; simpl; auto.
  rewrite IH. destruct l as [| q l]; simpl; auto.
  unfold compare_x. cbn [num_sub num_is_nan num_leb num_of_nat real_arith].
  unfold Rleb. change (INR 0) with 0.
  inversion Hp; subst.
  destruct (Rle_dec (px p - px q) 0); [reflexivity | lra].
Qed.

(** Points given in strictly increasing order of x are their own
    deduplicated and sorted list. *)
Lemma uniquePoints_increasing (points : Curve R) :
  increasing points -> uniquePoints points = points.
Proof.
  intros H. unfold uniquePoints.
  rewrite fold_Map_set_increasing by auto. simpl.
  now apply sort_by_x_increasing.
Qed.

End SortedPoints.


(** ** The crop box *)

Section ExactCrop.

Local Open Scope R_scope.

Lemma numericAR_positive (ar : string) (r : R) :
  numericAR ar = Some r -> 0 < r.
Proof.
  unfold numericAR. cbn [num_div num_of_nat real_arith].
  rewrite !INR_lit.
  repeat (destruct (String.eqb ar _);
          [intros H; injection H as <-; simpl; lra |]).
  discriminate.
Qed.

Lemma truthy_positive (r : R) : 0 < r -> truthy (Some r) = true.
Proof.
  intros H. unfold truthy. cbn [num_eqb num_is_nan num_of_nat real_arith orb].
  unfold Reqb. change (INR 0) with 0.
  destruct (Req_dec_T r 0); [lra | reflexivity].
Qed.

Lemma centred_box_spec (r : option R) (width height : R) :
  0 < width -> 0 < height -> (forall v, r = Some v -> 0 < v) ->
  let box := centred_box r width height in
  0 <= crop_x box /\ 0 <= crop_y box
  /\ crop_x box + crop_width box + crop_x box = width
  /\ crop_y box + crop_height box + crop_y box = height
  /\ (crop_width box = width \/ crop_height box = height)
  /\ (forall v, r = Some v -> crop_width box = v * crop_height box).
Proof.
  intros Hw Hh Hr. unfold centred_box.
  destruct r as [v |].
  - specialize (Hr v eq_refl). rewrite (truthy_positive v Hr).
    cbn [num_ltb num_div num_mul num_sub num_of_nat real_arith].
    rewrite INR_lit. change (IZR (Z.of_nat 2)) with 2.
    unfold Rltb.
    assert (Hq : width / height * height = width) by (field; lra).
    destruct (Rlt_dec v (width / height)) as [Hlt | Hge]; cbv zeta;
      cbn [crop_x crop_y crop_width crop_height].
    + assert (height * v < width).
      { rewrite <- Hq. rewrite (Rmult_comm height v).
        apply Rmult_lt_compat_r; lra. }
      split; [lra |]. split; [lra |]. split; [lra |]. split; [lra |].
      split; [right; reflexivity |].
      intros v' E. injection E as <-. ring.
    + assert (Hle : width <= height * v).
      { rewrite <- Hq. rewrite (Rmult_comm height v).
        apply Rmult_le_compat_r; lra. }
      assert (Hdiv : width / v * v = width) by (field; lra).
      assert (Hdv : width / v <= height).
      { apply (Rmult_le_reg_r v); [exact Hr |]. rewrite Hdiv. lra. }
      split; [lra |]. split; [lra |]. split; [lra |]. split; [lra |].
      split; [left; reflexivity |].
      intros v' E. injection E as <-. lra.
  - cbn [num_div num_sub num_of_nat real_arith]. cbv zeta.
    cbn [crop_x crop_y crop_width crop_height].
    rewrite INR_lit. change (IZR (Z.of_nat 2)) with 2.
    split; [lra |]. split; [lra |]. split; [lra |]. split; [lra |].
    split; [left; reflexivity | discriminate].
Qed.



(** Decides the comparisons of a goal one by one, reducing in between,
    and closes the cases by linear arithmetic. *)
Ltac crop_reduce :=
  cbv beta iota zeta;
  cbn [orb negb crop_x crop_y crop_width crop_height].

Ltac decided a :=
  lazymatch a with
  | context [Rlt_dec _ _] => fail
  | context [Rle_dec _ _] => fail
  | context [Req_dec_T _ _] => fail
  | _ => idtac
  end.

Ltac crop_cases :=
  crop_reduce;
  repeat (match goal with
          | |- context [Req_dec_T ?a ?b] =>
              decided a; decided b; destruct (Req_dec_T a b)
          | |- context [Rlt_dec ?a ?b] =>
              decided a; decided b; destruct (Rlt_dec a b)
          | |- context [Rle_dec ?a ?b] =>
              decided a; decided b; destruct (Rle_dec a b)
          end; crop_reduce);
  repeat split; try lra; try discriminate; try congruence.



End ExactCrop.

(** ** The rendered canvas of an opaque image *)

Lemma same_frame_trans (a b c : ImageData) :
  same_frame a b -> same_frame b c -> same_frame a c.
Proof.
  intros (Hw & Hh & Hl & Hk) (Hw' & Hh' & Hl' & Hk').
  split; [congruence |]. split; [congruence |]. split; [congruence |].
  intros k Hnot. rewrite Hk' by exact Hnot. now apply Hk.
Qed.

Lemma when_frame (c : bool) (f : ImageData -> ImageData) (x img : ImageData) :
  (forall d, same_frame d (f d)) -> same_frame x img ->
  same_frame x (when c f img).
Proof.
  intros Hf Hx. unfold when. destruct c; auto.
  eapply same_frame_trans; eauto.
Qed.

Lemma pixelStages_frame Math_cos Math_pow Math_random img a :
  same_frame img (pixelStages Math_cos Math_pow Math_random img a).
Proof.
  unfold pixelStages. cbv zeta.
  apply when_frame; [intros d; apply applyGrain_frame |].
  apply when_frame; [intros d; apply applySharpen_frame |].
  apply when_frame; [intros d; apply applyHaze_frame |].
  apply when_frame; [intros d; apply applyHsl_frame |].
  apply when_frame; [intros d; apply applyCurves_frame |].
  apply when_frame; [intros d; apply applyWhitesBlacks_frame |].
  apply when_frame; [intros d; apply applyHighlightsShadows_frame |].
  apply when_frame; [intros d; apply applyDehaze_frame |].
  apply when_frame; [intros d; apply applyVibrance_frame |].
  apply when_frame; [intros d; apply applyTemperature_frame |].
  apply when_frame; [intros d; apply applyExposure_frame |].
  apply same_frame_refl.
Qed.

Lemma source_over_opaque (p q : RGBA) : ca p = 255 -> source_over p q = p.
Proof.
  intros Hp. destruct p as [r g b a], q as [r' g' b' a'].
  cbn [ca] in Hp. subst a. unfold source_over, pointwise.
  cbn [cr cg cb ca]. change (255 - 255) with 0. rewrite !mul255_0.
  f_equal; lia.
Qed.

Lemma same_frame_opaque (img out : ImageData) :
  same_frame img out -> opaque_image img -> opaque_image out.
Proof.
  intros (Hw & Hh & Hl & Hk) Hop x y Hx Hy.
  rewrite Hw in *. rewrite Hh in Hy. specialize (Hop x y Hx Hy).
  unfold byte_or_0 in *.
  assert (Hi : 0 <= (y * width img + x) * 4 + 3) by nia.
  destruct (Z.ltb_spec ((y * width img + x) * 4 + 3) 0); [lia |].
  rewrite Hk; [exact Hop |].
  rewrite Z2Nat.id by lia. unfold colour_offset.
  intros C. apply C. Z.div_mod_to_equations. lia.
Qed.

(** X25.  An opaque image is rendered as its adjusted image, masks or no
    masks.  When every pixel of the base image is opaque and the canvas
    filter keeps the size and the alpha bytes of what it draws, as the
    pixel operators do, the canvas after [drawCanvas] holds exactly the
    adjusted image, whatever the adjustments and the layers are. *)
Theorem opaque_image_renders_as_adjusted :
  forall (Math_cos : number -> number) (Math_pow : number -> number -> number)
         (Math_random : Z -> number)
         (canvasFilter : number -> number -> number -> number ->
                         ImageData -> ImageData)
         (st : EditorState) (a : Adjustments) (baseImage : ImageData),
    (forall b c s p img, same_frame img (canvasFilter b c s p img)) ->
    baseImageSrc st = Some baseImage ->
    opaque_image baseImage ->
    same_frame baseImage
      (adjustedImage Math_cos Math_pow Math_random canvasFilter baseImage a)
    /\ drawCanvas Math_cos Math_pow Math_random canvasFilter st a
       = Some (toSurface (adjustedImage Math_cos Math_pow Math_random
                            canvasFilter baseImage a)).
Proof.
  intros Math_cos Math_pow Math_random canvasFilter st a baseImage Hcss Hb Hop.
  set (adj := adjustedImage Math_cos Math_pow Math_random canvasFilter
                baseImage a).
  assert (Hframe : same_frame baseImage adj).
  { unfold adj, adjustedImage. cbv zeta.
    destruct (needsPixelManipulation a); [| apply Hcss].
    eapply same_frame_trans; [apply Hcss | apply pixelStages_frame]. }
  split; [exact Hframe |].
  pose proof (same_frame_opaque _ _ Hframe Hop) as Hadj.
  destruct Hframe as (Hw & Hh & _).
  set (w := width baseImage) in *. set (h := height baseImage) in *.
  assert (HS : exists g, toSurface adj = tabulate w h g
                         /\ forall x y, 0 <= x < w -> 0 <= y < h ->
                                        ca (g x y) = 255).
  { unfold toSurface. rewrite Hw, Hh. eexists. split; [reflexivity |].
    intros x y Hx Hy. cbn [ca]. rewrite <- Hw. apply Hadj; lia. }
  destruct HS as (g & HS & Hg).
  unfold drawCanvas. rewrite Hb. fold adj w h. rewrite HS.
  destruct (filter visible (layers st)) as [| l ls].
  - f_equal. apply draw_over_blank.
  - f_equal. rewrite draw_over_blank.
    rewrite (clip_to_opaque_mask w h) by apply compositeMask_opaque.
    unfold drawImage at 1. rewrite drawImage_width, drawImage_height.
    unfold createCanvas. cbn [s_width s_height tabulate].
    apply tabulate_ext. intros x y Hx Hy.
    rewrite pixel_at_tabulate by assumption.
    apply source_over_opaque. now apply Hg.
Qed.

Lemma opaque_image_renders_as_adjusted_witness :
  let base := mkImageData 1 1 [200; 100; 50; 255] in
  let st := mkEditorState (Some base) [white_layer] warm_adjustments in
  opaque_image base
  /\ drawCanvas SampleHost.Math_cos SampleHost.Math_pow SampleHost.Math_random
                (fun _ _ _ _ img => img) st warm_adjustments
     = Some (toSurface
               (adjustedImage SampleHost.Math_cos SampleHost.Math_pow
                  SampleHost.Math_random (fun _ _ _ _ img => img) base
                  warm_adjustments)).
Proof.
  assert (H : opaque_image (mkImageData 1 1 [200; 100; 50; 255])).
  { intros x y Hx Hy. cbn [width height data] in *.
    replace x with 0 by lia. replace y with 0 by lia. reflexivity. }
  split; [exact H |].
  exact (proj2 (opaque_image_renders_as_adjusted
                  SampleHost.Math_cos SampleHost.Math_pow
                  SampleHost.Math_random (fun _ _ _ _ img => img)
                  (mkEditorState (Some (mkImageData 1 1 [200; 100; 50; 255]))
                                 [white_layer] warm_adjustments)
                  warm_adjustments _
                  (fun _ _ _ _ img => same_frame_refl img) eq_refl H)).
Defined.
